(** * Authentication and session core of the backend template

    A shallow embedding of
    - [core/services/sessionService.ts]   (class [SessionService]),
    - [modules/api-keys/service.ts]       (class [ApiKeyService]),
    - [core/http/middleware/auth.ts]      ([requireAuth]),
    - [core/http/middleware/rbac.ts]      ([ROLE_HIERARCHY], [requireRoles],
                                           [hasRolePermission]),
    - [core/config/env.ts]                (the session settings of [EnvSchema]),
    together with the properties of the specification that concern them,
    and, for the further properties of the last part, of
    - [core/http/middleware/auth.ts]      ([requireSession], [requireRole]),
    - [core/http/middleware/rbac.ts]      ([requireAdmin], [requireUser],
                                           [requireGuest], [getEffectivePermissions]),
    - [modules/api-keys/service.ts]       ([listUserApiKeys], [deleteApiKey],
                                           [deleteAllUserApiKeys],
                                           [cleanupExpiredApiKeys]),
    - [modules/api-keys/handlers]         ([createApiKeyHandler],
                                           [deleteApiKeyHandler], [listApiKeysHandler]),
    - [modules/auth/handlers]             ([logoutHandler], [logoutAllHandler],
                                           [deleteSessionHandler]),
    - [core/services/cloudflareIpService.ts] (class [CloudflareIpService]),
    - [core/http/middleware/cloudflare.ts]   ([extractCloudflareInfo]).

    Conventions of the embedding.
    - JavaScript strings are [string]; the strings that matter here (tokens,
      keys, header values) are sequences of code units below 256.
    - Numbers that hold timestamps are [Z]; [Date.now()] is the millisecond
      clock of the world, [Math.floor(Date.now() / 1000)] is [clock / 1000].
      Redis expires keys by the same clock. A call runs at one instant; time
      passes between calls.
    - An [async] method is a state transformer on [World] that returns either
      a value or a thrown error ([Res]); [try]/[catch] is [try_catch].
    - Redis and the relational store are part of the world. Each command sent
      to either of them may fail: the world carries the list of outcomes of
      the coming commands ([faults]); the empty list means a reachable store.
    - The value of a session key is the [SessionPayload] itself: the service
      is the only writer of these keys and [JSON.parse (JSON.stringify p)]
      gives back the fields of [p]. *)

From Stdlib Require Import ZArith Ascii String List Lia Bool.
From stdpp Require Import gmap strings list fin_maps sorting pretty.

Local Open Scope string_scope.
Local Open Scope Z_scope.

(** ** Strings *)

Definition chars (s : string) : list ascii := list_ascii_of_string s.
Definition str (l : list ascii) : string := string_of_list_ascii l.
Definition code (c : ascii) : Z := Z.of_N (N_of_ascii c).

(** [c] lies between the characters [lo] and [hi], as in a class [[lo-hi]]. *)
Definition in_range (lo hi c : ascii) : bool :=
  (code lo <=? code c) && (code c <=? code hi).

Definition is_lower_alpha (c : ascii) : bool := in_range "a" "z" c.
Definition is_lower_hex (c : ascii) : bool := in_range "0" "9" c || in_range "a" "f" c.

(** [s.startsWith(p)] *)
Definition startsWith (p s : string) : bool := String.prefix p s.

(** [s.substring(n)] for [0 <= n] *)
Definition substring_from (n : nat) (s : string) : string := str (drop n (chars s)).

(** [s.substring(0, n)] *)
Definition substring_to (n : nat) (s : string) : string := str (take n (chars s)).

(** [s.slice(-n)]: the last [n] characters. *)
Definition slice_last (n : nat) (s : string) : string :=
  str (drop (List.length (chars s) - n) (chars s)).

(** ** Hexadecimal rendering: [Buffer.toString('hex')], [Buffer.from(s, 'hex')] *)

Definition hex_digit (n : Z) : ascii :=
  if n <? 10 then ascii_of_N (Z.to_N (48 + n)) else ascii_of_N (Z.to_N (87 + n)).

Definition hex_of_byte (b : Z) : list ascii :=
  [hex_digit (Z.shiftr b 4); hex_digit (Z.land b 15)].

Definition toHex (bs : list Z) : string := str (flat_map hex_of_byte bs).

(** Value of a hexadecimal digit; [Buffer.from] accepts both cases. *)
Definition hex_val (c : ascii) : option Z :=
  if in_range "0" "9" c then Some (code c - 48)
  else if in_range "a" "f" c then Some (code c - 87)
  else if in_range "A" "F" c then Some (code c - 55)
  else None.

(** [Buffer.from(s, 'hex')] decodes pairs of digits and stops at the first
    pair that is not hexadecimal (or at a lone last character). *)
Fixpoint fromHex_chars (l : list ascii) : list Z :=
  match l with
  | c1 :: c2 :: rest =>
      match hex_val c1, hex_val c2 with
      | Some h, Some lo => (16 * h + lo) :: fromHex_chars rest
      | _, _ => []
      end
  | _ => []
  end.

Definition fromHex (s : string) : list Z := fromHex_chars (chars s).

(** ** SHA-256 ([createHash('sha256')], FIPS 180-4) on 32-bit words held in [Z] *)

Module SHA256.

Definition wrap (x : Z) : Z := x mod 2 ^ 32.
Definition add32 (x y : Z) : Z := wrap (x + y).
Definition rotr (n x : Z) : Z :=
  Z.lor (Z.shiftr x n) (wrap (Z.shiftl x (32 - n))).
Definition not32 (x : Z) : Z := 2 ^ 32 - 1 - x.

Definition ch (x y z : Z) : Z := Z.lxor (Z.land x y) (Z.land (not32 x) z).
Definition maj (x y z : Z) : Z :=
  Z.lxor (Z.lxor (Z.land x y) (Z.land x z)) (Z.land y z).
Definition bsig0 (x : Z) : Z := Z.lxor (Z.lxor (rotr 2 x) (rotr 13 x)) (rotr 22 x).
Definition bsig1 (x : Z) : Z := Z.lxor (Z.lxor (rotr 6 x) (rotr 11 x)) (rotr 25 x).
Definition ssig0 (x : Z) : Z := Z.lxor (Z.lxor (rotr 7 x) (rotr 18 x)) (Z.shiftr x 3).
Definition ssig1 (x : Z) : Z := Z.lxor (Z.lxor (rotr 17 x) (rotr 19 x)) (Z.shiftr x 10).

(** The constants are the fractional parts of the square and cube roots of
    the first primes; they are computed rather than tabulated. *)
Definition is_prime (n : nat) : bool :=
  forallb (fun d => negb (Nat.eqb (n mod d) 0)) (seq 2 (n - 2)).

Definition primes64 : list Z :=
  Eval vm_compute in map Z.of_nat (List.filter is_prime (seq 2 310)).

(** Largest [r] below [2 ^ bits] (above the bits already set in [r]) with
    [r ^ 3 <= n]. *)
Fixpoint cube_root_bits (bits : nat) (n r : Z) : Z :=
  match bits with
  | O => r
  | S b =>
      let r' := r + 2 ^ Z.of_nat b in
      cube_root_bits b n (if r' * r' * r' <=? n then r' else r)
  end.

Definition frac_cbrt (p : Z) : Z := wrap (cube_root_bits 36 (p * 2 ^ 96) 0).
Definition frac_sqrt (p : Z) : Z := wrap (Z.sqrt (p * 2 ^ 64)).

Definition K : list Z := Eval vm_compute in map frac_cbrt primes64.
Definition H0 : list Z := Eval vm_compute in map frac_sqrt (take 8 primes64).

(** Padding: a one bit, zeros up to 56 modulo 64, the bit length on 8 bytes. *)
Definition be_bytes (n : nat) (x : Z) : list Z :=
  map (fun i => Z.land (Z.shiftr x (8 * Z.of_nat (n - 1 - i))) 255) (seq 0 n).

Definition pad (msg : list Z) : list Z :=
  let len := Z.of_nat (List.length msg) in
  let zeros := Z.to_nat ((55 - len) mod 64) in
  msg ++ [128] ++ repeat 0 zeros ++ be_bytes 8 (8 * len).

Definition word_of (bs : list Z) : Z :=
  fold_left (fun acc b => 256 * acc + b) bs 0.

Fixpoint words (n : nat) (bs : list Z) : list Z :=
  match n with
  | O => []
  | S n' => word_of (take 4 bs) :: words n' (drop 4 bs)
  end.

Definition nth_word (ws : list Z) (i : nat) : Z := nth i ws 0.

(** The message schedule, built from the newest word backwards: [ws] holds
    [W(t-1), W(t-2), ...]. *)
Fixpoint schedule (n : nat) (ws : list Z) : list Z :=
  match n with
  | O => ws
  | S n' =>
      let w := add32 (add32 (ssig1 (nth_word ws 1)) (nth_word ws 6))
                     (add32 (ssig0 (nth_word ws 14)) (nth_word ws 15)) in
      schedule n' (w :: ws)
  end.

Record regs := Regs { ra : Z; rb : Z; rc : Z; rd : Z; re : Z; rf : Z; rg : Z; rh : Z }.

Definition round (s : regs) (kw : Z * Z) : regs :=
  let t1 := add32 (add32 (add32 (rh s) (bsig1 (re s))) (add32 (ch (re s) (rf s) (rg s)) (fst kw)))
                  (snd kw) in
  let t2 := add32 (bsig0 (ra s)) (maj (ra s) (rb s) (rc s)) in
  Regs (add32 t1 t2) (ra s) (rb s) (rc s) (add32 (rd s) t1) (re s) (rf s) (rg s).

Definition regs_of (h : list Z) : regs :=
  Regs (nth_word h 0) (nth_word h 1) (nth_word h 2) (nth_word h 3)
       (nth_word h 4) (nth_word h 5) (nth_word h 6) (nth_word h 7).

Definition list_of (s : regs) : list Z :=
  [ra s; rb s; rc s; rd s; re s; rf s; rg s; rh s].

Definition compress (h : list Z) (block : list Z) : list Z :=
  let w := rev (schedule 48 (rev (words 16 block))) in
  let s := fold_left round (combine K w) (regs_of h) in
  map (fun p => add32 (fst p) (snd p)) (combine h (list_of s)).

Fixpoint blocks (n : nat) (h : list Z) (bs : list Z) : list Z :=
  match n with
  | O => h
  | S n' => blocks n' (compress h (take 64 bs)) (drop 64 bs)
  end.

Definition digest (msg : list Z) : list Z :=
  let p := pad msg in
  flat_map (be_bytes 4) (blocks (List.length p / 64) H0 p).

End SHA256.

(** [hash.update(s)] hashes the UTF-8 encoding of [s]. *)
Definition utf8 (s : string) : list Z :=
  flat_map (fun c => let n := code c in
                     if n <? 128 then [n]
                     else [Z.lor 192 (Z.shiftr n 6); Z.lor 128 (Z.land n 63)])
           (chars s).

Definition sha256_hex (s : string) : string := toHex (SHA256.digest (utf8 s)).

(** ** Regular expressions, as far as [API_KEY_REGEX] needs them

    [rmatch r s] lists what is left of [s] after each way of matching [r] at
    its start; [RegExp.test] on an expression anchored by [^] and [$] asks
    for a way that leaves nothing. *)

Inductive regex :=
| Class (ranges : list (ascii * ascii))
| Lit (c : ascii)
| Cat (r1 r2 : regex)
| Opt (r : regex)
| Rep (lo hi : nat) (r : regex).

Definition in_class (ranges : list (ascii * ascii)) (c : ascii) : bool :=
  existsb (fun p => in_range (fst p) (snd p) c) ranges.

(** [r{lo,hi}] for the one-step matcher [m] *)
Fixpoint rep (m : list ascii -> list (list ascii)) (lo hi : nat) (s : list ascii)
  : list (list ascii) :=
  match hi with
  | O => if Nat.eqb lo 0 then [s] else []
  | S hi' => flat_map (rep m (Nat.pred lo) hi') (m s) ++ (if Nat.eqb lo 0 then [s] else [])
  end.

Fixpoint rmatch (r : regex) (s : list ascii) : list (list ascii) :=
  match r with
  | Class ranges =>
      match s with
      | c :: s' => if in_class ranges c then [s'] else []
      | [] => []
      end
  | Lit c =>
      match s with
      | c' :: s' => if Ascii.eqb c c' then [s'] else []
      | [] => []
      end
  | Cat r1 r2 => flat_map (rmatch r2) (rmatch r1 s)
  | Opt r1 => rmatch r1 s ++ [s]
  | Rep lo hi r1 => rep (rmatch r1) lo hi s
  end.

Definition is_nil {A} (l : list A) : bool := match l with [] => true | _ => false end.

(** [/^r$/.test(s)] *)
Definition regex_test (r : regex) (s : string) : bool :=
  existsb is_nil (rmatch r (chars s)).

(** ** Data model *)

Inductive UserRole := ADMIN | USER | GUEST.

#[export] Instance UserRole_eq_dec : EqDecision UserRole.
Proof. solve_decision. Defined.

(** [SessionPayload], the value of a session key *)
Record SessionPayload := mkSession {
  uid : string;
  roles : list UserRole;
  exp : Z;
  createdAt : Z;
  lastUsedAt : Z;
  ip : option string;
  userAgent : option string;
  country : option string
}.

(** [SessionMetadata], an element of a listing; the dates are milliseconds *)
Record SessionMetadata := mkMeta {
  tokenId : string;
  tokenIdHash : string;
  m_createdAt : Z;
  m_lastUsedAt : Z;
  m_ip : option string;
  m_userAgent : option string;
  m_country : option string
}.

(** The optional argument of [createSession] *)
Record Fingerprint := mkFingerprint {
  f_ip : option string;
  f_userAgent : option string;
  f_country : option string
}.

(** The selected columns of a user: the principal attached to a request *)
Record User := mkUser {
  user_id : string;
  email : string;
  name : option string;
  user_roles : list UserRole;
  isActive : bool
}.

(** A row of the API key table *)
Record ApiKey := mkApiKey {
  key_id : string;
  userId : string;
  key_name : option string;
  keyHash : string;
  key_createdAt : Z;
  key_lastUsedAt : option Z;
  expiresAt : option Z
}.

(** [ApiKeyWithUser]: the row with its owner included *)
Record ApiKeyWithUser := mkApiKeyWithUser {
  key : ApiKey;
  user : User
}.

(** ** The world: clock, Redis, relational store, randomness, failures *)

Inductive rvalue :=
| RString (p : SessionPayload)
| RSet (members : gset string).

(** A Redis key holds a value and, possibly, the instant (ms) it expires at. *)
Record rentry := mkEntry {
  rval : rvalue;
  deadline : option Z
}.

(** The commands sent to the two stores, newest first in [iolog] *)
Inductive IO :=
| RedisSetEx (k : string) (ttl : Z) (v : SessionPayload)
| RedisGet (k : string)
| RedisSAdd (k m : string)
| RedisExpire (k : string) (ttl : Z)
| RedisSRem (k m : string)
| RedisDel (ks : list string)
| RedisSMembers (k : string)
| DbUserFindUnique (id : string)
| DbApiKeyCreate (owner hash : string)
| DbApiKeyFindFirst (hash : string)
| DbApiKeyUpdate (id : string).

Record World := mkWorld {
  clock : Z;                      (* Date.now(), milliseconds *)
  redis : gmap string rentry;
  users : list User;              (* the user table *)
  apiKeys : list ApiKey;          (* the API key table, in insertion order *)
  entropy : nat -> Z;             (* the bytes randomBytes will deliver *)
  drawn : nat;                    (* how many of them were consumed *)
  faults : list bool;             (* outcome of the coming store commands *)
  iolog : list IO
}.

Definition set_clock (c : Z) (w : World) : World :=
  mkWorld c (redis w) (users w) (apiKeys w) (entropy w) (drawn w) (faults w) (iolog w).
Definition set_redis (r : gmap string rentry) (w : World) : World :=
  mkWorld (clock w) r (users w) (apiKeys w) (entropy w) (drawn w) (faults w) (iolog w).
Definition set_users (us : list User) (w : World) : World :=
  mkWorld (clock w) (redis w) us (apiKeys w) (entropy w) (drawn w) (faults w) (iolog w).
Definition set_apiKeys (ks : list ApiKey) (w : World) : World :=
  mkWorld (clock w) (redis w) (users w) ks (entropy w) (drawn w) (faults w) (iolog w).
Definition set_drawn (n : nat) (w : World) : World :=
  mkWorld (clock w) (redis w) (users w) (apiKeys w) (entropy w) n (faults w) (iolog w).
Definition set_faults (fs : list bool) (w : World) : World :=
  mkWorld (clock w) (redis w) (users w) (apiKeys w) (entropy w) (drawn w) fs (iolog w).
Definition log_io (e : IO) (w : World) : World :=
  mkWorld (clock w) (redis w) (users w) (apiKeys w) (entropy w) (drawn w) (faults w) (e :: iolog w).

(** ** Asynchronous methods: state and exceptions *)

Inductive Res (A : Type) :=
| Ok (a : A)
| Throw (msg : string).
Arguments Ok {A} a.
Arguments Throw {A} msg.

Definition M (A : Type) : Type := World -> Res A * World.

Definition ret {A} (a : A) : M A := fun w => (Ok a, w).
Definition throw {A} (msg : string) : M A := fun w => (Throw msg, w).
Definition bind {A B} (m : M A) (k : A -> M B) : M B :=
  fun w => match m w with
           | (Ok a, w') => k a w'
           | (Throw e, w') => (Throw e, w')
           end.
Definition try_catch {A} (m : M A) (handler : string -> M A) : M A :=
  fun w => match m w with
           | (Ok a, w') => (Ok a, w')
           | (Throw e, w') => handler e w'
           end.

Notation "'await' x <- m 'in' k" := (bind m (fun x => k))
  (at level 10, x name, m at level 100, k at level 200).
Notation "'exec' m 'in' k" := (bind m (fun _ => k))
  (at level 10, m at level 100, k at level 200).

(** [Math.floor(Date.now() / 1000)] *)
Definition now_seconds : M Z := fun w => (Ok (clock w / 1000), w).

(** [new Date()] *)
Definition now_ms : M Z := fun w => (Ok (clock w), w).

(** [randomBytes(n)] *)
Definition randomBytes (n : nat) : M (list Z) :=
  fun w => (Ok (map (fun i => entropy w (drawn w + i)%nat mod 256) (seq 0 n)),
            set_drawn (drawn w + n)%nat w).

(** Every command is logged, then succeeds or fails as the head of [faults]
    says; with no outcome announced it succeeds. *)
Definition after (e : IO) (w : World) : World :=
  set_faults (tail (faults w)) (log_io e w).

Definition command (e : IO) : M unit :=
  fun w => if hd false (faults w)
           then (Throw "store unavailable", after e w)
           else (Ok tt, after e w).

(** ** Redis: the commands the session service sends

    A key whose deadline has passed is invisible to every command (Redis
    expires keys by itself); a command on a key of the wrong type fails. *)

Definition live (now : Z) (e : rentry) : bool :=
  match deadline e with
  | Some d => now <? d
  | None => true
  end.

Definition redis_lookup (k : string) (w : World) : option rentry :=
  match redis w !! k with
  | Some e => if live (clock w) e then Some e else None
  | None => None
  end.

Definition modify_redis {A} (f : World -> Res A * gmap string rentry) : M A :=
  fun w => let '(r, m) := f w in (r, set_redis m w).

(** [SETEX key seconds value] *)
Definition redis_setEx (k : string) (ttl : Z) (v : SessionPayload) : M unit :=
  exec command (RedisSetEx k ttl v) in
  modify_redis (fun w =>
    if ttl <=? 0 then (Throw "ERR invalid expire time in 'setex' command", redis w)
    else (Ok tt, <[k := mkEntry (RString v) (Some (clock w + ttl * 1000))]> (redis w))).

(** [GET key] *)
Definition redis_get (k : string) : M (option SessionPayload) :=
  exec command (RedisGet k) in
  fun w => match redis_lookup k w with
           | None => (Ok None, w)
           | Some e => match rval e with
                       | RString v => (Ok (Some v), w)
                       | RSet _ => (Throw "WRONGTYPE", w)
                       end
           end.

(** [SADD key member]: creates the set, without deadline, when the key is
    absent; keeps the deadline of a set that exists. *)
Definition redis_sAdd (k m : string) : M unit :=
  exec command (RedisSAdd k m) in
  modify_redis (fun w =>
    match redis_lookup k w with
    | None => (Ok tt, <[k := mkEntry (RSet {[ m ]}) None]> (redis w))
    | Some e => match rval e with
                | RSet s => (Ok tt, <[k := mkEntry (RSet ({[ m ]} ∪ s)) (deadline e)]> (redis w))
                | RString _ => (Throw "WRONGTYPE", redis w)
                end
    end).

(** [EXPIRE key seconds] *)
Definition redis_expire (k : string) (ttl : Z) : M unit :=
  exec command (RedisExpire k ttl) in
  modify_redis (fun w =>
    match redis_lookup k w with
    | None => (Ok tt, redis w)
    | Some e => if ttl <=? 0 then (Ok tt, delete k (redis w))
                else (Ok tt, <[k := mkEntry (rval e) (Some (clock w + ttl * 1000))]> (redis w))
    end).

(** [SREM key member]: a set left empty is removed. *)
Definition redis_sRem (k m : string) : M unit :=
  exec command (RedisSRem k m) in
  modify_redis (fun w =>
    match redis_lookup k w with
    | None => (Ok tt, redis w)
    | Some e => match rval e with
                | RSet s =>
                    let s' := s ∖ {[ m ]} in
                    if decide (s' = ∅) then (Ok tt, delete k (redis w))
                    else (Ok tt, <[k := mkEntry (RSet s') (deadline e)]> (redis w))
                | RString _ => (Throw "WRONGTYPE", redis w)
                end
    end).

(** [DEL key ...] *)
Definition redis_del (ks : list string) : M unit :=
  exec command (RedisDel ks) in
  modify_redis (fun w => (Ok tt, foldr delete (redis w) ks)).

(** [SMEMBERS key] *)
Definition redis_sMembers (k : string) : M (list string) :=
  exec command (RedisSMembers k) in
  fun w => match redis_lookup k w with
           | None => (Ok [], w)
           | Some e => match rval e with
                       | RSet s => (Ok (elements s), w)
                       | RString _ => (Throw "WRONGTYPE", w)
                       end
           end.

(** ** Configuration ([config/env.ts]) *)

Record Config := mkConfig {
  SESSION_COOKIE_NAME : string;
  SESSION_TTL_SECONDS : Z;
  SESSION_SLIDING_EXTENSION_SECONDS : Z
}.

(** What [EnvSchema] accepts: both durations are [int().positive()]. *)
Definition EnvSchema (config : Config) : Prop :=
  0 < SESSION_TTL_SECONDS config /\ 0 < SESSION_SLIDING_EXTENSION_SECONDS config.

(** The defaults of [EnvSchema] *)
Definition default_config : Config := mkConfig "template_session" 86400 3600.

(** ** SessionService *)

Definition sessKey (tokenId : string) : string := "sess:" +:+ tokenId.
Definition userSessionsKey (userId : string) : string := "user:" +:+ userId +:+ ":sessions".

(** [generateSessionToken]: 32 random bytes, 64 hexadecimal characters *)
Definition generateSessionToken : M string :=
  await bytes <- randomBytes 32 in ret (toHex bytes).

Definition renew (now ttl : Z) (s : SessionPayload) : SessionPayload :=
  mkSession (uid s) (roles s) (now + ttl) (createdAt s) now (ip s) (userAgent s) (country s).

Definition metadata_of (tokenId : string) (s : SessionPayload) : SessionMetadata :=
  mkMeta tokenId (substring_to 8 tokenId +:+ "...")
         (createdAt s * 1000) (lastUsedAt s * 1000) (ip s) (userAgent s) (country s).

(** The comparator [(a, b) => b.lastUsedAt - a.lastUsedAt]: [a] may stay
    before [b] when it was used at least as recently. *)
Definition more_recent (a b : SessionMetadata) : Prop := m_lastUsedAt b <= m_lastUsedAt a.

#[export] Instance more_recent_dec : RelDecision more_recent.
Proof. intros a b. unfold more_recent. apply _. Defined.

Section SessionService.

Variable config : Config.

Definition createSession (userId : string) (roles : list UserRole)
    (metadata : option Fingerprint) : M string :=
  await tokenId <- generateSessionToken in
  await now <- now_seconds in
  let sessionPayload :=
    mkSession userId roles (now + SESSION_TTL_SECONDS config) now now
              (metadata ≫= f_ip) (metadata ≫= f_userAgent) (metadata ≫= f_country) in
  let sessionKey := sessKey tokenId in
  let userSessionsKey := userSessionsKey userId in
  try_catch
    (exec redis_setEx sessionKey (SESSION_TTL_SECONDS config) sessionPayload in
     exec redis_sAdd userSessionsKey tokenId in
     exec redis_expire userSessionsKey (SESSION_TTL_SECONDS config) in
     ret tokenId)
    (fun _ => throw "Session creation failed").

Definition deleteSession (tokenId : string) : M unit :=
  let sessionKey := sessKey tokenId in
  try_catch
    (await sessionData <- redis_get sessionKey in
     exec (match sessionData with
           | Some session => redis_sRem (userSessionsKey (uid session)) tokenId
           | None => ret tt
           end) in
     redis_del [sessionKey])
    (fun _ => throw "Session deletion failed").

Definition getSession (tokenId : string) : M (option SessionPayload) :=
  let sessionKey := sessKey tokenId in
  try_catch
    (await sessionData <- redis_get sessionKey in
     match sessionData with
     | None => ret None
     | Some session =>
         await now <- now_seconds in
         if exp session <=? now then
           exec deleteSession tokenId in ret None
         else
           let timeSinceLastUse := now - lastUsedAt session in
           if SESSION_SLIDING_EXTENSION_SECONDS config <=? timeSinceLastUse then
             let session' := renew now (SESSION_TTL_SECONDS config) session in
             exec redis_setEx sessionKey (SESSION_TTL_SECONDS config) session' in
             ret (Some session')
           else ret (Some session)
     end)
    (fun _ => ret None).

Definition deleteAllUserSessions (userId : string) : M unit :=
  let userSessionsKey := userSessionsKey userId in
  try_catch
    (await sessionTokens <- redis_sMembers userSessionsKey in
     if (0 <? Z.of_nat (List.length sessionTokens)) then
       let sessionKeys := map sessKey sessionTokens in
       exec redis_del sessionKeys in
       redis_del [userSessionsKey]
     else ret tt)
    (fun _ => throw "Session deletion failed").

(** The body of the loop of [listUserSessions] *)
Fixpoint collect_sessions (sessionTokens : list string) (sessions : list SessionMetadata)
  : M (list SessionMetadata) :=
  match sessionTokens with
  | [] => ret sessions
  | tokenId :: rest =>
      await sessionData <- redis_get (sessKey tokenId) in
      match sessionData with
      | Some session => collect_sessions rest (sessions ++ [metadata_of tokenId session])
      | None => collect_sessions rest sessions
      end
  end.

Definition listUserSessions (userId : string) : M (list SessionMetadata) :=
  try_catch
    (await sessionTokens <- redis_sMembers (userSessionsKey userId) in
     await sessions <- collect_sessions sessionTokens [] in
     ret (merge_sort more_recent sessions))
    (fun _ => throw "Session listing failed").

End SessionService.

(** ** The relational store: the queries the API key service sends *)

Definition user_by_id (w : World) (id : string) : option User :=
  List.find (fun u => String.eqb (user_id u) id) (users w).

(** [prisma.user.findUnique({ where: { id } })] *)
Definition db_user_findUnique (id : string) : M (option User) :=
  exec command (DbUserFindUnique id) in
  fun w => (Ok (user_by_id w id), w).

(** [prisma.apiKey.create]: the store chooses the identifier (here the row
    number) and the creation date. *)
Definition db_apiKey_create (owner : string) (name : option string) (hash : string)
    (expires : option Z) : M ApiKey :=
  exec command (DbApiKeyCreate owner hash) in
  fun w =>
    let row := mkApiKey ("key_" +:+ pretty (List.length (apiKeys w))) owner name hash
                        (clock w) None expires in
    (Ok row, set_apiKeys (apiKeys w ++ [row]) w).

Definition owner_of (w : World) (k : ApiKey) : option User := user_by_id w (userId k).

Definition owner_active (w : World) (k : ApiKey) : bool :=
  match owner_of w k with
  | Some u => isActive u
  | None => false
  end.

(** [prisma.apiKey.findFirst({ where: { keyHash, user: { isActive: true } },
    include: { user } })]: the first row with the hash whose owner is active,
    joined with its owner. *)
Definition findFirst_active (w : World) (hash : string) : option ApiKeyWithUser :=
  match List.find (fun k => String.eqb (keyHash k) hash && owner_active w k) (apiKeys w) with
  | Some k => match owner_of w k with
              | Some u => Some (mkApiKeyWithUser k u)
              | None => None
              end
  | None => None
  end.

Definition db_apiKey_findFirst (hash : string) : M (option ApiKeyWithUser) :=
  exec command (DbApiKeyFindFirst hash) in
  fun w => (Ok (findFirst_active w hash), w).

Definition touch (now : Z) (k : ApiKey) : ApiKey :=
  mkApiKey (key_id k) (userId k) (key_name k) (keyHash k) (key_createdAt k) (Some now)
           (expiresAt k).

(** [prisma.apiKey.update({ where: { id }, data: { lastUsedAt } })] fails when
    no row has the identifier. *)
Definition db_apiKey_update (id : string) (now : Z) : M unit :=
  exec command (DbApiKeyUpdate id) in
  fun w =>
    if existsb (fun k => String.eqb (key_id k) id) (apiKeys w) then
      (Ok tt, set_apiKeys (map (fun k => if String.eqb (key_id k) id then touch now k else k)
                               (apiKeys w)) w)
    else (Throw "Record to update not found", w).

(** ** ApiKeyService *)

(** [/^([a-z]{1,12}_)?[0-9a-f]{128}$/] *)
Definition API_KEY_REGEX : regex :=
  Cat (Opt (Cat (Rep 1 12 (Class [("a", "z")%char])) (Lit "_")))
      (Rep 128 128 (Class [("0", "9")%char; ("a", "f")%char])).

(** [toLowerCase] on the code units below 128. Whatever the lower case of
    another code unit below 256 is, it is not in [[a-z]] and the replacement
    that follows removes it. *)
Definition toLowerCase_char (c : ascii) : ascii :=
  if in_range "A" "Z" c then ascii_of_N (Z.to_N (code c + 32)) else c.

Fixpoint before_at (l : list ascii) : list ascii :=
  match l with
  | [] => []
  | c :: rest => if Ascii.eqb c "@" then [] else c :: before_at rest
  end.

(** [email.split('@')[0].toLowerCase().replace(/[^a-z]/g, '').substring(0, 12)] *)
Definition extractUsername (email : string) : string :=
  let username := map toLowerCase_char (before_at (chars email)) in
  let cleanUsername := take 12 (List.filter is_lower_alpha username) in
  str cleanUsername.

Definition generateApiKey (username : string) : M string :=
  await bytes <- randomBytes 64 in
  let tokenBody := toHex bytes in
  if (0 <? Z.of_nat (String.length username)) then ret (username +:+ "_" +:+ tokenBody)
  else ret tokenBody.

Definition hashApiKey (apiKey : string) : string := sha256_hex apiKey.

Definition validateApiKeyFormat (apiKey : string) : bool := regex_test API_KEY_REGEX apiKey.

Definition list_eqb (a b : list Z) : bool := bool_decide (a = b).

(** [timingSafeEqual] refuses buffers of different lengths. *)
Definition constantTimeCompare (a b : string) : M bool :=
  if negb (Nat.eqb (String.length a) (String.length b)) then ret false
  else
    let bufferA := fromHex a in
    let bufferB := fromHex b in
    if Nat.eqb (List.length bufferA) (List.length bufferB) then ret (list_eqb bufferA bufferB)
    else throw "Input buffers must have the same byte length".

Definition createApiKey (userId : string) (name : option string) (expiresAt : option Z)
  : M (ApiKey * string) :=
  try_catch
    (await user <- db_user_findUnique userId in
     match user with
     | None => throw "User not found"
     | Some user =>
         if negb (isActive user) then throw "User account is disabled"
         else
           let username := extractUsername (email user) in
           await plaintext <- generateApiKey username in
           let keyHash := hashApiKey plaintext in
           await apiKey <- db_apiKey_create userId name keyHash expiresAt in
           ret (apiKey, plaintext)
     end)
    (fun error => throw error).

Definition is_expired (now : Z) (k : ApiKey) : bool :=
  match expiresAt k with
  | Some e => e <=? now
  | None => false
  end.

Definition validateApiKey (apiKey : string) : M (option ApiKeyWithUser) :=
  try_catch
    (if negb (validateApiKeyFormat apiKey) then ret None
     else
       let keyHash_ := hashApiKey apiKey in
       await apiKeyRecord <- db_apiKey_findFirst keyHash_ in
       match apiKeyRecord with
       | None => ret None
       | Some record =>
           await now <- now_ms in
           if is_expired now (key record) then ret None
           else
             await same <- constantTimeCompare keyHash_ (keyHash (key record)) in
             if negb same then ret None
             else ret (Some record)
       end)
    (fun _ => ret None).

Definition updateLastUsed (apiKeyId : string) : M unit :=
  try_catch
    (await now <- now_ms in db_apiKey_update apiKeyId now)
    (fun _ => ret tt).

(** ** Role authorizer ([rbac.ts]) *)

Definition ROLE_HIERARCHY (r : UserRole) : list UserRole :=
  match r with
  | ADMIN => [ADMIN; USER; GUEST]
  | USER => [USER; GUEST]
  | GUEST => [GUEST]
  end.

(** [xs.includes(r)] *)
Definition includes (xs : list UserRole) (r : UserRole) : bool := bool_decide (r ∈ xs).

Definition hasRolePermission (userRoles : list UserRole) (requiredRole : UserRole)
    (hierarchical : bool) : bool :=
  if negb hierarchical then includes userRoles requiredRole
  else existsb (fun userRole => includes (ROLE_HIERARCHY userRole) requiredRole) userRoles.

(** The test [hasRequiredRole] of the middleware built by [requireRoles] *)
Definition hasRequiredRole (allowedRoles : list UserRole) (hierarchical : bool)
    (userRoles : list UserRole) : bool :=
  existsb (fun requiredRole =>
             if hierarchical then
               existsb (fun userRole => includes (ROLE_HIERARCHY userRole) requiredRole) userRoles
             else includes userRoles requiredRole)
          allowedRoles.

(** ** Unified authenticator ([auth.ts]) *)

Record Request := mkRequest {
  authorization : option string;       (* req.headers.authorization *)
  cookies : gmap string string         (* req.cookies *)
}.

Inductive ErrorCode :=
| AUTHENTICATION_REQUIRED
| INVALID_TOKEN
| USER_INACTIVE
| INSUFFICIENT_PERMISSIONS
| INTERNAL_ERROR.

(** What the middleware attached to the request *)
Record Attached := mkAttached {
  req_user : option User;
  req_session : option SessionPayload;
  req_sessionToken : option string;
  req_apiKey : option ApiKeyWithUser
}.

(** A middleware either calls [next()] or sends an error response, possibly
    after clearing the session cookie. *)
Inductive Outcome :=
| Next (attached : Attached)
| Respond (errorCode : ErrorCode) (clearCookie : bool).

(** A value used as a condition: [undefined] and [''] are false. *)
Definition truthy (v : option string) : option string :=
  match v with
  | Some s => if (0 <? Z.of_nat (String.length s)) then Some s else None
  | None => None
  end.

Definition bearer (req : Request) : option string :=
  match truthy (authorization req) with
  | Some authHeader =>
      if startsWith "Bearer " authHeader then Some (substring_from 7 authHeader) else None
  | None => None
  end.

Section Middleware.

Variable config : Config.

Definition requireAuth (req : Request) : M Outcome :=
  try_catch
    (match bearer req with
     | Some apiKey =>
         await apiKeyRecord <- validateApiKey apiKey in
         match apiKeyRecord with
         | Some record =>
             exec try_catch (updateLastUsed (key_id (key record))) (fun _ => ret tt) in
             ret (Next (mkAttached (Some (user record)) None None (Some record)))
         | None => ret (Respond INVALID_TOKEN false)
         end
     | None =>
         match truthy (cookies req !! SESSION_COOKIE_NAME config) with
         | None => ret (Respond AUTHENTICATION_REQUIRED false)
         | Some sessionToken =>
             await session <- getSession config sessionToken in
             match session with
             | None => ret (Respond INVALID_TOKEN true)
             | Some session =>
                 await user <- db_user_findUnique (uid session) in
                 match user with
                 | None =>
                     exec deleteSession sessionToken in
                     ret (Respond AUTHENTICATION_REQUIRED false)
                 | Some user =>
                     if negb (isActive user) then ret (Respond USER_INACTIVE false)
                     else ret (Next (mkAttached (Some user) (Some session)
                                                (Some sessionToken) None))
                 end
             end
         end
     end)
    (fun _ => ret (Respond INTERNAL_ERROR false)).

(** [requireRoles(allowedRoles, { hierarchical })]: [requireAuth], then the
    role test on the attached user. *)
Definition requireRoles (allowedRoles : list UserRole) (hierarchical : bool)
    (req : Request) : M Outcome :=
  await authenticated <- requireAuth req in
  match authenticated with
  | Respond code cleared => ret (Respond code cleared)
  | Next attached =>
      match req_user attached with
      | None => ret (Respond INTERNAL_ERROR false)
      | Some user =>
          if hasRequiredRole allowedRoles hierarchical (user_roles user)
          then ret (Next attached)
          else ret (Respond INSUFFICIENT_PERMISSIONS false)
      end
  end.

End Middleware.

(** ** Auxiliary notions for the statements *)

Definition is_redis (e : IO) : bool :=
  match e with
  | DbUserFindUnique _ | DbApiKeyCreate _ _ | DbApiKeyFindFirst _ | DbApiKeyUpdate _ => false
  | _ => true
  end.

(** The store can be reached for every coming command. *)
Definition healthy (w : World) : Prop := faults w = [].

(** The answer of [validateApiKey] in closed form. *)
Definition validation (w : World) (apiKey : string) : option ApiKeyWithUser :=
  if validateApiKeyFormat apiKey && negb (hd false (faults w)) then
    match findFirst_active w (hashApiKey apiKey) with
    | Some record => if is_expired (clock w) (key record) then None else Some record
    | None => None
    end
  else None.

(** The session record that Redis holds for a token, if any. *)
Definition stored (w : World) (tokenId : string) : option SessionPayload :=
  match redis_lookup (sessKey tokenId) w with
  | Some e => match rval e with
              | RString p => Some p
              | RSet _ => None
              end
  | None => None
  end.

(** The members of the session index of a user, as [SMEMBERS] sees them. *)
Definition indexed (w : World) (userId : string) : gset string :=
  match redis_lookup (userSessionsKey userId) w with
  | Some e => match rval e with
              | RSet s => s
              | RString _ => ∅
              end
  | None => ∅
  end.

(** A method [m] started where [P] holds ends with a result and a world
    related by [Q]. *)
Definition spec {A} (P : World -> Prop) (m : M A) (Q : Res A -> World -> Prop) : Prop :=
  forall w, P w -> Q (fst (m w)) (snd (m w)).

(** The shape of the session records the service writes. *)
Definition good_payload (config : Config) (p : SessionPayload) : Prop :=
  exp p = lastUsedAt p + SESSION_TTL_SECONDS config /\ createdAt p <= lastUsedAt p.

Definition good_entry (config : Config) (k : string) (e : rentry) : Prop :=
  match rval e with
  | RString p => (exists tokenId, k = sessKey tokenId) /\ good_payload config p
  | RSet _ => exists userId, k = userSessionsKey userId
  end.

Definition good_write (config : Config) (e : IO) : Prop :=
  match e with
  | RedisSetEx k ttl p => ttl = SESSION_TTL_SECONDS config /\ good_payload config p
  | _ => True
  end.

Definition store_ok (config : Config) (w : World) : Prop :=
  map_Forall (good_entry config) (redis w) /\ Forall (good_write config) (iolog w).

(** The calls that reach the core, and what the environment does between
    them: time passes, the stores fail or recover, users are managed. *)
Inductive Call :=
| CallCreateSession (userId : string) (roles : list UserRole) (metadata : option Fingerprint)
| CallGetSession (tokenId : string)
| CallDeleteSession (tokenId : string)
| CallDeleteAllUserSessions (userId : string)
| CallListUserSessions (userId : string)
| CallCreateApiKey (userId : string) (name : option string) (expiresAt : option Z)
| CallValidateApiKey (apiKey : string)
| CallUpdateLastUsed (apiKeyId : string)
| CallRequireAuth (req : Request)
| ClockIs (ms : Z)
| FaultsAre (fs : list bool)
| UsersAre (us : list User).

Definition perform (config : Config) (c : Call) (w : World) : World :=
  match c with
  | CallCreateSession userId roles metadata => snd (createSession config userId roles metadata w)
  | CallGetSession tokenId => snd (getSession config tokenId w)
  | CallDeleteSession tokenId => snd (deleteSession tokenId w)
  | CallDeleteAllUserSessions userId => snd (deleteAllUserSessions userId w)
  | CallListUserSessions userId => snd (listUserSessions userId w)
  | CallCreateApiKey userId name expiresAt => snd (createApiKey userId name expiresAt w)
  | CallValidateApiKey apiKey => snd (validateApiKey apiKey w)
  | CallUpdateLastUsed apiKeyId => snd (updateLastUsed apiKeyId w)
  | CallRequireAuth req => snd (requireAuth config req w)
  | ClockIs ms => set_clock ms w
  | FaultsAre fs => set_faults fs w
  | UsersAre us => set_users us w
  end.

(** Before the first call Redis is empty and nothing was sent. *)
Definition initial (w : World) : Prop := redis w = ∅ /\ iolog w = [].

Inductive reachable (config : Config) : World -> Prop :=
| reach_initial w : initial w -> reachable config w
| reach_call w c : reachable config w -> reachable config (perform config c w).


(** [m] keeps the store invariant; [keeps_with] also says [R] of its result. *)
Definition keeps_with {A} (config : Config) (m : M A) (R : Res A -> Prop) : Prop :=
  spec (store_ok config) m (fun r w => store_ok config w /\ R r).

Definition keeps {A} (config : Config) (m : M A) : Prop :=
  keeps_with config m (fun _ => True).

(** A small world for examples: one active user, empty stores, the random
    source delivering 0, 1, 2, ... *)
Definition demo_user : User := mkUser "u1" "ci@example.com" None [USER] true.

Definition demo_world : World :=
  mkWorld 1000000 ∅ [demo_user] [] (fun n => Z.of_nat n) 0 [] [].

(** The token [createSession] draws first in [demo_world] *)
Definition demo_token : string :=
  "000102030405060708090a0b0c0d0e0f101112131415161718191a1b1c1d1e1f".

(** The key [createApiKey] issues first in [demo_world], and the world with
    that key stored *)
Definition demo_key : string :=
  "ci_000102030405060708090a0b0c0d0e0f101112131415161718191a1b1c1d1e1f"
  +:+ "202122232425262728292a2b2c2d2e2f303132333435363738393a3b3c3d3e3f".

(** Its SHA-256, and the row [createApiKey] stores, joined with its owner *)
Definition demo_hash : string :=
  "096d8a81252e8d2e84e25a87cfb46ce3ee29a9725736e9c2c8303908cb379b92".

Definition demo_record : ApiKeyWithUser :=
  mkApiKeyWithUser (mkApiKey "key_0" "u1" (Some "ci") demo_hash 1000000 None None) demo_user.

Definition demo_keyed : World :=
  perform default_config (CallCreateApiKey "u1" (Some "ci") None) demo_world.

(** [demo_world] after [createSession] for the user *)
Definition demo_created : World :=
  perform default_config (CallCreateSession "u1" [USER] None) demo_world.




Definition zeros (n : nat) : string := str (repeat "0"%char n).





(** ** The session-only authenticator and the exact role check ([auth.ts]) *)

Section SessionMiddleware.

Variable config : Config.

(** [requireSession] reads the cookie only. *)
Definition requireSession (req : Request) : M Outcome :=
  try_catch
    (match truthy (cookies req !! SESSION_COOKIE_NAME config) with
     | None => ret (Respond AUTHENTICATION_REQUIRED false)
     | Some sessionToken =>
         await session <- getSession config sessionToken in
         match session with
         | None => ret (Respond INVALID_TOKEN true)
         | Some session =>
             await user <- db_user_findUnique (uid session) in
             match user with
             | None =>
                 exec deleteSession sessionToken in
                 ret (Respond AUTHENTICATION_REQUIRED false)
             | Some user =>
                 if negb (isActive user) then ret (Respond USER_INACTIVE false)
                 else ret (Next (mkAttached (Some user) (Some session)
                                            (Some sessionToken) None))
             end
         end
     end)
    (fun _ => ret (Respond INTERNAL_ERROR false)).

(** [requireAdmin], [requireUser], [requireGuest] of [rbac.ts]: the options
    are left out, so the check is hierarchical. *)
Definition requireAdmin : Request -> M Outcome := requireRoles config [ADMIN] true.
Definition requireUser : Request -> M Outcome := requireRoles config [USER; ADMIN] true.
Definition requireGuest : Request -> M Outcome := requireRoles config [GUEST; USER; ADMIN] true.

End SessionMiddleware.

(** The middleware built by [requireRole(allowedRoles)]; it runs on what an
    authenticator attached before. *)
Definition requireRole (allowedRoles : list UserRole) (attached : Attached) : Outcome :=
  match req_user attached with
  | None => Respond INTERNAL_ERROR false
  | Some user =>
      if existsb (fun role => includes allowedRoles role) (user_roles user)
      then Next attached
      else Respond INSUFFICIENT_PERMISSIONS false
  end.

(** [effectiveRoles.add(r)] on a [Set], whose elements stay in the order of
    their first insertion *)
Definition set_add (effectiveRoles : list UserRole) (r : UserRole) : list UserRole :=
  if includes effectiveRoles r then effectiveRoles else effectiveRoles ++ [r].

Definition getEffectivePermissions (userRoles : list UserRole) (hierarchical : bool)
  : list UserRole :=
  if negb hierarchical then userRoles
  else fold_left (fun effectiveRoles role => fold_left set_add (ROLE_HIERARCHY role) effectiveRoles)
                 userRoles [].

(** ** ApiKeyService: listing, deleting, cleaning up

    The queries of this part are not among the logged commands; like every
    command they succeed or fail as the head of [faults] says. *)

Definition query : M unit :=
  fun w => if hd false (faults w)
           then (Throw "store unavailable", set_faults (tail (faults w)) w)
           else (Ok tt, set_faults (tail (faults w)) w).

(** [orderBy: { createdAt: 'desc' }]: [a] may stay before [b] when it is at
    least as new. *)
Definition newer (a b : ApiKey) : Prop := key_createdAt b <= key_createdAt a.

#[export] Instance newer_dec : RelDecision newer.
Proof. intros a b. unfold newer. apply _. Defined.

(** [prisma.apiKey.findMany({ where: { userId }, orderBy: { createdAt: 'desc' } })];
    the store is free in the order of rows created at the same instant, the
    model keeps them in table order. *)
Definition db_apiKey_findMany (owner : string) : M (list ApiKey) :=
  exec query in
  fun w => (Ok (merge_sort newer (List.filter (fun k => String.eqb (userId k) owner) (apiKeys w))),
            w).

(** [prisma.apiKey.deleteMany({ where })] answers the number of rows it
    removed. *)
Definition db_apiKey_deleteMany (where_ : ApiKey -> bool) : M Z :=
  exec query in
  fun w => (Ok (Z.of_nat (List.length (List.filter where_ (apiKeys w)))),
            set_apiKeys (List.filter (fun k => negb (where_ k)) (apiKeys w)) w).

(** [ApiKeyMetadata] *)
Record ApiKeyMetadata := mkApiKeyMetadata {
  meta_id : string;
  meta_name : option string;
  meta_createdAt : Z;
  meta_lastUsedAt : option Z;
  meta_expiresAt : option Z;
  keyFingerprint : string
}.

Definition metadata_of_key (k : ApiKey) : ApiKeyMetadata :=
  mkApiKeyMetadata (key_id k) (key_name k) (key_createdAt k) (key_lastUsedAt k) (expiresAt k)
                   (slice_last 6 (keyHash k)).

Definition listUserApiKeys (owner : string) : M (list ApiKeyMetadata) :=
  try_catch
    (await apiKeys <- db_apiKey_findMany owner in
     ret (map metadata_of_key apiKeys))
    (fun _ => throw "Failed to list API keys").

Definition deleteApiKey (apiKeyId owner : string) : M unit :=
  try_catch
    (await count <- db_apiKey_deleteMany
                      (fun k => String.eqb (key_id k) apiKeyId && String.eqb (userId k) owner) in
     if count =? 0 then throw "API key not found or access denied" else ret tt)
    (fun error => throw error).

Definition deleteAllUserApiKeys (owner : string) : M Z :=
  try_catch
    (db_apiKey_deleteMany (fun k => String.eqb (userId k) owner))
    (fun _ => throw "Failed to delete API keys").

Definition cleanupExpiredApiKeys : M Z :=
  try_catch
    (await now <- now_ms in db_apiKey_deleteMany (is_expired now))
    (fun _ => ret 0).

(** ** Request handlers of the session and the API key routes *)

(** [s.includes(needle)] *)
Fixpoint str_includes (needle s : string) : bool :=
  String.prefix needle s ||
  match s with
  | EmptyString => false
  | String _ rest => str_includes needle rest
  end.

Module Handlers.

Inductive ErrorCode :=
| INTERNAL_ERROR
| CANNOT_DELETE_CURRENT_SESSION
| SESSION_NOT_FOUND
| DELETE_SESSION_FAILED
| LOGOUT_FAILED
| LOGOUT_ALL_FAILED
| INVALID_EMAIL_FORMAT
| ACCOUNT_DISABLED
| API_KEY_NOT_FOUND.

(** What a handler sends: a JSON body with its status, possibly after
    clearing the session cookie, or an error response. *)
Inductive Reply (A : Type) :=
| Json (status : Z) (body : A) (clearCookie : bool)
| Error (errorCode : ErrorCode).
Arguments Json {A} status body clearCookie.
Arguments Error {A} errorCode.

(** The body of [createApiKeyHandler] *)
Record CreatedApiKey := mkCreatedApiKey {
  created_id : string;
  created_name : option string;
  created_plaintext : string;
  created_createdAt : Z;
  created_expiresAt : option Z;
  created_keyFingerprint : string
}.

(** [modules/auth/handlers/logout.ts] *)
Definition logoutHandler (attached : Attached) : M (Reply unit) :=
  try_catch
    (match truthy (req_sessionToken attached), req_user attached with
     | Some sessionToken, Some user =>
         exec deleteSession sessionToken in
         ret (Json 200 tt true)
     | _, _ => ret (Error INTERNAL_ERROR)
     end)
    (fun _ => ret (Error LOGOUT_FAILED)).

(** [logoutAllHandler]: the body is [sessionsDeleted]. *)
Definition logoutAllHandler (attached : Attached) : M (Reply Z) :=
  try_catch
    (match req_user attached with
     | None => ret (Error INTERNAL_ERROR)
     | Some user =>
         await currentSessions <- listUserSessions (user_id user) in
         let sessionCount := Z.of_nat (List.length currentSessions) in
         exec deleteAllUserSessions (user_id user) in
         ret (Json 200 sessionCount true)
     end)
    (fun _ => ret (Error LOGOUT_ALL_FAILED)).


(** [createApiKeyHandler], for the attached user [req.user!] and the body
    [{ name, expiresAt }] *)
Definition createApiKeyHandler (user : User) (name : option string) (expires : option Z)
  : M (Reply CreatedApiKey) :=
  try_catch
    (await created <- createApiKey (user_id user) name expires in
     let '(apiKey, plaintext) := created in
     ret (Json 201 (mkCreatedApiKey (key_id apiKey) (key_name apiKey) plaintext
                                    (key_createdAt apiKey) (expiresAt apiKey)
                                    (slice_last 6 (keyHash apiKey))) false))
    (fun message =>
       if str_includes "Username" message || str_includes "email" message
       then ret (Error INVALID_EMAIL_FORMAT)
       else if str_includes "disabled" message then ret (Error ACCOUNT_DISABLED)
       else ret (Error INTERNAL_ERROR)).

(** [deleteApiKeyHandler]: the body is [deletedId]. *)
Definition deleteApiKeyHandler (user : User) (apiKeyId : string) : M (Reply string) :=
  try_catch
    (exec deleteApiKey apiKeyId (user_id user) in
     ret (Json 200 apiKeyId false))
    (fun message =>
       if str_includes "not found" message then ret (Error API_KEY_NOT_FOUND)
       else ret (Error INTERNAL_ERROR)).

(** [listApiKeysHandler]: the body is [{ apiKeys, total }]. *)
Definition listApiKeysHandler (user : User) : M (Reply (list ApiKeyMetadata * Z)) :=
  try_catch
    (await apiKeys <- listUserApiKeys (user_id user) in
     ret (Json 200 (apiKeys, Z.of_nat (List.length apiKeys)) false))
    (fun _ => ret (Error INTERNAL_ERROR)).

End Handlers.

(** ** JavaScript numbers and strings, as far as [CloudflareIpService] uses them

    A number is [NaN] or an integer that a double holds exactly. The bit
    operators work on 32 bits: [<<] takes its count modulo 32 and answers a
    signed integer, [>>> 0] answers the unsigned one. *)

Inductive number := NaN | Int (z : Z).

Definition ToUint32 (x : number) : Z :=
  match x with
  | NaN => 0
  | Int z => z mod 2 ^ 32
  end.

Definition ToInt32 (x : number) : Z :=
  let u := ToUint32 x in if u <? 2 ^ 31 then u else u - 2 ^ 32.

(** [x << count] *)
Definition shl (x count : number) : number :=
  Int (ToInt32 (Int (ToInt32 x * 2 ^ (ToUint32 count mod 32)))).

(** [x >>> 0] *)
Definition ushr0 (x : number) : number := Int (ToUint32 x).

(** [x & y] *)
Definition band (x y : number) : number := Int (Z.land (ToInt32 x) (ToInt32 y)).

(** [x + y] and [x - y], for integers small enough for the result to be exact *)
Definition add (x y : number) : number :=
  match x, y with
  | Int a, Int b => Int (a + b)
  | _, _ => NaN
  end.

Definition sub (x y : number) : number :=
  match x, y with
  | Int a, Int b => Int (a - b)
  | _, _ => NaN
  end.

(** [x === y]: [NaN] differs from every number, itself included. *)
Definition strict_eq (x y : number) : bool :=
  match x, y with
  | Int a, Int b => a =? b
  | _, _ => false
  end.

Fixpoint take_while {A} (p : A -> bool) (l : list A) : list A :=
  match l with
  | [] => []
  | x :: rest => if p x then x :: take_while p rest else []
  end.

Fixpoint drop_while {A} (p : A -> bool) (l : list A) : list A :=
  match l with
  | [] => []
  | x :: rest => if p x then drop_while p rest else l
  end.

Definition is_digit (c : ascii) : bool := in_range "0" "9" c.

(** The white space [parseInt] skips, among the code units below 256 *)
Definition is_whitespace (c : ascii) : bool :=
  (code c =? 9) || (code c =? 10) || (code c =? 11) || (code c =? 12) || (code c =? 13)
  || (code c =? 32) || (code c =? 160).

(** The value of a sequence of decimal digits *)
Definition decimal (digits : list ascii) : Z :=
  fold_left (fun acc c => 10 * acc + (code c - 48)) digits 0.

(** [parseInt(s, 10)]: white space, a sign, then the longest run of digits;
    [NaN] without a digit. The engine rounds an integer of more than 15
    digits to a double, in a way the language leaves open beyond 20 digits:
    there the model gives no answer. *)
Definition parseInt10 (s : string) : option number :=
  let trimmed := drop_while is_whitespace (chars s) in
  let signed := match trimmed with
                | c :: rest => if Ascii.eqb c "-" then (-1, rest)
                               else if Ascii.eqb c "+" then (1, rest)
                               else (1, trimmed)
                | [] => (1, trimmed)
                end in
  let digits := take_while is_digit (snd signed) in
  match digits with
  | [] => Some NaN
  | _ => if (List.length digits <=? 15)%nat then Some (Int (fst signed * decimal digits))
         else None
  end.

(** [parseInt(c, 16)] for a string of one character *)
Definition parseInt16_char (c : ascii) : number :=
  match hex_val c with
  | Some v => Int v
  | None => NaN
  end.

(** [s.split(sep)] for a separator that is not empty: [current] holds the
    characters of the piece being read, newest first, and [skip] the
    characters of a separator still to pass. *)
Fixpoint split_go (sep : string) (current : list ascii) (skip : nat) (s : string)
  : list string :=
  match s with
  | EmptyString => [str (rev current)]
  | String c rest =>
      match skip with
      | S n => split_go sep current n rest
      | O => if String.prefix sep s
             then str (rev current) :: split_go sep [] (String.length sep - 1) rest
             else split_go sep (c :: current) 0 rest
      end
  end.

Definition split (sep s : string) : list string := split_go sep [] 0 s.

(** [parts.join(sep)] *)
Definition join (sep : string) (parts : list string) : string := String.concat sep parts.

(** [part.padStart(4, '0')] *)
Definition padStart4 (part : string) : string :=
  str (repeat "0"%char (4 - String.length part) ++ chars part).

(** ** CloudflareIpService: is an address in the ranges of the proxy? *)

Record CloudflareIpRanges := mkRanges {
  ipv4 : list string;
  ipv6 : list string;
  lastUpdated : Z
}.

Definition getFallbackIpRanges (now : Z) : CloudflareIpRanges :=
  mkRanges ["173.245.48.0/20"; "103.21.244.0/22"; "103.22.200.0/22"; "103.31.4.0/22";
            "141.101.64.0/18"; "108.162.192.0/18"; "190.93.240.0/20"; "188.114.96.0/20";
            "197.234.240.0/22"; "198.41.128.0/17"; "162.158.0.0/15"; "104.16.0.0/13";
            "104.24.0.0/14"; "172.64.0.0/13"; "131.0.72.0/22"]
           ["2400:cb00::/32"; "2606:4700::/32"; "2803:f800::/32"; "2405:b500::/32";
            "2405:8100::/32"; "2a06:98c0::/29"; "2c0f:f248::/32"]
           now.

(** [ip.split('.').reduce((acc, octet) => (acc << 8) + parseInt(octet, 10), 0) >>> 0] *)
Definition ipv4ToNumber (ip : string) : option number :=
  match fold_left (fun acc octet =>
                     match acc, parseInt10 octet with
                     | Some a, Some n => Some (add (shl a (Int 8)) n)
                     | _, _ => None
                     end)
                  (split "." ip) (Some (Int 0)) with
  | Some acc => Some (ushr0 acc)
  | None => None
  end.

Definition ipv4InRange (ip rangeIp : string) (prefix : number) : option bool :=
  match ipv4ToNumber ip, ipv4ToNumber rangeIp with
  | Some ipNum, Some rangeNum =>
      let mask := ushr0 (shl (Int 4294967295) (sub (Int 32) prefix)) in
      Some (strict_eq (band ipNum mask) (band rangeNum mask))
  | _, _ => None
  end.

(** [normalizeIpv6]: [Array(missing)] throws for a negative length. *)
Definition normalizeIpv6 (addr : string) : Res string :=
  if str_includes "::" addr then
    let parts := split "::" addr in
    let left := match truthy (parts !! 0%nat) with
                | Some part => split ":" part
                | None => []
                end in
    let right := match truthy (parts !! 1%nat) with
                 | Some part => split ":" part
                 | None => []
                 end in
    let missing := 8 - Z.of_nat (List.length left) - Z.of_nat (List.length right) in
    if missing <? 0 then Throw "Invalid array length"
    else Ok (join ":" (left ++ repeat "0000" (Z.to_nat missing) ++ right))
  else Ok addr.

(** [hex.substring(0, n)]: [NaN] and negative numbers count as 0. *)
Definition substring_upto (n : number) (hex : string) : string :=
  match n with
  | NaN => ""
  | Int z => substring_to (Z.to_nat z) hex
  end.

(** [hex[n] || '0'] *)
Definition char_or_zero (n : number) (hex : string) : ascii :=
  match n with
  | NaN => "0"%char
  | Int z => if z <? 0 then "0"%char else nth (Z.to_nat z) (chars hex) "0"%char
  end.

Definition ipv6InRange (ip rangeIp : string) (prefix : number) : Res bool :=
  match normalizeIpv6 ip with
  | Throw e => Throw e
  | Ok normalizedIp =>
      match normalizeIpv6 rangeIp with
      | Throw e => Throw e
      | Ok normalizedRange =>
          let ipHex := join "" (map padStart4 (split ":" normalizedIp)) in
          let rangeHex := join "" (map padStart4 (split ":" normalizedRange)) in
          let prefixHexLength := match prefix with
                                 | NaN => NaN
                                 | Int p => Int (p / 4)
                                 end in
          let remainingBits := match prefix with
                               | NaN => NaN
                               | Int p => Int (Z.rem p 4)
                               end in
          if negb (String.eqb (substring_upto prefixHexLength ipHex)
                              (substring_upto prefixHexLength rangeHex))
          then Ok false
          else
            match remainingBits with
            | Int r =>
                if 0 <? r then
                  let ipBits := parseInt16_char (char_or_zero prefixHexLength ipHex) in
                  let rangeBits := parseInt16_char (char_or_zero prefixHexLength rangeHex) in
                  let mask := band (shl (Int 15) (sub (Int 4) remainingBits)) (Int 15) in
                  Ok (strict_eq (band ipBits mask) (band rangeBits mask))
                else Ok true
            | NaN => Ok true
            end
      end
  end.

(** [ipInRange]: what [ipv6InRange] throws is caught and counts as no match. *)
Definition ipInRange (ip cidr : string) : option bool :=
  let parts := split "/" cidr in
  let rangeIp := default "" (parts !! 0%nat) in
  let prefixLength := default "undefined" (parts !! 1%nat) in
  match parseInt10 prefixLength with
  | Some prefix =>
      if str_includes ":" ip then
        Some (match ipv6InRange ip rangeIp prefix with
              | Ok inRange => inRange
              | Throw _ => false
              end)
      else ipv4InRange ip rangeIp prefix
  | None => None
  end.

(** The loop of [isCloudflareIp] *)
Fixpoint in_some_range (ip : string) (ranges : list string) : option bool :=
  match ranges with
  | [] => Some false
  | range :: rest =>
      match ipInRange ip range with
      | Some inRange => if inRange then Some true else in_some_range ip rest
      | None => None
      end
  end.

(** [isCloudflareIp], for the ranges loaded so far ([null] before the first
    fetch ended) *)
Definition isCloudflareIp (ipRanges : option CloudflareIpRanges) (ip : string) : option bool :=
  match ipRanges with
  | None => Some true
  | Some ranges =>
      let isIPv6 := str_includes ":" ip in
      in_some_range ip (if isIPv6 then ipv6 ranges else ipv4 ranges)
  end.

(** ** The proxy middleware ([cloudflare.ts])

    The headers and the address of the connection that [extractCloudflareInfo]
    reads; the trace identifier it also maintains is left out. *)

Record ProxyRequest := mkProxyRequest {
  x_real_ip : option string;           (* req.headers['x-real-ip'] *)
  x_forwarded_for : option string;     (* req.headers['x-forwarded-for'] *)
  req_ip : option string;              (* req.ip *)
  cf_connecting_ip : option string;    (* req.headers['cf-connecting-ip'] *)
  cf_ipcountry : option string         (* req.headers['cf-ipcountry'] *)
}.

Inductive ProxyError := INVALID_PROXY | MISSING_CLOUDFLARE_HEADERS.

(** [next()], with what was stored in [req.realIp] and [req.country], or an
    error response *)
Inductive ProxyOutcome :=
| Pass (realIp country : option string)
| Refuse (errorCode : ProxyError).

(** [a || b || c || 'unknown'] *)
Definition originalIp (req : ProxyRequest) : string :=
  match truthy (x_real_ip req) with
  | Some address => address
  | None =>
      match truthy (x_forwarded_for req) with
      | Some address => address
      | None => default "unknown" (truthy (req_ip req))
      end
  end.

Definition extractCloudflareInfo (BEHIND_CLOUDFLARE : bool)
    (ipRanges : option CloudflareIpRanges) (req : ProxyRequest) : option ProxyOutcome :=
  if negb BEHIND_CLOUDFLARE then Some (Pass None None)
  else
    match isCloudflareIp ipRanges (originalIp req) with
    | Some fromProxy =>
        if negb fromProxy then Some (Refuse INVALID_PROXY)
        else
          match truthy (cf_connecting_ip req) with
          | None => Some (Refuse MISSING_CLOUDFLARE_HEADERS)
          | Some cfConnectingIp => Some (Pass (Some cfConnectingIp) (truthy (cf_ipcountry req)))
          end
    | None => None
    end.

(** ** Auxiliary notions for the further properties *)

(** [m] leaves the clock and the tables alone, and a store that can be
    reached stays so. *)
Definition steady {A} (m : M A) : Prop :=
  forall w, clock (snd (m w)) = clock w /\ users (snd (m w)) = users w /\
            apiKeys (snd (m w)) = apiKeys w /\ (healthy w -> healthy (snd (m w))).

(** [m] changes Redis at most in the keys that satisfy [keys]. *)
Definition touches {A} (keys : string -> Prop) (m : M A) : Prop :=
  forall w k, ~ keys k -> redis (snd (m w)) !! k = redis w !! k.

(** The keys of Redis that concern the session of a token: its record and
    the indexes. *)
Definition session_keys (tokenId : string) (k : string) : Prop :=
  k = sessKey tokenId \/ exists userId, k = userSessionsKey userId.

(** A decimal rendering of a byte: one to fifteen digits (leading zeros
    allowed) with a value below 256. *)
Definition octet (s : string) : bool :=
  (0 <? List.length (chars s))%nat && (List.length (chars s) <=? 15)%nat
  && forallb is_digit (chars s) && (decimal (chars s) <? 256).

Definition dotted (a b c d : string) : string := a +:+ "." +:+ b +:+ "." +:+ c +:+ "." +:+ d.

Definition quad_value (a b c d : string) : Z :=
  decimal (chars a) * 2 ^ 24 + decimal (chars b) * 2 ^ 16 + decimal (chars c) * 2 ^ 8
  + decimal (chars d).

(** [s] is the dotted quad of the 32-bit number [n]. *)
Inductive dotted_quad : string -> Z -> Prop :=
| dotted_quad_intro (a b c d : string) :
    octet a = true -> octet b = true -> octet c = true -> octet d = true ->
    dotted_quad (dotted a b c d) (quad_value a b c d).

(** [s] is the CIDR block of base address [base] and prefix length [prefix],
    between 1 and 32. *)
Inductive cidr4 : string -> Z -> Z -> Prop :=
| cidr4_intro (quad digits : string) (base : Z) :
    dotted_quad quad base ->
    (0 < List.length (chars digits) <= 15)%nat ->
    forallb is_digit (chars digits) = true ->
    1 <= decimal (chars digits) <= 32 ->
    cidr4 (quad +:+ "/" +:+ digits) base (decimal (chars digits)).

(** The 32-bit number [n] lies in one of the blocks of [ranges]. *)
Definition in_a_block (ranges : list string) (n : Z) : Prop :=
  exists range base prefix,
    range ∈ ranges /\ cidr4 range base prefix /\
    n / 2 ^ (32 - prefix) = base / 2 ^ (32 - prefix).

(** The number of low bits a prefix leaves free in [ipv4InRange]: the count
    of the shift that builds the mask. *)
Definition free_bits (prefix : number) : Z := ToUint32 (sub (Int 32) prefix) mod 32.

(** The listing [listUserSessions] builds before it sorts: the indexed
    tokens whose record exists, with the metadata of the record. *)
Definition listed (w : World) (userId : string) : list SessionMetadata :=
  omap (fun tokenId => metadata_of tokenId <$> stored w tokenId) (elements (indexed w userId)).

(** Further example worlds: [demo_created] after a second [createSession],
    with the token it draws; what [requireSession] attaches for the first
    session; requests with the first session in the cookie and with the
    first key as bearer credential. *)
Definition demo_twice : World :=
  perform default_config (CallCreateSession "u1" [USER] None) demo_created.

Definition demo_token_2 : string :=
  "202122232425262728292a2b2c2d2e2f303132333435363738393a3b3c3d3e3f".

Definition demo_session : SessionPayload := mkSession "u1" [USER] 87400 1000 1000 None None None.

Definition demo_attached : Attached :=
  mkAttached (Some demo_user) (Some demo_session) (Some demo_token) None.

Definition demo_cookie_request : Request :=
  mkRequest None {[ "template_session" := demo_token ]}.

Definition demo_bearer_request : Request := mkRequest (Some ("Bearer " +:+ demo_key)) ∅.

(** [demo_world] with two keys of the user: the first expired long ago, the
    second expires later. *)
Definition demo_expiring : World :=
  perform default_config (CallCreateApiKey "u1" None (Some 2000000))
          (perform default_config (CallCreateApiKey "u1" None (Some 500)) demo_world).

(** * Properties *)

Arguments sha256_hex : simpl never.
Arguments regex_test : simpl never.
Arguments merge_sort : simpl never.

(** ** The model on known values *)

Example sha256_abc :
  sha256_hex "abc" = "ba7816bf8f01cfea414140de5dae2223b00361a396177a9cb410ff61f20015ad".
Proof. vm_compute. reflexivity. Qed.

Example sha256_empty :
  sha256_hex "" = "e3b0c44298fc1c149afbf4c8996fb92427ae41e4649b934ca495991b7852b855".
Proof. vm_compute. reflexivity. Qed.

Example sha256_two_blocks :
  sha256_hex "abcdbcdecdefdefgefghfghighijhijkijkljklmklmnlmnomnopnopq"
  = "248d6a61d20638b8e5c026930c3e6039a33ce45964ff2167f6ecedd419db06c1".
Proof. vm_compute. reflexivity. Qed.

Example toHex_bytes : toHex [0; 255; 16] = "00ff10".
Proof. reflexivity. Qed.

Example fromHex_stops : fromHex "0aFfzz12" = [10; 255].
Proof. reflexivity. Qed.

Example extractUsername_strips : extractUsername "Ci.Bot+9@example.com" = "cibot".
Proof. reflexivity. Qed.

Example extractUsername_truncates :
  extractUsername "Bartholomew.Fitzgerald@example.com" = "bartholomewf".
Proof. reflexivity. Qed.

Example format_accepts_bare_body : validateApiKeyFormat (zeros 128) = true.
Proof. vm_compute. reflexivity. Qed.

Example format_rejects_short_body : validateApiKeyFormat ("ci_" +:+ zeros 127) = false.
Proof. vm_compute. reflexivity. Qed.

Example format_rejects_long_prefix :
  validateApiKeyFormat ("abcdefghijklm_" +:+ zeros 128) = false.
Proof. vm_compute. reflexivity. Qed.

Example format_rejects_empty_prefix : validateApiKeyFormat ("_" +:+ zeros 128) = false.
Proof. vm_compute. reflexivity. Qed.

Example format_rejects_upper_case : validateApiKeyFormat (zeros 127 +:+ "A") = false.
Proof. vm_compute. reflexivity. Qed.

Example demo_hash_is_sha256 : hashApiKey demo_key = demo_hash.
Proof. vm_compute. reflexivity. Qed.

Example fingerprint_is_hash_tail : slice_last 6 (hashApiKey demo_key) = "379b92".
Proof. vm_compute. reflexivity. Qed.

(** ** Role authorizer *)

Lemma includes_spec (xs : list UserRole) (r : UserRole) : includes xs r = true <-> r ∈ xs.
Proof. unfold includes. apply bool_decide_eq_true. Qed.

Lemma existsb_elem {A} (f : A -> bool) (l : list A) :
  existsb f l = true <-> exists x, x ∈ l /\ f x = true.
Proof.
  rewrite existsb_exists. split; intros (x & Hx & Hf); exists x; split; try done;
    by apply list_elem_of_In.
Qed.

Lemma admin_includes_all (r : UserRole) : includes (ROLE_HIERARCHY ADMIN) r = true.
Proof. by destruct r. Qed.

Lemma guest_only_reaches_guest (userRoles : list UserRole) (r : UserRole) :
  (forall x, x ∈ userRoles -> x = GUEST) ->
  existsb (fun userRole => includes (ROLE_HIERARCHY userRole) r) userRoles = true ->
  r = GUEST.
Proof.
  intros Hall H. apply existsb_elem in H as (x & Hx & Hinc).
  rewrite (Hall x Hx) in Hinc. by destruct r.
Qed.

(** C6. The hierarchy is ADMIN ⊇ {ADMIN, USER, GUEST}, USER ⊇ {USER, GUEST},
    GUEST ⊇ {GUEST}. With hierarchical checking a principal holding ADMIN
    passes every check that asks for USER or GUEST (through [requireRoles]
    for any set of allowed roles that contains one of them, and through
    [hasRolePermission]), and a principal holding nothing but GUEST fails
    every check whose allowed roles do not include GUEST, a check that asks
    for ADMIN in particular. Without hierarchical checking a check passes
    exactly when a role of the principal is one of the required roles. *)
Theorem role_hierarchy_checks :
  (ROLE_HIERARCHY ADMIN = [ADMIN; USER; GUEST] /\
   ROLE_HIERARCHY USER = [USER; GUEST] /\
   ROLE_HIERARCHY GUEST = [GUEST]) /\
  (forall userRoles allowedRoles,
      ADMIN ∈ userRoles -> USER ∈ allowedRoles \/ GUEST ∈ allowedRoles ->
      hasRequiredRole allowedRoles true userRoles = true) /\
  (forall userRoles requiredRole,
      ADMIN ∈ userRoles -> requiredRole = USER \/ requiredRole = GUEST ->
      hasRolePermission userRoles requiredRole true = true) /\
  (forall userRoles allowedRoles,
      (forall r, r ∈ userRoles -> r = GUEST) ->
      GUEST ∉ allowedRoles ->
      hasRequiredRole allowedRoles true userRoles = false /\
      hasRolePermission userRoles ADMIN true = false) /\
  (forall userRoles allowedRoles,
      hasRequiredRole allowedRoles false userRoles = true <->
      exists r, r ∈ allowedRoles /\ r ∈ userRoles) /\
  (forall userRoles requiredRole,
      hasRolePermission userRoles requiredRole false = true <-> requiredRole ∈ userRoles).
Proof.
  split; [done |]. split; [| split; [| split; [| split]]].
  - intros userRoles allowedRoles Hadmin Hreq. unfold hasRequiredRole.
    apply existsb_elem.
    assert (forall r, existsb (fun userRole => includes (ROLE_HIERARCHY userRole) r) userRoles = true)
      as Hany.
    { intros r. apply existsb_elem. exists ADMIN. split; [done | apply admin_includes_all]. }
    destruct Hreq as [H | H]; [exists USER | exists GUEST]; split; try done; apply Hany.
  - intros userRoles requiredRole Hadmin _. unfold hasRolePermission. simpl.
    apply existsb_elem. exists ADMIN. split; [done | apply admin_includes_all].
  - intros userRoles allowedRoles Hguest Hnot. split.
    + apply not_true_is_false. unfold hasRequiredRole. intros H.
      apply existsb_elem in H as (r & Hr & Hex).
      apply (guest_only_reaches_guest _ _ Hguest) in Hex. by subst r.
    + apply not_true_is_false. unfold hasRolePermission. simpl. intros H.
      by apply (guest_only_reaches_guest _ _ Hguest) in H.
  - intros userRoles allowedRoles. unfold hasRequiredRole. rewrite existsb_elem.
    split; intros (r & Hr & H); exists r; split; try done; by apply includes_spec.
  - intros userRoles requiredRole. unfold hasRolePermission. simpl. apply includes_spec.
Qed.

Lemma role_hierarchy_checks_witness :
  hasRequiredRole [USER] true [ADMIN] = true /\
  hasRolePermission [ADMIN; GUEST] GUEST true = true /\
  (hasRequiredRole [ADMIN] true [GUEST] = false /\ hasRolePermission [GUEST] ADMIN true = false).
Proof.
  destruct role_hierarchy_checks as (_ & Hpass & Hperm & Hfail & _).
  split; [| split].
  - apply (Hpass [ADMIN] [USER]); [constructor | left; constructor].
  - apply (Hperm [ADMIN; GUEST] GUEST); [constructor | right; reflexivity].
  - apply (Hfail [GUEST] [ADMIN]).
    + intros r Hr. apply list_elem_of_singleton in Hr. exact Hr.
    + intros Hin. apply list_elem_of_singleton in Hin. discriminate Hin.
Defined.

(** ** Store commands *)

(** Unfolding of the plumbing of [M] *)
Ltac monad := cbv [bind try_catch ret throw now_ms now_seconds command modify_redis].

Lemma command_healthy (e : IO) (w : World) :
  healthy w -> command e w = (Ok tt, after e w) /\ healthy (after e w).
Proof. unfold healthy, command, after. intros ->. simpl. done. Qed.

Lemma str_chars (s : string) : str (chars s) = s.
Proof. apply string_of_list_ascii_of_string. Qed.

Lemma chars_str (l : list ascii) : chars (str l) = l.
Proof. apply list_ascii_of_string_of_list_ascii. Qed.

Lemma chars_app (a b : string) : chars (a +:+ b) = (chars a ++ chars b)%list.
Proof. induction a as [| c a IH]; simpl; [done | by rewrite <- IH]. Qed.

Lemma length_chars (s : string) : List.length (chars s) = String.length s.
Proof. induction s as [| c s IH]; simpl; [done | by rewrite <- IH]. Qed.

Lemma startsWith_app (p s : string) : startsWith p (p +:+ s) = true.
Proof.
  unfold startsWith. induction p as [| c p IH].
  - change ("" +:+ s) with s. by destruct s.
  - change (String c p +:+ s) with (String c (p +:+ s)). cbn [String.prefix].
    destruct (ascii_dec c c); [exact IH | done].
Qed.

Lemma substring_from_app (p s : string) : substring_from (String.length p) (p +:+ s) = s.
Proof.
  unfold substring_from. rewrite chars_app, <- length_chars, drop_app_length.
  apply str_chars.
Qed.

(** ** API keys: what [validateApiKey] answers *)

Lemma constantTimeCompare_same (a : string) (w : World) :
  constantTimeCompare a a w = (Ok true, w).
Proof.
  unfold constantTimeCompare. rewrite !Nat.eqb_refl. simpl.
  unfold ret, list_eqb. by rewrite bool_decide_eq_true_2.
Qed.

Lemma findFirst_active_sound (w : World) (hash : string) (record : ApiKeyWithUser) :
  findFirst_active w hash = Some record ->
  key record ∈ apiKeys w /\ keyHash (key record) = hash /\
  owner_of w (key record) = Some (user record) /\ isActive (user record) = true.
Proof.
  unfold findFirst_active. destruct (List.find _ _) as [k |] eqn:Hfind; [| done].
  apply find_some in Hfind as [Hin Hp]. apply andb_true_iff in Hp as [Hh Hact].
  apply String.eqb_eq in Hh. unfold owner_active in Hact.
  destruct (owner_of w k) as [u |] eqn:Hu; [| done].
  intros [= <-]. simpl. by rewrite list_elem_of_In.
Qed.

Lemma validateApiKey_result (apiKey : string) (w : World) :
  validateApiKey apiKey w =
  (Ok (validation w apiKey),
   if validateApiKeyFormat apiKey then after (DbApiKeyFindFirst (hashApiKey apiKey)) w else w).
Proof.
  unfold validateApiKey, validation, try_catch.
  destruct (validateApiKeyFormat apiKey); simpl; [| done].
  unfold db_apiKey_findFirst. unfold bind, command.
  destruct (hd false (faults w)); simpl; [done |].
  change (findFirst_active (after _ w)) with (findFirst_active w).
  destruct (findFirst_active w (hashApiKey apiKey)) as [record |] eqn:Hrec; simpl; [| done].
  destruct (is_expired (clock w) (key record)); simpl; [done |].
  apply findFirst_active_sound in Hrec as (_ & <- & _).
  by rewrite constantTimeCompare_same.
Qed.

(** C5. [validateApiKey] never throws and answers none on every failure: a
    malformed key, no stored row with the hash of the key whose owner is
    active (no row at all, or rows of inactive owners only), and a row found
    by its hash that expired at or before now. Every failure is the same
    value for the caller. An answer that is not none is a stored row with the
    hash of the key, not expired, joined with its active owner. *)
Theorem validateApiKey_failures_are_none (apiKey : string) (w : World) :
  (exists answer w', validateApiKey apiKey w = (Ok answer, w')) /\
  (validateApiKeyFormat apiKey = false -> fst (validateApiKey apiKey w) = Ok None) /\
  ((forall k, k ∈ apiKeys w -> keyHash k = hashApiKey apiKey -> owner_active w k = false) ->
   fst (validateApiKey apiKey w) = Ok None) /\
  (forall record e,
      findFirst_active w (hashApiKey apiKey) = Some record ->
      expiresAt (key record) = Some e -> e <= clock w ->
      fst (validateApiKey apiKey w) = Ok None) /\
  (forall record,
      fst (validateApiKey apiKey w) = Ok (Some record) ->
      validateApiKeyFormat apiKey = true /\
      key record ∈ apiKeys w /\ keyHash (key record) = hashApiKey apiKey /\
      owner_of w (key record) = Some (user record) /\
      isActive (user record) = true /\
      is_expired (clock w) (key record) = false).
Proof.
  rewrite validateApiKey_result. simpl. unfold validation.
  split; [eauto |]. split; [| split; [| split]].
  - by intros ->.
  - intros Hnone. destruct (_ && _); [| done].
    destruct (findFirst_active w (hashApiKey apiKey)) as [record |] eqn:Hrec; [| done].
    exfalso. unfold findFirst_active in Hrec.
    destruct (List.find _ _) as [k |] eqn:Hfind; [| done].
    apply find_some in Hfind as [Hin Hp]. apply andb_true_iff in Hp as [Hh Hact].
    apply String.eqb_eq in Hh. apply list_elem_of_In in Hin.
    rewrite (Hnone k Hin Hh) in Hact. done.
  - intros record e Hrec He Hle. rewrite Hrec. destruct (_ && _); [| done].
    unfold is_expired. rewrite He. by rewrite (proj2 (Z.leb_le _ _) Hle).
  - intros record. destruct (validateApiKeyFormat apiKey); simpl; [| done].
    destruct (negb _); [| done].
    destruct (findFirst_active w (hashApiKey apiKey)) as [found |] eqn:Hrec; [| done].
    destruct (is_expired (clock w) (key found)) eqn:Hexp; [done |].
    intros [= <-]. apply findFirst_active_sound in Hrec as (? & ? & ? & ?). done.
Qed.

Lemma validateApiKey_failures_are_none_witness :
  let expiring := perform default_config (CallCreateApiKey "u1" None (Some 999999)) demo_world in
  fst (validateApiKey "not-a-key" demo_world) = Ok None /\
  fst (validateApiKey demo_key demo_world) = Ok None /\
  fst (validateApiKey demo_key expiring) = Ok None /\
  validateApiKeyFormat demo_key = true.
Proof.
  intros expiring.
  destruct (validateApiKey_failures_are_none "not-a-key" demo_world) as (_ & Hfmt & _).
  destruct (validateApiKey_failures_are_none demo_key demo_world) as (_ & _ & Hnone & _).
  destruct (validateApiKey_failures_are_none demo_key expiring) as (_ & _ & _ & Hexp & _).
  destruct (validateApiKey_failures_are_none demo_key demo_keyed) as (_ & _ & _ & _ & Hok).
  split; [| split; [| split]].
  - apply Hfmt. vm_compute. reflexivity.
  - apply Hnone. intros k Hk. vm_compute in Hk. by apply elem_of_nil in Hk.
  - apply (Hexp (mkApiKeyWithUser
                   (mkApiKey "key_0" "u1" None demo_hash 1000000 None (Some 999999))
                   demo_user) 999999).
    + vm_compute. reflexivity.
    + reflexivity.
    + vm_compute. discriminate.
  - apply (Hok demo_record). vm_compute. reflexivity.
Defined.

Lemma updateLastUsed_total (apiKeyId : string) (w : World) :
  exists w', updateLastUsed apiKeyId w = (Ok tt, w') /\
             redis w' = redis w /\
             iolog w' = DbApiKeyUpdate apiKeyId :: iolog w.
Proof.
  unfold updateLastUsed, db_apiKey_update. monad.
  destruct (hd false (faults w)); simpl; [eauto |].
  destruct (existsb _ (apiKeys w)); simpl; eauto.
Qed.

(** ** Unified authenticator *)

Lemma bearer_of_header (req : Request) (token : string) :
  authorization req = Some ("Bearer " +:+ token) -> bearer req = Some token.
Proof.
  unfold bearer. intros ->. simpl truthy. cbv iota.
  rewrite startsWith_app. f_equal. apply (substring_from_app "Bearer ").
Qed.

Lemma requireAuth_bearer (config : Config) (req : Request) (apiKey : string) (w : World) :
  bearer req = Some apiKey ->
  requireAuth config req w =
  match validation w apiKey with
  | Some record =>
      (Ok (Next (mkAttached (Some (user record)) None None (Some record))),
       snd (updateLastUsed (key_id (key record)) (snd (validateApiKey apiKey w))))
  | None => (Ok (Respond INVALID_TOKEN false), snd (validateApiKey apiKey w))
  end.
Proof.
  intros Hb. unfold requireAuth. rewrite Hb. unfold try_catch at 1. unfold bind at 1.
  rewrite validateApiKey_result. simpl.
  destruct (validation w apiKey) as [record |]; [| done].
  unfold bind, try_catch at 1.
  destruct (updateLastUsed_total (key_id (key record))
              (if validateApiKeyFormat apiKey
               then after (DbApiKeyFindFirst (hashApiKey apiKey)) w else w))
    as (w' & -> & _). done.
Qed.

(** C4. A request whose Authorization header is [Bearer <token>] is decided
    by API-key validation alone. When [validateApiKey] accepts the token the
    request proceeds with the owner of the key attached, and the update of
    the last-use date was sent to the store; when it does not, the response
    is InvalidToken. In both cases no session is looked up: no Redis command
    is sent, the session store is left as it was, and the cookies of the
    request have no influence on the outcome. *)
Theorem bearer_is_exclusive
    (config : Config) (req : Request) (token : string) (w : World) :
  authorization req = Some ("Bearer " +:+ token) ->
  exists (sent : list IO) (w' : World),
    requireAuth config req w =
      (match fst (validateApiKey token w) with
       | Ok (Some record) => Ok (Next (mkAttached (Some (user record)) None None (Some record)))
       | _ => Ok (Respond INVALID_TOKEN false)
       end, w') /\
    (forall record, fst (validateApiKey token w) = Ok (Some record) ->
                    DbApiKeyUpdate (key_id (key record)) ∈ sent) /\
    iolog w' = (sent ++ iolog w)%list /\
    (forall e, e ∈ sent -> is_redis e = false) /\
    redis w' = redis w /\
    (forall cookies', requireAuth config (mkRequest (authorization req) cookies') w
                      = requireAuth config req w).
Proof.
  intros Hh. pose proof (bearer_of_header req token Hh) as Hb.
  assert (forall cookies', requireAuth config (mkRequest (authorization req) cookies') w
                           = requireAuth config req w) as Hcookies.
  { intros cookies'. rewrite (requireAuth_bearer config req token w Hb).
    apply requireAuth_bearer. by apply bearer_of_header. }
  enough (exists (sent : list IO) (w' : World),
    requireAuth config req w =
      (match fst (validateApiKey token w) with
       | Ok (Some record) => Ok (Next (mkAttached (Some (user record)) None None (Some record)))
       | _ => Ok (Respond INVALID_TOKEN false)
       end, w') /\
    (forall record, fst (validateApiKey token w) = Ok (Some record) ->
                    DbApiKeyUpdate (key_id (key record)) ∈ sent) /\
    iolog w' = (sent ++ iolog w)%list /\
    (forall e, e ∈ sent -> is_redis e = false) /\
    redis w' = redis w) as (sent & w' & H1 & H2 & H3 & H4 & H5).
  { exists sent, w'. done. }
  rewrite (requireAuth_bearer config req token w Hb).
  rewrite validateApiKey_result. simpl.
  set (w1 := if validateApiKeyFormat token
             then after (DbApiKeyFindFirst (hashApiKey token)) w else w).
  assert (exists pre, iolog w1 = (pre ++ iolog w)%list /\ redis w1 = redis w /\
                      forall e, e ∈ pre -> is_redis e = false) as (pre & Hlog & Hredis & Hpre).
  { subst w1. destruct (validateApiKeyFormat token).
    - exists [DbApiKeyFindFirst (hashApiKey token)]. repeat split.
      intros e He. apply list_elem_of_singleton in He. by subst.
    - exists []. repeat split. intros e He. by apply elem_of_nil in He. }
  destruct (validation w token) as [record |].
  - destruct (updateLastUsed_total (key_id (key record)) w1) as (w' & Hup & Hr & Hl).
    exists (DbApiKeyUpdate (key_id (key record)) :: pre), w'. rewrite Hup. simpl.
    repeat split; try done.
    + intros ? [= <-]. constructor.
    + by rewrite Hl, Hlog.
    + intros e He. apply elem_of_cons in He as [-> | He]; [done | by apply Hpre].
    + by rewrite Hr.
  - exists pre, w1. repeat split; try done.
Qed.

Lemma bearer_is_exclusive_witness :
  exists w',
    requireAuth default_config (mkRequest (Some ("Bearer " +:+ demo_key)) ∅) demo_keyed
    = (Ok (Next (mkAttached (Some demo_user) None None (Some demo_record))), w') /\
    redis w' = redis demo_keyed.
Proof.
  destruct (bearer_is_exclusive default_config
              (mkRequest (Some ("Bearer " +:+ demo_key)) ∅) demo_key demo_keyed eq_refl)
    as (sent & w' & Hrun & _ & _ & _ & Hredis & _).
  assert (fst (validateApiKey demo_key demo_keyed) = Ok (Some demo_record)) as Hval
    by (vm_compute; reflexivity).
  rewrite Hval in Hrun. exists w'. split; [exact Hrun | exact Hredis].
Defined.

Lemma requireAuth_no_bearer (config : Config) (req : Request) (w : World) :
  bearer req = None ->
  requireAuth config req w = requireAuth config (mkRequest None (cookies req)) w.
Proof. intros Hb. unfold requireAuth. rewrite Hb. done. Qed.



(** ** The store invariant *)

Lemma redis_lookup_Some (k : string) (w : World) (e : rentry) :
  redis_lookup k w = Some e -> redis w !! k = Some e /\ live (clock w) e = true.
Proof.
  unfold redis_lookup. destruct (redis w !! k) as [e' |]; [| done].
  destruct (live (clock w) e') eqn:Hl; [| done]. by intros [= <-].
Qed.

Lemma sessKey_not_index (tokenId userId : string) : sessKey tokenId <> userSessionsKey userId.
Proof. unfold sessKey, userSessionsKey. discriminate. Qed.

Section Invariant.

Variable config : Config.
Hypothesis schema : EnvSchema config.

Lemma keeps_ret {A} (a : A) (R : Res A -> Prop) : R (Ok a) -> keeps_with config (ret a) R.
Proof. intros HR w Hw. simpl. done. Qed.

Lemma keeps_throw {A} (msg : string) (R : Res A -> Prop) :
  R (Throw msg) -> keeps_with config (@throw A msg) R.
Proof. intros HR w Hw. simpl. done. Qed.

Lemma keeps_bind {A B} (m : M A) (k : A -> M B) (R1 : Res A -> Prop) (R : Res B -> Prop) :
  keeps_with config m R1 ->
  (forall a, R1 (Ok a) -> keeps_with config (k a) R) ->
  (forall e, R (Throw e)) ->
  keeps_with config (bind m k) R.
Proof.
  intros Hm Hk Hthrow w Hw. specialize (Hm w Hw). unfold bind.
  destruct (m w) as [[a | e] w1]; simpl in *.
  - destruct Hm as [Hw1 HR1]. apply (Hk a HR1 w1 Hw1).
  - destruct Hm as [Hw1 _]. split; [done | apply Hthrow].
Qed.

Lemma keeps_try_catch {A} (m : M A) (h : string -> M A) (R1 R : Res A -> Prop) :
  keeps_with config m R1 ->
  (forall a, R1 (Ok a) -> R (Ok a)) ->
  (forall e, keeps_with config (h e) R) ->
  keeps_with config (try_catch m h) R.
Proof.
  intros Hm Hok Hh w Hw. specialize (Hm w Hw). unfold try_catch.
  destruct (m w) as [[a | e] w1]; simpl in *.
  - destruct Hm as [Hw1 HR1]. split; [done | by apply Hok].
  - destruct Hm as [Hw1 _]. apply (Hh e w1 Hw1).
Qed.

Lemma keeps_weaken {A} (m : M A) (R1 R : Res A -> Prop) :
  keeps_with config m R1 -> (forall r, R1 r -> R r) -> keeps_with config m R.
Proof. intros Hm HR w Hw. destruct (Hm w Hw). split; [done | by apply HR]. Qed.

Lemma keeps_command (e : IO) : good_write config e -> keeps config (command e).
Proof.
  intros He w [Hm Hl]. unfold command.
  destruct (hd false (faults w)); simpl; (split; [split |]); try done;
    by apply Forall_cons.
Qed.

(** A command followed by a change of Redis that keeps the entries good. *)
Lemma keeps_modify {A} (e : IO) (f : World -> Res A * gmap string rentry) :
  good_write config e ->
  (forall w, map_Forall (good_entry config) (redis w) ->
             map_Forall (good_entry config) (snd (f w))) ->
  keeps config (exec command e in modify_redis f).
Proof.
  intros He Hf w [Hm Hl]. monad.
  destruct (hd false (faults w)); simpl.
  - split; [split |]; try done. by apply Forall_cons.
  - specialize (Hf (after e w) Hm). destruct (f (after e w)) as [r m]. simpl in *.
    split; [split |]; try done. by apply Forall_cons.
Qed.

Lemma keeps_setEx (tokenId : string) (p : SessionPayload) :
  good_payload config p ->
  keeps config (redis_setEx (sessKey tokenId) (SESSION_TTL_SECONDS config) p).
Proof.
  intros Hp. apply keeps_modify; [done |]. intros w Hm.
  destruct (_ <=? 0); simpl; [done |].
  apply map_Forall_insert_2; [| done]. split; [by exists tokenId | done].
Qed.

Lemma keeps_get (k : string) :
  keeps_with config (redis_get k)
             (fun r => forall p, r = Ok (Some p) -> good_payload config p).
Proof.
  intros w [Hm Hl]. unfold redis_get. monad.
  destruct (hd false (faults w)); simpl.
  - split; [split |]; try done. by apply Forall_cons.
  - change (redis_lookup k (after (RedisGet k) w)) with (redis_lookup k w).
    destruct (redis_lookup k w) as [e |] eqn:He; simpl.
    + apply redis_lookup_Some in He as [He _].
      pose proof (map_Forall_lookup_1 _ _ _ _ Hm He) as Hgood.
      unfold good_entry in Hgood. destruct (rval e) as [p | s]; simpl.
      * split; [split |]; try done; [by apply Forall_cons |].
        intros p' [= <-]. by destruct Hgood.
      * split; [split |]; try done. by apply Forall_cons.
    + split; [split |]; try done. by apply Forall_cons.
Qed.

Lemma keeps_sAdd (userId m : string) : keeps config (redis_sAdd (userSessionsKey userId) m).
Proof.
  apply keeps_modify; [done |]. intros w Hm.
  destruct (redis_lookup _ w) as [e |]; simpl.
  - destruct (rval e); simpl; [done |].
    apply map_Forall_insert_2; [| done]. by exists userId.
  - apply map_Forall_insert_2; [| done]. by exists userId.
Qed.

Lemma keeps_expire (k : string) (ttl : Z) : keeps config (redis_expire k ttl).
Proof.
  apply keeps_modify; [done |]. intros w Hm.
  destruct (redis_lookup k w) as [e |] eqn:He; simpl; [| done].
  apply redis_lookup_Some in He as [He _].
  destruct (ttl <=? 0); simpl; [by apply map_Forall_delete |].
  apply map_Forall_insert_2; [| done].
  exact (map_Forall_lookup_1 _ _ _ _ Hm He).
Qed.

Lemma keeps_sRem (k m : string) : keeps config (redis_sRem k m).
Proof.
  apply keeps_modify; [done |]. intros w Hm.
  destruct (redis_lookup k w) as [e |] eqn:He; simpl; [| done].
  apply redis_lookup_Some in He as [He _].
  pose proof (map_Forall_lookup_1 _ _ _ _ Hm He) as Hgood. unfold good_entry in Hgood.
  destruct (rval e) as [p | s]; simpl; [done |].
  destruct (decide (s ∖ {[m]} = ∅)); simpl; [by apply map_Forall_delete |].
  by apply map_Forall_insert_2.
Qed.

Lemma keeps_del (ks : list string) : keeps config (redis_del ks).
Proof.
  apply keeps_modify; [done |]. intros w Hm. simpl.
  induction ks as [| k ks IH]; simpl; [done | by apply map_Forall_delete].
Qed.

Lemma keeps_sMembers (k : string) : keeps config (redis_sMembers k).
Proof.
  intros w [Hm Hl]. unfold redis_sMembers. monad.
  destruct (hd false (faults w)); simpl.
  - split; [split |]; try done. by apply Forall_cons.
  - change (redis_lookup k (after (RedisSMembers k) w)) with (redis_lookup k w).
    destruct (redis_lookup k w) as [e |]; simpl; [destruct (rval e) |];
      simpl; (split; [split |]); try done; by apply Forall_cons.
Qed.

(** A method that leaves Redis and the log alone keeps the invariant. *)
Lemma keeps_frame {A} (m : M A) :
  (forall w, redis (snd (m w)) = redis w /\ iolog (snd (m w)) = iolog w) -> keeps config m.
Proof.
  intros Hm w [Hr Hl]. destruct (Hm w) as [Er El].
  split; [split |]; try done; [by rewrite Er | by rewrite El].
Qed.

(** A query of the relational store keeps it too. *)
Lemma keeps_query {A} (e : IO) (g : M A) :
  is_redis e = false ->
  (forall w, redis (snd (g w)) = redis w /\ iolog (snd (g w)) = iolog w) ->
  keeps config (exec command e in g).
Proof.
  intros He Hg. eapply (keeps_bind _ _ (fun _ => True)); [| | done].
  - apply keeps_command. by destruct e.
  - intros _ _. by apply keeps_frame.
Qed.

Ltac keeps_then lem :=
  eapply (keeps_bind _ _ (fun _ => True)); [apply lem | intros ? _ | done].

Lemma keeps_generateSessionToken : keeps config generateSessionToken.
Proof. by apply keeps_frame. Qed.

Lemma keeps_createSession (userId : string) (roles : list UserRole)
    (metadata : option Fingerprint) :
  keeps config (createSession config userId roles metadata).
Proof.
  unfold createSession.
  keeps_then keeps_generateSessionToken. keeps_then (keeps_frame now_seconds); [done |].
  eapply (keeps_try_catch _ _ (fun _ => True)); [| done | intros e; by apply keeps_throw].
  keeps_then keeps_setEx.
  { split; simpl; lia. }
  keeps_then keeps_sAdd. keeps_then keeps_expire. by apply keeps_ret.
Qed.

Lemma keeps_deleteSession (tokenId : string) : keeps config (deleteSession tokenId).
Proof.
  unfold deleteSession.
  eapply (keeps_try_catch _ _ (fun _ => True)); [| done | intros e; by apply keeps_throw].
  eapply (keeps_bind _ _ (fun _ => True)); [apply (keeps_weaken _ _ _ (keeps_get _)); done | | done].
  intros sessionData _.
  eapply (keeps_bind _ _ (fun _ => True)); [| intros ? _; apply keeps_del | done].
  destruct sessionData; [apply keeps_sRem | by apply keeps_ret].
Qed.

Lemma keeps_getSession (tokenId : string) : keeps config (getSession config tokenId).
Proof.
  unfold getSession.
  eapply (keeps_try_catch _ _ (fun _ => True)); [| done | intros e; by apply keeps_ret].
  eapply keeps_bind; [apply keeps_get | | done].
  intros [session |] Hgood; [| by apply keeps_ret].
  specialize (Hgood session eq_refl) as [Hexp Hcreated].
  keeps_then (keeps_frame now_seconds); [done |].
  destruct (exp session <=? _).
  { keeps_then keeps_deleteSession. by apply keeps_ret. }
  destruct (_ <=? _) eqn:Hslide; [| by apply keeps_ret].
  apply Z.leb_le in Hslide. destruct schema as [_ Hpos].
  keeps_then keeps_setEx; [| by apply keeps_ret].
  split; simpl; lia.
Qed.

Lemma keeps_deleteAllUserSessions (userId : string) :
  keeps config (deleteAllUserSessions userId).
Proof.
  unfold deleteAllUserSessions.
  eapply (keeps_try_catch _ _ (fun _ => True)); [| done | intros e; by apply keeps_throw].
  keeps_then keeps_sMembers.
  destruct (0 <? _); [| by apply keeps_ret].
  keeps_then keeps_del. apply keeps_del.
Qed.

Lemma keeps_collect_sessions (sessionTokens : list string) (sessions : list SessionMetadata) :
  keeps config (collect_sessions sessionTokens sessions).
Proof.
  revert sessions. induction sessionTokens as [| tokenId rest IH]; intros sessions; simpl.
  - by apply keeps_ret.
  - eapply (keeps_bind _ _ (fun _ => True));
      [apply (keeps_weaken _ _ _ (keeps_get _)); done | | done].
    intros [session |] _; apply IH.
Qed.

Lemma keeps_listUserSessions (userId : string) : keeps config (listUserSessions userId).
Proof.
  unfold listUserSessions.
  eapply (keeps_try_catch _ _ (fun _ => True)); [| done | intros e; by apply keeps_throw].
  keeps_then keeps_sMembers. keeps_then keeps_collect_sessions. by apply keeps_ret.
Qed.

Lemma keeps_validateApiKey (apiKey : string) : keeps config (validateApiKey apiKey).
Proof.
  intros w [Hm Hl]. rewrite validateApiKey_result. simpl.
  destruct (validateApiKeyFormat apiKey); simpl; (split; [split |]); try done.
  by apply Forall_cons.
Qed.

Lemma keeps_updateLastUsed (apiKeyId : string) : keeps config (updateLastUsed apiKeyId).
Proof.
  intros w [Hm Hl]. destruct (updateLastUsed_total apiKeyId w) as (w' & -> & Hr & Hlog).
  simpl. split; [split |]; try done; [by rewrite Hr | rewrite Hlog; by apply Forall_cons].
Qed.

Lemma keeps_user_findUnique (id : string) : keeps config (db_user_findUnique id).
Proof. by apply keeps_query. Qed.

Lemma keeps_createApiKey (userId : string) (name : option string) (expiresAt : option Z) :
  keeps config (createApiKey userId name expiresAt).
Proof.
  unfold createApiKey.
  eapply (keeps_try_catch _ _ (fun _ => True)); [| done | intros e; by apply keeps_throw].
  keeps_then keeps_user_findUnique.
  destruct a as [user |]; [| by apply keeps_throw].
  destruct (negb (isActive user)); [by apply keeps_throw |].
  eapply (keeps_bind _ _ (fun _ => True)); [| intros plaintext _ | done].
  { unfold generateApiKey. keeps_then (keeps_frame (randomBytes 64)); [done |].
    destruct (0 <? _); by apply keeps_ret. }
  eapply (keeps_bind _ _ (fun _ => True)); [| intros ? _; by apply keeps_ret | done].
  by apply keeps_query.
Qed.

Lemma keeps_requireAuth (req : Request) : keeps config (requireAuth config req).
Proof.
  unfold requireAuth.
  eapply (keeps_try_catch _ _ (fun _ => True)); [| done | intros e; by apply keeps_ret].
  destruct (bearer req) as [apiKey |].
  - keeps_then keeps_validateApiKey. destruct a as [record |]; [| by apply keeps_ret].
    eapply (keeps_bind _ _ (fun _ => True)); [| intros ? _; by apply keeps_ret | done].
    eapply (keeps_try_catch _ _ (fun _ => True));
      [apply keeps_updateLastUsed | done | intros e; by apply keeps_ret].
  - destruct (truthy _) as [sessionToken |]; [| by apply keeps_ret].
    keeps_then keeps_getSession. destruct a as [session |]; [| by apply keeps_ret].
    keeps_then keeps_user_findUnique. destruct a as [user |].
    + destruct (negb (isActive user)); by apply keeps_ret.
    + keeps_then keeps_deleteSession. by apply keeps_ret.
Qed.

Lemma reachable_store_ok (w : World) : reachable config w -> store_ok config w.
Proof.
  induction 1 as [w [Hr Hl] | w c Hreach IH].
  - split; [rewrite Hr; apply map_Forall_empty | rewrite Hl; constructor].
  - destruct c; simpl; try (split; [apply IH | apply IH]).
    + apply (keeps_createSession userId0 roles0 metadata w IH).
    + apply (keeps_getSession tokenId0 w IH).
    + apply (keeps_deleteSession tokenId0 w IH).
    + apply (keeps_deleteAllUserSessions userId0 w IH).
    + apply (keeps_listUserSessions userId0 w IH).
    + apply (keeps_createApiKey userId0 name0 expiresAt0 w IH).
    + apply (keeps_validateApiKey apiKey w IH).
    + apply (keeps_updateLastUsed apiKeyId w IH).
    + apply (keeps_requireAuth req w IH).
Qed.

End Invariant.



(** ** Sessions: reading, renewing, deleting *)

Ltac world_simpl :=
  cbn [clock redis users apiKeys entropy drawn faults iolog after set_clock set_redis
       set_apiKeys set_drawn set_faults set_users log_io hd tail fst snd] in *.

Lemma stored_lookup (w : World) (tokenId : string) (p : SessionPayload) :
  stored w tokenId = Some p ->
  exists e, redis_lookup (sessKey tokenId) w = Some e /\ rval e = RString p.
Proof.
  unfold stored. destruct (redis_lookup _ w) as [e |]; [| done].
  destruct (rval e) eqn:Hv; [| done]. intros [= <-]. eauto.
Qed.

Lemma redis_get_stored (w : World) (tokenId : string) (p : SessionPayload) :
  hd false (faults w) = false ->
  stored w tokenId = Some p ->
  redis_get (sessKey tokenId) w = (Ok (Some p), after (RedisGet (sessKey tokenId)) w).
Proof.
  intros Hf Hs. apply stored_lookup in Hs as (e & He & Hv).
  unfold redis_get. monad. rewrite Hf.
  change (redis_lookup (sessKey tokenId) (after _ w)) with (redis_lookup (sessKey tokenId) w).
  by rewrite He, Hv.
Qed.

Lemma redis_get_absent (w : World) (k : string) :
  redis w !! k = None ->
  fst (redis_get k w) = Ok None \/ exists e, fst (redis_get k w) = Throw e.
Proof.
  intros Hk. unfold redis_get. monad. destruct (hd false (faults w)); simpl; [eauto |].
  left. unfold redis_lookup. world_simpl. by rewrite Hk.
Qed.

Lemma healthy_hd (w : World) : healthy w -> hd false (faults w) = false.
Proof. by intros ->. Qed.



Lemma getSession_renews (config : Config) (w : World) (tokenId : string)
    (session : SessionPayload) :
  EnvSchema config ->
  healthy w ->
  stored w tokenId = Some session ->
  clock w / 1000 < exp session ->
  SESSION_SLIDING_EXTENSION_SECONDS config <= clock w / 1000 - lastUsedAt session ->
  let session' := renew (clock w / 1000) (SESSION_TTL_SECONDS config) session in
  exists w', getSession config tokenId w = (Ok (Some session'), w') /\
             stored w' tokenId = Some session' /\ healthy w' /\ clock w' = clock w.
Proof.
  intros [Httl Hpos] Hh Hs Hlive Hslide session'.
  unfold getSession, try_catch, bind.
  rewrite (redis_get_stored w tokenId session (healthy_hd w Hh) Hs).
  unfold now_seconds. world_simpl.
  rewrite (proj2 (Z.leb_gt _ _)) by lia.
  rewrite (proj2 (Z.leb_le _ _)) by lia.
  unfold redis_setEx. monad. world_simpl. rewrite Hh. world_simpl.
  rewrite (proj2 (Z.leb_gt _ _)) by lia.
  eexists. split; [reflexivity |].
  split; [| split; [unfold healthy in *; world_simpl; by rewrite Hh | done]].
  unfold stored, redis_lookup. world_simpl. rewrite lookup_insert_eq. unfold live. simpl.
  rewrite (proj2 (Z.ltb_lt _ _)) by lia. done.
Qed.

Lemma stored_frame (w w' : World) (tokenId : string) :
  clock w' = clock w -> redis w' !! sessKey tokenId = redis w !! sessKey tokenId ->
  stored w' tokenId = stored w tokenId.
Proof. intros Hc Hr. unfold stored, redis_lookup. by rewrite Hc, Hr. Qed.

Lemma sAdd_healthy (config : Config) (w : World) (userId m : string) :
  store_ok config w -> healthy w ->
  exists w', redis_sAdd (userSessionsKey userId) m w = (Ok tt, w') /\
             healthy w' /\ clock w' = clock w /\ m ∈ indexed w' userId /\
             forall k, k <> userSessionsKey userId -> redis w' !! k = redis w !! k.
Proof.
  intros [Hm _] Hh. unfold redis_sAdd. monad. rewrite (healthy_hd w Hh).
  change (redis_lookup (userSessionsKey userId) (after _ w))
    with (redis_lookup (userSessionsKey userId) w).
  destruct (redis_lookup (userSessionsKey userId) w) as [e |] eqn:He.
  - apply redis_lookup_Some in He as [He Hlive].
    pose proof (map_Forall_lookup_1 _ _ _ _ Hm He) as Hgood. unfold good_entry in Hgood.
    destruct (rval e) as [p | s] eqn:Hv.
    { destruct Hgood as [[t Ht] _]. symmetry in Ht. by apply sessKey_not_index in Ht. }
    eexists. split; [reflexivity |]. unfold healthy in *. world_simpl. rewrite Hh.
    repeat split; try done.
    + unfold indexed, redis_lookup. world_simpl. rewrite lookup_insert_eq.
      change (live (clock w) {| rval := RSet ({[m]} ∪ s); deadline := deadline e |})
        with (live (clock w) e). rewrite Hlive. simpl.
      apply elem_of_union_l. by apply elem_of_singleton.
    + intros k Hk. by rewrite lookup_insert_ne.
  - eexists. split; [reflexivity |]. unfold healthy in *. world_simpl. rewrite Hh.
    repeat split; try done.
    + unfold indexed, redis_lookup. world_simpl. rewrite lookup_insert_eq. simpl.
      by apply elem_of_singleton.
    + intros k Hk. by rewrite lookup_insert_ne.
Qed.

Lemma expire_healthy (w : World) (userId : string) (ttl : Z) :
  healthy w -> 0 < ttl ->
  exists w', redis_expire (userSessionsKey userId) ttl w = (Ok tt, w') /\
             healthy w' /\ clock w' = clock w /\ indexed w' userId = indexed w userId /\
             forall k, k <> userSessionsKey userId -> redis w' !! k = redis w !! k.
Proof.
  intros Hh Httl. unfold redis_expire. monad. rewrite (healthy_hd w Hh).
  change (redis_lookup (userSessionsKey userId) (after _ w))
    with (redis_lookup (userSessionsKey userId) w).
  unfold indexed.
  destruct (redis_lookup (userSessionsKey userId) w) as [e |] eqn:He.
  - rewrite (proj2 (Z.leb_gt _ _)) by lia.
    eexists. split; [reflexivity |]. unfold healthy in *. world_simpl. rewrite Hh.
    repeat split; try done.
    + unfold redis_lookup. world_simpl. rewrite lookup_insert_eq. unfold live. simpl.
      rewrite (proj2 (Z.ltb_lt _ _)) by lia. done.
    + intros k Hk. by rewrite lookup_insert_ne.
  - eexists. split; [reflexivity |]. unfold healthy in *. world_simpl. rewrite Hh.
    repeat split; try done.
    change (redis_lookup (userSessionsKey userId) (set_redis (redis w) _))
      with (redis_lookup (userSessionsKey userId) w). by rewrite He.
Qed.

Lemma setEx_healthy (w : World) (tokenId : string) (ttl : Z) (p : SessionPayload) :
  healthy w -> 0 < ttl ->
  exists w', redis_setEx (sessKey tokenId) ttl p w = (Ok tt, w') /\
             healthy w' /\ clock w' = clock w /\ stored w' tokenId = Some p /\
             redis w' = <[sessKey tokenId := mkEntry (RString p) (Some (clock w + ttl * 1000))]>
                          (redis w) /\
             iolog w' = RedisSetEx (sessKey tokenId) ttl p :: iolog w.
Proof.
  intros Hh Httl. unfold redis_setEx. monad. rewrite (healthy_hd w Hh).
  rewrite (proj2 (Z.leb_gt _ _)) by lia.
  eexists. split; [reflexivity |]. unfold healthy in *. world_simpl. rewrite Hh.
  repeat split; try done.
  unfold stored, redis_lookup. world_simpl. rewrite lookup_insert_eq. unfold live. simpl.
  rewrite (proj2 (Z.ltb_lt _ _)) by lia. done.
Qed.

Lemma createSession_succeeds (config : Config) (w : World) (userId : string)
    (roles : list UserRole) (metadata : option Fingerprint) :
  EnvSchema config -> store_ok config w -> healthy w ->
  let now := clock w / 1000 in
  let session := mkSession userId roles (now + SESSION_TTL_SECONDS config) now now
                           (metadata ≫= f_ip) (metadata ≫= f_userAgent)
                           (metadata ≫= f_country) in
  exists tokenId w',
    createSession config userId roles metadata w = (Ok tokenId, w') /\
    healthy w' /\ clock w' = clock w /\
    stored w' tokenId = Some session /\ tokenId ∈ indexed w' userId.
Proof.
  intros [Httl Hpos] Hok Hh now session.
  unfold createSession, generateSessionToken.
  unfold bind at 1. unfold bind at 1. unfold randomBytes, ret. unfold bind at 1.
  unfold now_seconds. world_simpl.
  set (tokenId := toHex _). set (w0 := set_drawn _ w).
  assert (healthy w0) as Hh0 by exact Hh.
  assert (store_ok config w0) as Hok0 by exact Hok.
  destruct (setEx_healthy w0 tokenId (SESSION_TTL_SECONDS config) session Hh0 Httl)
    as (w1 & E1 & Hh1 & Hc1 & Hs1 & Hr1 & Hl1).
  assert (store_ok config w1) as Hok1.
  { pose proof (keeps_setEx config tokenId session) as Hk.
    assert (good_payload config session) as Hgood by (split; simpl; lia).
    specialize (Hk Hgood w0 Hok0). rewrite E1 in Hk. by destruct Hk. }
  destruct (sAdd_healthy config w1 userId tokenId Hok1 Hh1) as (w2 & E2 & Hh2 & Hc2 & Hi2 & Hf2).
  destruct (expire_healthy w2 userId (SESSION_TTL_SECONDS config) Hh2 Httl)
    as (w3 & E3 & Hh3 & Hc3 & Hi3 & Hf3).
  exists tokenId, w3. unfold try_catch, bind.
  change (redis_setEx (sessKey tokenId) (SESSION_TTL_SECONDS config) _ w0)
    with (redis_setEx (sessKey tokenId) (SESSION_TTL_SECONDS config) session w0).
  rewrite E1, E2, E3. unfold ret.
  repeat split; try done.
  - by rewrite Hc3, Hc2, Hc1.
  - rewrite <- Hs1. apply stored_frame; [by rewrite Hc3, Hc2 |].
    rewrite Hf3 by apply sessKey_not_index. rewrite Hf2 by apply sessKey_not_index. done.
  - by rewrite Hi3.
Qed.




(** What the commands that only read leave behind. *)
Lemma redis_get_inv (k : string) (w w' : World) (r : Res (option SessionPayload)) :
  redis_get k w = (r, w') ->
  redis w' = redis w /\ clock w' = clock w /\
  (forall p, r = Ok (Some p) -> exists e, redis w !! k = Some e).
Proof.
  unfold redis_get. monad. destruct (hd false (faults w)).
  { intros [= <- <-]. done. }
  change (redis_lookup k (after (RedisGet k) w)) with (redis_lookup k w).
  destruct (redis_lookup k w) as [e |] eqn:He.
  - apply redis_lookup_Some in He as [He _].
    destruct (rval e); intros [= <- <-]; repeat split; eauto; done.
  - intros [= <- <-]. done.
Qed.

Lemma redis_sMembers_inv (userId : string) (w w' : World) (r : Res (list string)) :
  redis_sMembers (userSessionsKey userId) w = (r, w') ->
  redis w' = redis w /\ clock w' = clock w /\
  (forall l, r = Ok l -> l = elements (indexed w userId)).
Proof.
  unfold redis_sMembers, indexed. monad. destruct (hd false (faults w)).
  { intros [= <- <-]. done. }
  change (redis_lookup (userSessionsKey userId) (after _ w))
    with (redis_lookup (userSessionsKey userId) w).
  destruct (redis_lookup (userSessionsKey userId) w) as [e |].
  - destruct (rval e); intros [= <- <-]; repeat split; try done. by intros l [= <-].
  - intros [= <- <-]. repeat split. intros l [= <-]. by rewrite elements_empty.
Qed.

Lemma redis_del_inv (ks : list string) (w w' : World) :
  redis_del ks w = (Ok tt, w') ->
  redis w' = foldr delete (redis w) ks /\ clock w' = clock w.
Proof.
  unfold redis_del. monad. destruct (hd false (faults w)); [done |].
  intros [= <-]. done.
Qed.

Lemma indexed_frame (w w' : World) (userId : string) :
  clock w' = clock w -> redis w' !! userSessionsKey userId = redis w !! userSessionsKey userId ->
  indexed w' userId = indexed w userId.
Proof. intros Hc Hr. unfold indexed, redis_lookup. by rewrite Hc, Hr. Qed.

Lemma indexed_absent (w : World) (userId : string) :
  redis w !! userSessionsKey userId = None -> indexed w userId = ∅.
Proof. intros Hr. unfold indexed, redis_lookup. by rewrite Hr. Qed.

Lemma deleteSession_removes (tokenId : string) (w w1 : World) :
  deleteSession tokenId w = (Ok tt, w1) -> redis w1 !! sessKey tokenId = None.
Proof.
  unfold deleteSession, try_catch, bind.
  destruct (redis_get (sessKey tokenId) w) as [[sessionData | e] wa]; [| done].
  assert (forall wb, (let (r, w') := redis_del [sessKey tokenId] wb in
                      match r with
                      | Ok a => (Ok a, w')
                      | Throw _ => @throw unit "Session deletion failed" w'
                      end) = (Ok tt, w1) -> redis w1 !! sessKey tokenId = None) as Hdel.
  { intros wb. destruct (redis_del [sessKey tokenId] wb) as [[[] | e] wc] eqn:Edel; [| done].
    intros [= <-]. apply redis_del_inv in Edel as [-> _]. simpl. apply lookup_delete_eq. }
  destruct sessionData as [session |].
  - destruct (redis_sRem _ tokenId wa) as [[[] | e] wb]; [apply Hdel | done].
  - apply Hdel.
Qed.

Lemma getSession_absent (config : Config) (tokenId : string) (w : World) :
  redis w !! sessKey tokenId = None -> fst (getSession config tokenId w) = Ok None.
Proof.
  intros Hk. unfold getSession, try_catch, bind.
  destruct (redis_get_absent w (sessKey tokenId) Hk) as [H | [e H]];
    destruct (redis_get (sessKey tokenId) w) as [r wa]; simpl in H; subst r; done.
Qed.

Lemma collect_sessions_excludes (deleted : string) (sessionTokens : list string) :
  forall (sessions : list SessionMetadata) (w w' : World) (l : list SessionMetadata),
    redis w !! sessKey deleted = None ->
    (forall m, m ∈ sessions -> tokenId m <> deleted) ->
    collect_sessions sessionTokens sessions w = (Ok l, w') ->
    forall m, m ∈ l -> tokenId m <> deleted.
Proof.
  induction sessionTokens as [| t rest IH]; intros sessions w w' l Hk Hacc; simpl.
  - intros [= <- <-]. exact Hacc.
  - unfold bind. destruct (redis_get (sessKey t) w) as [[sessionData | e] wa] eqn:Eget; [| done].
    apply redis_get_inv in Eget as (Hr & _ & Hsome).
    assert (redis wa !! sessKey deleted = None) as Hk' by (by rewrite Hr).
    destruct sessionData as [session |]; [| by apply IH].
    apply IH; [done |]. intros m Hm. apply elem_of_app in Hm as [Hm | Hm]; [by apply Hacc |].
    apply list_elem_of_singleton in Hm as ->. simpl. intros ->.
    destruct (Hsome session eq_refl) as [e He]. congruence.
Qed.

(** With the store in reach and well formed, the commands succeed. *)
Lemma healthy_after (e : IO) (w : World) : healthy w -> healthy (after e w).
Proof. unfold healthy. world_simpl. by intros ->. Qed.

Lemma get_healthy (config : Config) (w : World) (tokenId : string) :
  store_ok config w -> healthy w ->
  redis_get (sessKey tokenId) w = (Ok (stored w tokenId), after (RedisGet (sessKey tokenId)) w).
Proof.
  intros [Hm _] Hh. unfold redis_get, stored. monad. rewrite (healthy_hd w Hh).
  change (redis_lookup (sessKey tokenId) (after _ w)) with (redis_lookup (sessKey tokenId) w).
  destruct (redis_lookup (sessKey tokenId) w) as [e |] eqn:He; [| done].
  apply redis_lookup_Some in He as [He _].
  pose proof (map_Forall_lookup_1 _ _ _ _ Hm He) as Hgood. unfold good_entry in Hgood.
  destruct (rval e); [done |]. destruct Hgood as [u Hu]. by apply sessKey_not_index in Hu.
Qed.

Lemma sMembers_healthy (config : Config) (w : World) (userId : string) :
  store_ok config w -> healthy w ->
  redis_sMembers (userSessionsKey userId) w
  = (Ok (elements (indexed w userId)), after (RedisSMembers (userSessionsKey userId)) w).
Proof.
  intros [Hm _] Hh. unfold redis_sMembers, indexed. monad. rewrite (healthy_hd w Hh).
  change (redis_lookup (userSessionsKey userId) (after _ w))
    with (redis_lookup (userSessionsKey userId) w).
  destruct (redis_lookup (userSessionsKey userId) w) as [e |] eqn:He;
    [| by rewrite elements_empty].
  apply redis_lookup_Some in He as [He _].
  pose proof (map_Forall_lookup_1 _ _ _ _ Hm He) as Hgood. unfold good_entry in Hgood.
  destruct (rval e); [| done]. destruct Hgood as [[t Ht] _]. symmetry in Ht.
  by apply sessKey_not_index in Ht.
Qed.

Lemma sRem_healthy (config : Config) (w : World) (userId m : string) :
  store_ok config w -> healthy w ->
  exists w', redis_sRem (userSessionsKey userId) m w = (Ok tt, w') /\ healthy w'.
Proof.
  intros [Hm _] Hh. unfold redis_sRem. monad. rewrite (healthy_hd w Hh).
  change (redis_lookup (userSessionsKey userId) (after _ w))
    with (redis_lookup (userSessionsKey userId) w).
  destruct (redis_lookup (userSessionsKey userId) w) as [e |] eqn:He.
  - apply redis_lookup_Some in He as [He _].
    pose proof (map_Forall_lookup_1 _ _ _ _ Hm He) as Hgood. unfold good_entry in Hgood.
    destruct (rval e) as [p | s].
    { destruct Hgood as [[t Ht] _]. symmetry in Ht. by apply sessKey_not_index in Ht. }
    destruct (decide (s ∖ {[m]} = ∅)); eexists; (split; [reflexivity |]);
      unfold healthy in *; world_simpl; by rewrite Hh.
  - eexists. split; [reflexivity |]. unfold healthy in *. world_simpl. by rewrite Hh.
Qed.

Lemma del_healthy (w : World) (ks : list string) :
  healthy w -> exists w', redis_del ks w = (Ok tt, w') /\ healthy w'.
Proof.
  intros Hh. unfold redis_del. monad. rewrite (healthy_hd w Hh).
  eexists. split; [reflexivity |]. unfold healthy in *. world_simpl. by rewrite Hh.
Qed.

Lemma deleteSession_total (config : Config) (w : World) (tokenId : string) :
  store_ok config w -> healthy w ->
  exists w1, deleteSession tokenId w = (Ok tt, w1) /\ healthy w1 /\ store_ok config w1.
Proof.
  intros Hok Hh.
  pose proof (keeps_deleteSession config tokenId w Hok) as [Hok1 _].
  unfold deleteSession, try_catch, bind in *.
  rewrite (get_healthy config w tokenId Hok Hh) in *.
  set (wa := after (RedisGet (sessKey tokenId)) w) in *.
  assert (healthy wa) as Hha by by apply healthy_after.
  assert (store_ok config wa) as Hoka.
  { destruct Hok as [Hm Hl]. split; [done | by apply Forall_cons]. }
  destruct (stored w tokenId) as [session |].
  - destruct (sRem_healthy config wa (uid session) tokenId Hoka Hha) as (wb & Eb & Hhb).
    rewrite Eb in *. destruct (del_healthy wb [sessKey tokenId] Hhb) as (wc & Ec & Hhc).
    rewrite Ec in *. eauto.
  - unfold ret in *. destruct (del_healthy wa [sessKey tokenId] Hha) as (wc & Ec & Hhc).
    rewrite Ec in *. eauto.
Qed.

Lemma collect_sessions_total (config : Config) (sessionTokens : list string) :
  forall (sessions : list SessionMetadata) (w : World),
    store_ok config w -> healthy w ->
    exists l w', collect_sessions sessionTokens sessions w = (Ok l, w').
Proof.
  induction sessionTokens as [| t rest IH]; intros sessions w Hok Hh; simpl.
  - unfold ret. eauto.
  - unfold bind. rewrite (get_healthy config w t Hok Hh).
    assert (healthy (after (RedisGet (sessKey t)) w)) as Hha by by apply healthy_after.
    assert (store_ok config (after (RedisGet (sessKey t)) w)) as Hoka.
    { destruct Hok as [Hm Hl]. split; [done | by apply Forall_cons]. }
    destruct (stored w t); by apply IH.
Qed.

Lemma listUserSessions_total (config : Config) (w : World) (userId : string) :
  store_ok config w -> healthy w ->
  exists l w', listUserSessions userId w = (Ok l, w').
Proof.
  intros Hok Hh. unfold listUserSessions, try_catch, bind.
  rewrite (sMembers_healthy config w userId Hok Hh).
  assert (healthy (after (RedisSMembers (userSessionsKey userId)) w)) as Hha
    by by apply healthy_after.
  assert (store_ok config (after (RedisSMembers (userSessionsKey userId)) w)) as Hoka.
  { destruct Hok as [Hm Hl]. split; [done | by apply Forall_cons]. }
  destruct (collect_sessions_total config (elements (indexed w userId)) [] _ Hoka Hha)
    as (l & w' & ->).
  unfold ret. eauto.
Qed.

Lemma listUserSessions_excludes (deleted userId : string) (w w' : World)
    (l : list SessionMetadata) :
  redis w !! sessKey deleted = None ->
  listUserSessions userId w = (Ok l, w') ->
  deleted ∉ map tokenId l.
Proof.
  intros Hk. unfold listUserSessions, try_catch, bind.
  destruct (redis_sMembers (userSessionsKey userId) w) as [[tokens | e] wa] eqn:Em; [| done].
  apply redis_sMembers_inv in Em as (Hr & _ & _).
  destruct (collect_sessions tokens [] wa) as [[sessions | e] wb] eqn:Ec; [| done].
  unfold ret. intros [= <- <-].
  assert (redis wa !! sessKey deleted = None) as Hk' by (by rewrite Hr).
  pose proof (collect_sessions_excludes deleted tokens [] wa wb sessions Hk') as Hex.
  intros Hin. apply list_elem_of_fmap in Hin as (m & Hm & Hin).
  rewrite merge_sort_Permutation in Hin.
  eapply Hex; eauto. intros m' Hm'. by apply elem_of_nil in Hm'.
Qed.

Lemma deleteAllUserSessions_empties (userId : string) (w w1 : World) :
  deleteAllUserSessions userId w = (Ok tt, w1) -> indexed w1 userId = ∅.
Proof.
  unfold deleteAllUserSessions, try_catch, bind.
  destruct (redis_sMembers (userSessionsKey userId) w) as [[tokens | e] wa] eqn:Em; [| done].
  apply redis_sMembers_inv in Em as (Hr & Hc & Hl). specialize (Hl tokens eq_refl).
  destruct tokens as [| t rest]; simpl.
  - unfold ret. intros [= <-]. symmetry in Hl. apply elements_empty_inv in Hl.
    apply leibniz_equiv in Hl. rewrite <- Hl. by apply indexed_frame; [| rewrite Hr].
  - destruct (redis_del (sessKey t :: map sessKey rest) wa) as [[[] | e] wb]; [| done].
    destruct (redis_del [userSessionsKey userId] wb) as [[[] | e] wc] eqn:Edel; [| done].
    intros [= <-]. apply redis_del_inv in Edel as [Hd _].
    apply indexed_absent. rewrite Hd. simpl. apply lookup_delete_eq.
Qed.

Lemma listUserSessions_of_empty_index (userId : string) (w w' : World)
    (l : list SessionMetadata) :
  indexed w userId = ∅ -> listUserSessions userId w = (Ok l, w') -> l = [].
Proof.
  intros Hi. unfold listUserSessions, try_catch, bind.
  destruct (redis_sMembers (userSessionsKey userId) w) as [[tokens | e] wa] eqn:Em; [| done].
  apply redis_sMembers_inv in Em as (_ & _ & Hl). specialize (Hl tokens eq_refl).
  rewrite Hi, elements_empty in Hl. subst tokens. simpl. unfold ret. by intros [= <- <-].
Qed.

Lemma deleteAllUserSessions_total (config : Config) (w : World) (userId : string) :
  store_ok config w -> healthy w ->
  exists w1, deleteAllUserSessions userId w = (Ok tt, w1) /\ healthy w1 /\ store_ok config w1.
Proof.
  intros Hok Hh.
  pose proof (keeps_deleteAllUserSessions config userId w Hok) as [Hok1 _].
  unfold deleteAllUserSessions, try_catch, bind in *.
  rewrite (sMembers_healthy config w userId Hok Hh) in *.
  assert (healthy (after (RedisSMembers (userSessionsKey userId)) w)) as Hha
    by by apply healthy_after.
  destruct (0 <? _).
  - destruct (del_healthy _ (map sessKey (elements (indexed w userId))) Hha) as (wb & Eb & Hhb).
    rewrite Eb in *. destruct (del_healthy wb [userSessionsKey userId] Hhb) as (wc & Ec & Hhc).
    rewrite Ec in *. eauto.
  - unfold ret in *. eauto.
Qed.

(** C7. After [deleteSession(t)] has returned, [getSession(t)] answers none
    and no listing of any user (the owner in particular) contains [t]; after
    [deleteAllUserSessions(u)] has returned, [listUserSessions(u)] answers
    the empty sequence. In a reachable world whose store can be reached both
    deletions and the listing do return. *)
Theorem deletion_is_effective (config : Config) :
  (forall w token w1,
      deleteSession token w = (Ok tt, w1) ->
      fst (getSession config token w1) = Ok None /\
      forall userId l w2, listUserSessions userId w1 = (Ok l, w2) -> token ∉ map tokenId l) /\
  (forall w userId w1,
      deleteAllUserSessions userId w = (Ok tt, w1) ->
      forall l w2, listUserSessions userId w1 = (Ok l, w2) -> l = []) /\
  (forall w,
      EnvSchema config -> reachable config w -> healthy w ->
      (forall token, exists w1,
          deleteSession token w = (Ok tt, w1) /\
          forall userId, exists l w2, listUserSessions userId w1 = (Ok l, w2)) /\
      (forall userId, exists w1 w2,
          deleteAllUserSessions userId w = (Ok tt, w1) /\
          listUserSessions userId w1 = (Ok [], w2))).
Proof.
  split; [| split].
  - intros w token w1 Hdel. apply deleteSession_removes in Hdel. split.
    + by apply getSession_absent.
    + intros userId l w2. by apply listUserSessions_excludes.
  - intros w userId w1 Hdel l w2. apply deleteAllUserSessions_empties in Hdel.
    by apply listUserSessions_of_empty_index.
  - intros w Hschema Hreach Hh.
    pose proof (reachable_store_ok config Hschema w Hreach) as Hok. split.
    + intros token. destruct (deleteSession_total config w token Hok Hh) as (w1 & E & Hh1 & Hok1).
      exists w1. split; [done |]. intros userId. by apply (listUserSessions_total config).
    + intros userId.
      destruct (deleteAllUserSessions_total config w userId Hok Hh) as (w1 & E & Hh1 & Hok1).
      destruct (listUserSessions_total config w1 userId Hok1 Hh1) as (l & w2 & El).
      exists w1, w2. split; [done |].
      pose proof (deleteAllUserSessions_empties userId w w1 E) as Hempty.
      by rewrite (listUserSessions_of_empty_index userId w1 w2 l Hempty El) in El.
Qed.

Lemma deletion_is_effective_witness :
  let deleted := snd (deleteSession demo_token demo_created) in
  let cleared := snd (deleteAllUserSessions "u1" demo_created) in
  (fst (getSession default_config demo_token deleted) = Ok None /\
   demo_token ∉ map tokenId (match fst (listUserSessions "u1" deleted) with
                             | Ok l => l
                             | Throw _ => []
                             end)) /\
  fst (listUserSessions "u1" cleared) = Ok [].
Proof.
  intros deleted cleared.
  destruct (deletion_is_effective default_config) as (Hone & Hall & _).
  assert (deleteSession demo_token demo_created = (Ok tt, deleted)) as Edel
    by (vm_compute; reflexivity).
  assert (deleteAllUserSessions "u1" demo_created = (Ok tt, cleared)) as Eall
    by (vm_compute; reflexivity).
  destruct (Hone demo_created demo_token deleted Edel) as [Hget Hlist].
  split; [split; [exact Hget |] |].
  - destruct (listUserSessions "u1" deleted) as [[l | e] w2] eqn:El; simpl.
    + exact (Hlist "u1" l w2 El).
    + apply not_elem_of_nil.
  - destruct (listUserSessions "u1" cleared) as [[l | e] w2] eqn:El.
    + simpl. f_equal. exact (Hall demo_created "u1" cleared Eall l w2 El).
    + vm_compute in El. discriminate El.
Defined.

(** ** The session index of a renewed session *)

(** C2 (the invariant fails on the code). With the default configuration a
    session is created, read 79 000 seconds later (which renews the record
    for another 86 400 seconds but does not touch the index of its owner)
    and looked at 10 000 seconds after that: the record exists and
    [getSession] returns it, yet the index of the owner, whose time to live
    was set at creation only, is gone. The live session is not listed, and
    [deleteAllUserSessions] does not revoke it. *)
Theorem renewed_session_outlives_its_index :
  let renewed := perform default_config (CallGetSession demo_token)
                   (perform default_config (ClockIs 80000000) demo_created) in
  let w := perform default_config (ClockIs 90000000) renewed in
  let session := mkSession "u1" [USER] 166400 1000 80000 None None None in
  reachable default_config w /\
  stored w demo_token = Some session /\
  fst (getSession default_config demo_token w) = Ok (Some (renew 90000 86400 session)) /\
  indexed w "u1" = ∅ /\
  fst (listUserSessions "u1" w) = Ok [] /\
  fst (getSession default_config demo_token
         (perform default_config (CallDeleteAllUserSessions "u1") w))
  = Ok (Some (renew 90000 86400 session)).
Proof.
  intros renewed w session. split.
  - do 4 apply reach_call. apply reach_initial. split; reflexivity.
  - repeat split; vm_compute; reflexivity.
Qed.

(** ** Failures of the stores *)

Lemma modify_faults {A} (e : IO) (f : World -> Res A * gmap string rentry) (w : World) :
  faults (snd ((exec command e in modify_redis f) w)) = tail (faults w) /\
  (hd false (faults w) = true -> exists msg, fst ((exec command e in modify_redis f) w) = Throw msg).
Proof.
  monad. destruct (hd false (faults w)); simpl.
  - eauto.
  - destruct (f (after e w)) as [r m]. simpl. split; [done | discriminate].
Qed.

Lemma setEx_faults (k : string) (ttl : Z) (v : SessionPayload) (w : World) :
  faults (snd (redis_setEx k ttl v w)) = tail (faults w) /\
  (hd false (faults w) = true -> exists msg, fst (redis_setEx k ttl v w) = Throw msg).
Proof. unfold redis_setEx. apply modify_faults. Qed.

Lemma sAdd_faults (k m : string) (w : World) :
  faults (snd (redis_sAdd k m w)) = tail (faults w) /\
  (hd false (faults w) = true -> exists msg, fst (redis_sAdd k m w) = Throw msg).
Proof. unfold redis_sAdd. apply modify_faults. Qed.

Lemma expire_faults (k : string) (ttl : Z) (w : World) :
  faults (snd (redis_expire k ttl w)) = tail (faults w) /\
  (hd false (faults w) = true -> exists msg, fst (redis_expire k ttl w) = Throw msg).
Proof. unfold redis_expire. apply modify_faults. Qed.

Lemma createSession_propagates (config : Config) (userId : string) (roles : list UserRole)
    (metadata : option Fingerprint) (w : World) :
  (exists i, (i < 3)%nat /\ faults w !! i = Some true) ->
  exists w', createSession config userId roles metadata w
             = (Throw "Session creation failed", w').
Proof.
  intros (i & Hi & Hfault).
  unfold createSession, generateSessionToken.
  unfold bind at 1. unfold bind at 1. unfold randomBytes, ret. unfold bind at 1.
  unfold now_seconds. world_simpl.
  set (tokenId := toHex _). set (w0 := set_drawn _ w). set (session := mkSession _ _ _ _ _ _ _ _).
  assert (faults w0 = faults w) as Hf0 by done.
  unfold try_catch, bind.
  destruct (setEx_faults (sessKey tokenId) (SESSION_TTL_SECONDS config) session w0) as [F1 T1].
  destruct (redis_setEx (sessKey tokenId) (SESSION_TTL_SECONDS config) session w0)
    as [[[] | e1] w1]; [| unfold throw; eauto].
  destruct (sAdd_faults (userSessionsKey userId) tokenId w1) as [F2 T2].
  destruct (redis_sAdd (userSessionsKey userId) tokenId w1) as [[[] | e2] w2];
    [| unfold throw; eauto].
  destruct (expire_faults (userSessionsKey userId) (SESSION_TTL_SECONDS config) w2) as [F3 T3].
  destruct (redis_expire (userSessionsKey userId) (SESSION_TTL_SECONDS config) w2)
    as [[[] | e3] w3]; [| unfold throw; eauto].
  exfalso. simpl in F1, F2, F3, T1, T2, T3. clear F3.
  change (faults w0) with (faults w) in *. rewrite F2, F1 in T3. rewrite F1 in T2.
  destruct (faults w) as [| f1 [| f2 [| f3 fs]]]; destruct i as [| [| [| i]]];
    simpl in *; try done; try lia; injection Hfault as ->;
    first [by destruct T1 | by destruct T2 | by destruct T3].
Qed.

(** C8. [updateLastUsed] never fails for its caller, whatever the store
    does; [createSession] fails with an error, instead of returning a token,
    whenever one of the three commands it sends to the credential store (the
    write of the record first) fails. *)
Theorem error_propagation_policy (config : Config) :
  (forall apiKeyId w, exists w', updateLastUsed apiKeyId w = (Ok tt, w')) /\
  (forall userId roles metadata w,
      (exists i, (i < 3)%nat /\ faults w !! i = Some true) ->
      exists w', createSession config userId roles metadata w
                 = (Throw "Session creation failed", w')).
Proof.
  split.
  - intros apiKeyId w. destruct (updateLastUsed_total apiKeyId w) as (w' & E & _). eauto.
  - intros. by apply createSession_propagates.
Qed.

Lemma error_propagation_policy_witness :
  exists w', createSession default_config "u1" [USER] None (set_faults [true] demo_world)
             = (Throw "Session creation failed", w').
Proof.
  destruct (error_propagation_policy default_config) as [_ Hcreate].
  apply Hcreate. exists 0%nat. split; [lia | reflexivity].
Defined.

(** ** API keys: format of the keys that are issued *)

Lemma rep_class_matches (ranges : list (ascii * ascii)) (l : list ascii) :
  forall (rest : list ascii) (lo hi : nat),
    Forall (fun c => in_class ranges c = true) l ->
    (lo <= List.length l <= hi)%nat ->
    In rest (rep (rmatch (Class ranges)) lo hi (l ++ rest)).
Proof.
  induction l as [| c l IH]; intros rest lo hi Hall Hlen; simpl in Hlen.
  - assert (lo = 0%nat) as -> by lia. destruct hi; simpl; [by left |].
    apply in_or_app. right. by left.
  - destruct hi as [| hi]; [lia |]. apply Forall_cons in Hall as [Hc Hall].
    cbn [rep app rmatch]. rewrite Hc. cbn [flat_map]. rewrite app_nil_r.
    apply in_or_app. left. apply IH; [done | lia].
Qed.

Lemma regex_test_intro (r : regex) (s : string) : In [] (rmatch r (chars s)) -> regex_test r s = true.
Proof.
  intros Hin. unfold regex_test. apply existsb_exists. exists []. done.
Qed.

Lemma lower_hex_class (c : ascii) :
  is_lower_hex c = true -> in_class [("0", "9")%char; ("a", "f")%char] c = true.
Proof. unfold is_lower_hex, in_class. simpl. by rewrite orb_false_r. Qed.

Lemma lower_alpha_class (c : ascii) :
  is_lower_alpha c = true -> in_class [("a", "z")%char] c = true.
Proof. unfold is_lower_alpha, in_class. simpl. by rewrite orb_false_r. Qed.

Lemma body_matches (body : list ascii) :
  Forall (fun c => is_lower_hex c = true) body -> List.length body = 128%nat ->
  In [] (rmatch (Rep 128 128 (Class [("0", "9")%char; ("a", "f")%char])) body).
Proof.
  intros Hall Hlen. rewrite <- (app_nil_r body). cbn [rmatch].
  apply rep_class_matches; [| lia].
  eapply Forall_impl; [exact Hall | apply lower_hex_class].
Qed.

Lemma format_of_body (body : list ascii) :
  Forall (fun c => is_lower_hex c = true) body -> List.length body = 128%nat ->
  validateApiKeyFormat (str body) = true.
Proof.
  intros Hall Hlen. apply regex_test_intro. rewrite chars_str.
  unfold API_KEY_REGEX. cbn [rmatch]. apply in_flat_map. exists body. split.
  - apply in_or_app. right. by left.
  - by apply body_matches.
Qed.

Lemma format_of_prefixed (prefix body : list ascii) :
  Forall (fun c => is_lower_alpha c = true) prefix ->
  (1 <= List.length prefix <= 12)%nat ->
  Forall (fun c => is_lower_hex c = true) body -> List.length body = 128%nat ->
  validateApiKeyFormat (str (prefix ++ "_"%char :: body)) = true.
Proof.
  intros Hp Hplen Hall Hlen. apply regex_test_intro. rewrite chars_str.
  unfold API_KEY_REGEX. cbn [rmatch]. apply in_flat_map. exists body. split.
  - apply in_or_app. left. apply in_flat_map. exists ("_"%char :: body). split.
    + apply rep_class_matches; [| done].
      eapply Forall_impl; [exact Hp | apply lower_alpha_class].
    + simpl. by left.
  - by apply body_matches.
Qed.

Lemma hex_digit_lower (n : Z) : 0 <= n < 16 -> is_lower_hex (hex_digit n) = true.
Proof.
  intros Hn.
  assert (forallb (fun k => is_lower_hex (hex_digit (Z.of_nat k))) (seq 0 16) = true) as Hall
    by reflexivity.
  rewrite forallb_forall in Hall. specialize (Hall (Z.to_nat n)).
  rewrite Z2Nat.id in Hall by lia. apply Hall. apply in_seq. lia.
Qed.

Lemma toHex_chars (bs : list Z) :
  Forall (fun b => 0 <= b < 256) bs ->
  Forall (fun c => is_lower_hex c = true) (chars (toHex bs)) /\
  List.length (chars (toHex bs)) = (2 * List.length bs)%nat.
Proof.
  unfold toHex. rewrite chars_str. induction 1 as [| b bs Hb Hbs [IH1 IH2]]; simpl.
  - split; [constructor | done].
  - split; [| lia]. constructor; [| constructor; [| done]]; apply hex_digit_lower.
    + rewrite Z.shiftr_div_pow2 by lia. change (2 ^ 4) with 16.
      split; [apply Z.div_pos; lia | apply Z.div_lt_upper_bound; lia].
    + change 15 with (Z.ones 4). rewrite Z.land_ones by lia. apply Z.mod_pos_bound. lia.
Qed.

Lemma randomBytes_range (n : nat) (w : World) (bs : list Z) (w' : World) :
  randomBytes n w = (Ok bs, w') ->
  Forall (fun b => 0 <= b < 256) bs /\ List.length bs = n.
Proof.
  unfold randomBytes. intros [= <- _]. split.
  - apply Forall_forall. intros b Hb. apply list_elem_of_fmap in Hb as (i & -> & _).
    apply Z.mod_pos_bound. lia.
  - by rewrite length_map, length_seq.
Qed.

Lemma extractUsername_shape (email : string) :
  Forall (fun c => is_lower_alpha c = true) (chars (extractUsername email)) /\
  (List.length (chars (extractUsername email)) <= 12)%nat.
Proof.
  unfold extractUsername. rewrite chars_str. split.
  - apply Forall_take. apply Forall_forall. intros c Hc.
    apply list_elem_of_In, filter_In in Hc. by destruct Hc.
  - rewrite length_take. lia.
Qed.

Lemma generateApiKey_format (username : string) (w : World) :
  Forall (fun c => is_lower_alpha c = true) (chars username) ->
  (List.length (chars username) <= 12)%nat ->
  exists plaintext,
    generateApiKey username w = (Ok plaintext, set_drawn (drawn w + 64)%nat w) /\
    validateApiKeyFormat plaintext = true.
Proof.
  intros Halpha Hlen. unfold generateApiKey, bind.
  destruct (randomBytes 64 w) as [r w'] eqn:Er.
  assert (exists bs, r = Ok bs /\ w' = set_drawn (drawn w + 64)%nat w) as (bs & -> & ->).
  { unfold randomBytes in Er. injection Er as <- <-. eauto. }
  apply randomBytes_range in Er as [Hrange Hn].
  destruct (toHex_chars bs Hrange) as [Hhex Hhlen]. rewrite Hn in Hhlen.
  rewrite <- length_chars.
  destruct (0 <? Z.of_nat (List.length (chars username))) eqn:Hne; unfold ret.
  - eexists. split; [reflexivity |]. apply Z.ltb_lt in Hne.
    rewrite <- (str_chars (username +:+ "_" +:+ toHex bs)), !chars_app.
    apply format_of_prefixed; try done. lia.
  - eexists. split; [reflexivity |]. rewrite <- (str_chars (toHex bs)).
    by apply format_of_body.
Qed.

(** ** API keys: issuing, then validating *)



Lemma user_by_id_id (w : World) (id : string) (u : User) :
  user_by_id w id = Some u -> user_id u = id.
Proof.
  unfold user_by_id. intros H. apply find_some in H as [_ H]. by apply String.eqb_eq.
Qed.






(** * Further properties of the code *)

(** ** Methods that only talk to Redis *)

Lemma steady_ret {A} (a : A) : steady (ret a).
Proof. by intros w. Qed.

Lemma steady_throw {A} (msg : string) : steady (@throw A msg).
Proof. by intros w. Qed.

Lemma steady_bind {A B} (m : M A) (k : A -> M B) :
  steady m -> (forall a, steady (k a)) -> steady (bind m k).
Proof.
  intros Hm Hk w. specialize (Hm w). unfold bind.
  destruct (m w) as [[a | e] w1]; simpl in *; [| done].
  destruct (Hk a w1) as (? & ? & ? & ?). destruct Hm as (? & ? & ? & ?).
  repeat split; try congruence. auto.
Qed.

Lemma steady_try_catch {A} (m : M A) (h : string -> M A) :
  steady m -> (forall e, steady (h e)) -> steady (try_catch m h).
Proof.
  intros Hm Hh w. specialize (Hm w). unfold try_catch.
  destruct (m w) as [[a | e] w1]; simpl in *; [done |].
  destruct (Hh e w1) as (? & ? & ? & ?). destruct Hm as (? & ? & ? & ?).
  repeat split; try congruence. auto.
Qed.

Lemma steady_command (e : IO) : steady (command e).
Proof.
  intros w. unfold command, healthy.
  destruct (hd false (faults w)); simpl; repeat split; try done; by intros ->.
Qed.

Lemma steady_modify {A} (f : World -> Res A * gmap string rentry) : steady (modify_redis f).
Proof. intros w. unfold modify_redis. by destruct (f w). Qed.

Lemma steady_read {A} (f : World -> Res A) : steady (fun w => (f w, w)).
Proof. by intros w. Qed.

Lemma steady_get (k : string) : steady (redis_get k).
Proof.
  apply steady_bind; [apply steady_command | intros _ w].
  destruct (redis_lookup k w) as [e |]; [destruct (rval e) |]; done.
Qed.

Lemma steady_sMembers (k : string) : steady (redis_sMembers k).
Proof.
  apply steady_bind; [apply steady_command | intros _ w].
  destruct (redis_lookup k w) as [e |]; [destruct (rval e) |]; done.
Qed.

Lemma steady_setEx (k : string) (ttl : Z) (v : SessionPayload) : steady (redis_setEx k ttl v).
Proof. apply steady_bind; [apply steady_command | intros _; apply steady_modify]. Qed.

Lemma steady_sAdd (k m : string) : steady (redis_sAdd k m).
Proof. apply steady_bind; [apply steady_command | intros _; apply steady_modify]. Qed.

Lemma steady_expire (k : string) (ttl : Z) : steady (redis_expire k ttl).
Proof. apply steady_bind; [apply steady_command | intros _; apply steady_modify]. Qed.

Lemma steady_sRem (k m : string) : steady (redis_sRem k m).
Proof. apply steady_bind; [apply steady_command | intros _; apply steady_modify]. Qed.

Lemma steady_del (ks : list string) : steady (redis_del ks).
Proof. apply steady_bind; [apply steady_command | intros _; apply steady_modify]. Qed.

Lemma steady_user_findUnique (id : string) : steady (db_user_findUnique id).
Proof. apply steady_bind; [apply steady_command | by intros _ w]. Qed.

Lemma steady_now_seconds : steady now_seconds.
Proof. by intros w. Qed.

Create HintDb steady.

#[local] Hint Resolve steady_ret steady_throw steady_command steady_modify steady_get steady_sMembers steady_setEx steady_sAdd
  steady_expire steady_sRem steady_del steady_user_findUnique steady_now_seconds : steady.

Ltac steady :=
  cbv zeta;
  repeat first
    [ solve [auto with steady]
    | apply steady_try_catch; [| intros ?]
    | apply steady_bind; [| intros ?]
    | match goal with |- steady (match ?x with _ => _ end) => destruct x end
    | match goal with |- steady (if ?x then _ else _) => destruct x end ].


Lemma steady_getSession (config : Config) (tokenId : string) :
  steady (getSession config tokenId).
Proof. unfold getSession. steady. Qed.

Lemma steady_deleteAllUserSessions (userId : string) : steady (deleteAllUserSessions userId).
Proof. unfold deleteAllUserSessions. steady. Qed.

Lemma steady_collect_sessions (sessionTokens : list string) :
  forall sessions, steady (collect_sessions sessionTokens sessions).
Proof.
  induction sessionTokens as [| t rest IH]; intros sessions; simpl; [apply steady_ret |].
  steady; apply IH.
Qed.

Lemma steady_listUserSessions (userId : string) : steady (listUserSessions userId).
Proof. unfold listUserSessions. steady. apply steady_collect_sessions. Qed.

(** ** Keys of the session store *)

Lemma sessKey_inj (a b : string) : sessKey a = sessKey b -> a = b.
Proof. unfold sessKey. apply String.app_inj. Qed.

Lemma userSessionsKey_inj (a b : string) : userSessionsKey a = userSessionsKey b -> a = b.
Proof.
  unfold userSessionsKey. intros H. apply String.app_inj in H.
  apply (f_equal chars) in H. rewrite !chars_app in H.
  apply app_inv_tail in H. rewrite <- (str_chars a), <- (str_chars b). by rewrite H.
Qed.

Lemma stored_after (e : IO) (w : World) (tokenId : string) :
  stored (after e w) tokenId = stored w tokenId.
Proof. reflexivity. Qed.

Lemma indexed_after (e : IO) (w : World) (userId : string) :
  indexed (after e w) userId = indexed w userId.
Proof. reflexivity. Qed.

Lemma store_ok_after (config : Config) (e : IO) (w : World) :
  good_write config e -> store_ok config w -> store_ok config (after e w).
Proof. intros He [Hm Hl]. split; [done | by apply Forall_cons]. Qed.

(** ** What a listing contains *)

Lemma collect_sessions_result (config : Config) (sessionTokens : list string) :
  forall (sessions : list SessionMetadata) (w : World),
    store_ok config w -> healthy w ->
    exists w',
      collect_sessions sessionTokens sessions w
      = (Ok (sessions ++ omap (fun t => metadata_of t <$> stored w t) sessionTokens)%list, w') /\
      redis w' = redis w /\ clock w' = clock w /\ healthy w' /\ store_ok config w'.
Proof.
  induction sessionTokens as [| t rest IH]; intros sessions w Hok Hh.
  - exists w. simpl. rewrite app_nil_r. done.
  - simpl. unfold bind. rewrite (get_healthy config w t Hok Hh).
    set (wa := after (RedisGet (sessKey t)) w).
    assert (healthy wa) as Hha by by apply healthy_after.
    assert (store_ok config wa) as Hoka by by apply store_ok_after.
    destruct (stored w t) as [session |] eqn:Es; simpl.
    + destruct (IH (sessions ++ [metadata_of t session])%list wa Hoka Hha)
        as (w' & E & Hr & Hc & Hh' & Hok').
      exists w'. rewrite E, <- app_assoc. done.
    + destruct (IH sessions wa Hoka Hha) as (w' & E & Hr & Hc & Hh' & Hok').
      exists w'. rewrite E. done.
Qed.

Lemma listUserSessions_result (config : Config) (w : World) (userId : string) :
  store_ok config w -> healthy w ->
  exists w',
    listUserSessions userId w = (Ok (merge_sort more_recent (listed w userId)), w') /\
    redis w' = redis w /\ clock w' = clock w /\ healthy w' /\ store_ok config w'.
Proof.
  intros Hok Hh. unfold listUserSessions, try_catch, bind.
  rewrite (sMembers_healthy config w userId Hok Hh).
  set (wa := after (RedisSMembers (userSessionsKey userId)) w).
  assert (healthy wa) as Hha by by apply healthy_after.
  assert (store_ok config wa) as Hoka by by apply store_ok_after.
  destruct (collect_sessions_result config (elements (indexed w userId)) [] wa Hoka Hha)
    as (w' & E & Hr & Hc & Hh' & Hok').
  rewrite E. exists w'. done.
Qed.

Lemma listed_tokens (w : World) (userId : string) :
  map tokenId (listed w userId) `sublist_of` elements (indexed w userId).
Proof.
  unfold listed. induction (elements (indexed w userId)) as [| t rest IH]; [done |].
  simpl. destruct (stored w t) as [session |]; simpl.
  - by apply sublist_skip.
  - by apply sublist_cons.
Qed.

Lemma more_recent_total : Total more_recent.
Proof. intros a b. unfold more_recent. lia. Qed.

(** X1. Every listing of [listUserSessions] holds the sessions of the user's
    index whose record exists, each once, the most recently used first; the
    listing changes nothing in Redis. *)
Theorem listUserSessions_lists_live_sessions (config : Config) (w : World) (userId : string) :
  store_ok config w -> healthy w ->
  exists l w',
    listUserSessions userId w = (Ok l, w') /\
    l ≡ₚ listed w userId /\
    Sorted more_recent l /\
    NoDup (map tokenId l) /\
    (forall tokenId session,
        tokenId ∈ indexed w userId -> stored w tokenId = Some session ->
        metadata_of tokenId session ∈ l) /\
    (forall m, m ∈ l -> tokenId m ∈ indexed w userId /\
                        exists session, stored w (tokenId m) = Some session /\
                                        m = metadata_of (tokenId m) session) /\
    redis w' = redis w.
Proof.
  intros Hok Hh.
  destruct (listUserSessions_result config w userId Hok Hh) as (w' & E & Hr & _).
  exists (merge_sort more_recent (listed w userId)), w'.
  split; [exact E |]. split; [apply merge_sort_Permutation |].
  split; [apply (@Sorted_merge_sort _ more_recent _ more_recent_total) |].
  split.
  { assert (map tokenId (merge_sort more_recent (listed w userId))
            ≡ₚ map tokenId (listed w userId)) as ->
      by apply fmap_Permutation, merge_sort_Permutation.
    apply (sublist_NoDup _ (elements (indexed w userId)));
      [apply NoDup_elements | apply listed_tokens]. }
  split; [| split; [| exact Hr]].
  - intros t session Ht Hs. rewrite merge_sort_Permutation. unfold listed.
    apply list_elem_of_omap. exists t. split; [by apply elem_of_elements |].
    by rewrite Hs.
  - intros m Hm. rewrite merge_sort_Permutation in Hm. unfold listed in Hm.
    apply list_elem_of_omap in Hm as (t & Ht & Hm). apply elem_of_elements in Ht.
    destruct (stored w t) as [session |] eqn:Es; [| done].
    injection Hm as <-. simpl. eauto.
Qed.

Lemma createSession_token (config : Config) (userId : string) (roles : list UserRole)
    (metadata : option Fingerprint) (w w1 : World) (tokenId : string) :
  createSession config userId roles metadata w = (Ok tokenId, w1) ->
  String.length tokenId = 64%nat /\ Forall (fun c => is_lower_hex c = true) (chars tokenId).
Proof.
  unfold createSession, generateSessionToken. unfold bind at 1 2.
  destruct (randomBytes 32 w) as [[bs | e] wr] eqn:Er; [| done].
  apply randomBytes_range in Er as [Hrange Hlen].
  unfold ret at 1. unfold bind at 1, now_seconds, try_catch.
  match goal with |- context [bind ?m ?k ?w0] => destruct (bind m k w0) as [[t | e] wb] eqn:Eb end;
    [| done].
  intros [= <- <-].
  assert (t = toHex bs) as ->.
  { revert Eb. unfold bind.
    repeat match goal with |- context [match ?m ?w0 with _ => _ end] =>
      destruct (m w0) as [[? | ?] ?] end; try done.
    unfold ret. by intros [= <- _]. }
  destruct (toHex_chars bs Hrange) as [Hhex Hl].
  split; [| exact Hhex]. rewrite <- length_chars, Hl, Hlen. done.
Qed.

(** X2. A session that [createSession] returned is in the listing of its user at
    once, and its token is 64 lowercase hexadecimal characters. *)
Theorem created_session_is_listed (config : Config) (w : World) (userId : string)
    (roles : list UserRole) (metadata : option Fingerprint) :
  EnvSchema config -> store_ok config w -> healthy w ->
  let now := clock w / 1000 in
  let session := mkSession userId roles (now + SESSION_TTL_SECONDS config) now now
                           (metadata ≫= f_ip) (metadata ≫= f_userAgent)
                           (metadata ≫= f_country) in
  exists tokenId w1 l w2,
    createSession config userId roles metadata w = (Ok tokenId, w1) /\
    String.length tokenId = 64%nat /\
    Forall (fun c => is_lower_hex c = true) (chars tokenId) /\
    listUserSessions userId w1 = (Ok l, w2) /\
    metadata_of tokenId session ∈ l.
Proof.
  intros Hschema Hok Hh now session.
  destruct (createSession_succeeds config w userId roles metadata Hschema Hok Hh)
    as (t & w1 & Ec & Hh1 & Hc1 & Hs1 & Hi1).
  pose proof (keeps_createSession config userId roles metadata w Hok) as [Hok1 _].
  rewrite Ec in Hok1. simpl in Hok1.
  destruct (createSession_token _ _ _ _ _ _ _ Ec) as [Hlen Hhex].
  destruct (listUserSessions_result config w1 userId Hok1 Hh1) as (w2 & El & _).
  exists t, w1, (merge_sort more_recent (listed w1 userId)), w2.
  repeat split; try done.
  rewrite merge_sort_Permutation. unfold listed. apply list_elem_of_omap.
  exists t. split; [by apply elem_of_elements |]. by rewrite Hs1.
Qed.

Lemma setEx_positive (k : string) (ttl : Z) (v : SessionPayload) (w w' : World) :
  redis_setEx k ttl v w = (Ok tt, w') -> 0 < ttl.
Proof.
  unfold redis_setEx. monad. destruct (hd false (faults w)); [done |].
  destruct (ttl <=? 0) eqn:E; [done |]. intros _. lia.
Qed.

Lemma redis_get_is_stored (tokenId : string) (w w' : World) (p : SessionPayload) :
  redis_get (sessKey tokenId) w = (Ok (Some p), w') -> stored w tokenId = Some p.
Proof.
  unfold redis_get, stored. monad. destruct (hd false (faults w)); [done |].
  change (redis_lookup (sessKey tokenId) (after _ w)) with (redis_lookup (sessKey tokenId) w).
  destruct (redis_lookup (sessKey tokenId) w) as [e |]; [| done].
  destruct (rval e); [| done]. by intros [= <- _].
Qed.

Lemma getSession_sound (config : Config) (tokenId : string) (w : World) :
  exists r,
    fst (getSession config tokenId w) = Ok r /\
    forall session, r = Some session ->
      clock w / 1000 < exp session /\
      exists held, stored w tokenId = Some held /\
        (session = held \/
         session = renew (clock w / 1000) (SESSION_TTL_SECONDS config) held).
Proof.
  unfold getSession, try_catch. unfold bind at 1.
  destruct (redis_get (sessKey tokenId) w) as [[[held |] | e] w1] eqn:Eg.
  - pose proof (redis_get_is_stored _ _ _ _ Eg) as Hs.
    destruct (steady_get (sessKey tokenId) w) as (Hc & _). rewrite Eg in Hc. simpl in Hc.
    unfold bind at 1, now_seconds. rewrite Hc.
    destruct (exp held <=? clock w / 1000) eqn:Eexp.
    + unfold bind. destruct (deleteSession tokenId w1) as [[[] | e] w2]; simpl.
      * eexists. split; [reflexivity | done].
      * eexists. split; [reflexivity | done].
    + destruct (SESSION_SLIDING_EXTENSION_SECONDS config <=? clock w / 1000 - lastUsedAt held).
      * unfold bind.
        destruct (redis_setEx _ _ _ w1) as [[[] | e] w2] eqn:Es; simpl.
        -- eexists. split; [reflexivity |]. intros session [= <-].
           apply setEx_positive in Es. simpl. split; [lia |]. eauto.
        -- eexists. split; [reflexivity | done].
      * simpl. eexists. split; [reflexivity |]. intros session [= <-].
        split; [lia |]. eauto.
  - simpl. eexists. split; [reflexivity | done].
  - simpl. eexists. split; [reflexivity | done].
Qed.

(** X3. [getSession] never throws, and what it answers is the stored record of
    the token or its renewal, unexpired in both cases. *)
Theorem getSession_answers_unexpired (config : Config) (tokenId : string) (w : World) :
  exists r,
    fst (getSession config tokenId w) = Ok r /\
    forall session, r = Some session ->
      clock w / 1000 < exp session /\
      exists held, stored w tokenId = Some held /\
        (session = held \/
         session = renew (clock w / 1000) (SESSION_TTL_SECONDS config) held).
Proof. apply getSession_sound. Qed.

(** ** Deleting one session *)

Lemma sRem_effect (config : Config) (w : World) (userId m : string) :
  store_ok config w -> healthy w ->
  exists w', redis_sRem (userSessionsKey userId) m w = (Ok tt, w') /\
             healthy w' /\ clock w' = clock w /\
             indexed w' userId = indexed w userId ∖ {[m]} /\
             forall k, k <> userSessionsKey userId -> redis w' !! k = redis w !! k.
Proof.
  intros [Hm _] Hh. unfold redis_sRem. monad. rewrite (healthy_hd w Hh).
  change (redis_lookup (userSessionsKey userId) (after _ w))
    with (redis_lookup (userSessionsKey userId) w).
  unfold indexed at 2.
  destruct (redis_lookup (userSessionsKey userId) w) as [e |] eqn:He.
  - apply redis_lookup_Some in He as [He Hlive].
    pose proof (map_Forall_lookup_1 _ _ _ _ Hm He) as Hgood. unfold good_entry in Hgood.
    destruct (rval e) as [p | s] eqn:Hv.
    { destruct Hgood as [[t Ht] _]. symmetry in Ht. by apply sessKey_not_index in Ht. }
    cbv zeta. destruct (decide (s ∖ {[m]} = ∅)) as [Hempty | Hne].
    + eexists. split; [reflexivity |]. unfold healthy in *. world_simpl. rewrite Hh.
      repeat split; try done.
      * unfold indexed, redis_lookup. world_simpl. rewrite lookup_delete_eq. by rewrite Hempty.
      * intros k Hk. by rewrite lookup_delete_ne.
    + eexists. split; [reflexivity |]. unfold healthy in *. world_simpl. rewrite Hh.
      repeat split; try done.
      * unfold indexed, redis_lookup. world_simpl. rewrite lookup_insert_eq.
        change (live (clock w) {| rval := RSet (s ∖ {[m]}); deadline := deadline e |})
          with (live (clock w) e). by rewrite Hlive.
      * intros k Hk. by rewrite lookup_insert_ne.
  - eexists. split; [reflexivity |]. unfold healthy in *. world_simpl. rewrite Hh.
    repeat split; try done.
    unfold indexed. change (redis_lookup (userSessionsKey userId) (set_redis (redis w) _))
      with (redis_lookup (userSessionsKey userId) w). rewrite He.
    symmetry. apply empty_difference_L.
Qed.

Lemma del_one (w : World) (k : string) :
  healthy w ->
  exists w', redis_del [k] w = (Ok tt, w') /\ healthy w' /\ clock w' = clock w /\
             redis w' = delete k (redis w).
Proof.
  intros Hh. unfold redis_del. monad. rewrite (healthy_hd w Hh).
  eexists. split; [reflexivity |]. unfold healthy in *. world_simpl. by rewrite Hh.
Qed.

(** X4. [deleteSession] of a stored session removes its record and its index
    entry, and nothing else: the other sessions and the indexes of the other
    users are as before. *)
Theorem deleteSession_removes_one_session (config : Config) (w : World) (tokenId : string)
    (session : SessionPayload) :
  store_ok config w -> healthy w -> stored w tokenId = Some session ->
  exists w1,
    deleteSession tokenId w = (Ok tt, w1) /\
    stored w1 tokenId = None /\
    indexed w1 (uid session) = indexed w (uid session) ∖ {[tokenId]} /\
    (forall other, other <> tokenId -> stored w1 other = stored w other) /\
    (forall owner, owner <> uid session -> indexed w1 owner = indexed w owner).
Proof.
  intros Hok Hh Hs. unfold deleteSession, try_catch, bind.
  rewrite (get_healthy config w tokenId Hok Hh), Hs.
  set (wa := after (RedisGet (sessKey tokenId)) w).
  assert (healthy wa) as Hha by by apply healthy_after.
  assert (store_ok config wa) as Hoka by by apply store_ok_after.
  destruct (sRem_effect config wa (uid session) tokenId Hoka Hha)
    as (wb & Eb & Hhb & Hcb & Hib & Hfb).
  rewrite Eb. destruct (del_one wb (sessKey tokenId) Hhb) as (wc & Ec & Hhc & Hcc & Hrc).
  rewrite Ec. exists wc. split; [done |].
  assert (clock wc = clock w) as Hclock by (rewrite Hcc, Hcb; done).
  split; [| split; [| split]].
  - unfold stored, redis_lookup. by rewrite Hrc, lookup_delete_eq.
  - transitivity (indexed wb (uid session)); [| exact Hib].
    apply indexed_frame; [by rewrite Hcc |].
    rewrite Hrc. apply lookup_delete_ne. apply sessKey_not_index.
  - intros other Hother. apply stored_frame; [done |].
    rewrite Hrc, lookup_delete_ne by (intros H; by apply sessKey_inj in H).
    apply Hfb. apply sessKey_not_index.
  - intros owner Howner. apply indexed_frame; [done |].
    rewrite Hrc, lookup_delete_ne by apply sessKey_not_index.
    apply Hfb. intros H. by apply userSessionsKey_inj in H.
Qed.

(** X5. [deleteSession] of a token without a record succeeds and leaves every
    session and every index as it was: deleting twice is deleting once. *)
Theorem deleteSession_of_unknown_token (config : Config) (w : World) (tokenId : string) :
  store_ok config w -> healthy w -> stored w tokenId = None ->
  exists w1,
    deleteSession tokenId w = (Ok tt, w1) /\
    (forall other, stored w1 other = stored w other) /\
    (forall owner, indexed w1 owner = indexed w owner).
Proof.
  intros Hok Hh Hs. unfold deleteSession, try_catch, bind.
  rewrite (get_healthy config w tokenId Hok Hh), Hs. unfold ret.
  set (wa := after (RedisGet (sessKey tokenId)) w).
  assert (healthy wa) as Hha by by apply healthy_after.
  destruct (del_one wa (sessKey tokenId) Hha) as (wc & Ec & Hhc & Hcc & Hrc).
  rewrite Ec. exists wc. split; [done |]. split.
  - intros other. destruct (decide (other = tokenId)) as [-> | Hne].
    + rewrite Hs. unfold stored, redis_lookup. by rewrite Hrc, lookup_delete_eq.
    + apply stored_frame; [done |].
      rewrite Hrc, lookup_delete_ne by (intros H; by apply sessKey_inj in H). done.
  - intros owner. apply indexed_frame; [done |].
    rewrite Hrc, lookup_delete_ne by apply sessKey_not_index. done.
Qed.

(** ** The session path of the authenticators *)

Lemma getSession_valid (config : Config) (w : World) (tokenId : string)
    (session : SessionPayload) :
  EnvSchema config -> store_ok config w -> healthy w ->
  stored w tokenId = Some session -> clock w / 1000 < exp session ->
  exists session' w1,
    getSession config tokenId w = (Ok (Some session'), w1) /\
    uid session' = uid session /\ stored w1 tokenId = Some session' /\
    healthy w1 /\ store_ok config w1 /\ clock w1 = clock w /\ users w1 = users w.
Proof.
  intros Hschema Hok Hh Hs Hlive.
  pose proof (keeps_getSession config Hschema tokenId w Hok) as [Hok1 _].
  destruct (steady_getSession config tokenId w) as (Hc & Hu & _ & Hh1).
  destruct (Z.le_gt_cases (SESSION_SLIDING_EXTENSION_SECONDS config)
                          (clock w / 1000 - lastUsedAt session)) as [Hslide | Hwin].
  - destruct (getSession_renews config w tokenId session Hschema Hh Hs Hlive Hslide)
      as (w1 & E & Hs1 & _).
    rewrite E in *. simpl in *. eexists _, w1.
    split; [done |]. split; [done |]. split; [done |]. split; [by apply Hh1 | done].
  - assert (getSession config tokenId w
            = (Ok (Some session), after (RedisGet (sessKey tokenId)) w)) as E.
    { unfold getSession, try_catch, bind.
      rewrite (redis_get_stored w tokenId session (healthy_hd w Hh) Hs).
      unfold now_seconds. world_simpl.
      rewrite (proj2 (Z.leb_gt _ _)) by lia.
      rewrite (proj2 (Z.leb_gt _ _)) by lia. done. }
    rewrite E in *. simpl in *. eexists _, _.
    split; [done |]. split; [done |]. split; [done |]. split; [by apply Hh1 | done].
Qed.

(** X6. [requireSession] is [requireAuth] on the request without its
    Authorization header: an API key is never looked at, and a request
    without a session cookie is refused before any store is asked. *)
Theorem requireSession_is_cookie_only (config : Config) (req : Request) (w : World) :
  requireSession config req w = requireAuth config (mkRequest None (cookies req)) w /\
  (truthy (cookies req !! SESSION_COOKIE_NAME config) = None ->
   requireSession config req w = (Ok (Respond AUTHENTICATION_REQUIRED false), w)).
Proof.
  split; [reflexivity |]. intros Hc. unfold requireSession, try_catch. by rewrite Hc.
Qed.

Lemma user_findUnique_healthy (w : World) (id : string) :
  healthy w ->
  db_user_findUnique id w = (Ok (user_by_id w id), after (DbUserFindUnique id) w).
Proof. intros Hh. unfold db_user_findUnique. monad. by rewrite (healthy_hd w Hh). Qed.

(** X7. With a valid session in the cookie, [requireSession] decides by the user
    row of the session: no row, the session is deleted and the answer is
    AuthenticationRequired; an inactive user is refused and keeps the
    session; an active user is attached with the session and the token. *)
Theorem requireSession_decides_by_user (config : Config) (req : Request) (w : World)
    (sessionToken : string) (session : SessionPayload) :
  EnvSchema config -> store_ok config w -> healthy w ->
  truthy (cookies req !! SESSION_COOKIE_NAME config) = Some sessionToken ->
  stored w sessionToken = Some session -> clock w / 1000 < exp session ->
  exists w',
    snd (requireSession config req w) = w' /\
    match user_by_id w (uid session) with
    | None =>
        fst (requireSession config req w) = Ok (Respond AUTHENTICATION_REQUIRED false) /\
        stored w' sessionToken = None
    | Some user =>
        exists session', stored w' sessionToken = Some session' /\ uid session' = uid session /\
          fst (requireSession config req w)
          = Ok (if isActive user
                then Next (mkAttached (Some user) (Some session') (Some sessionToken) None)
                else Respond USER_INACTIVE false)
    end.
Proof.
  intros Hschema Hok Hh Hcookie Hs Hlive.
  destruct (requireSession config req w) as [r w'] eqn:Erun. exists w'.
  split; [done |]. simpl. revert Erun.
  unfold requireSession, try_catch. rewrite Hcookie. unfold bind at 1.
  destruct (getSession_valid config w sessionToken session Hschema Hok Hh Hs Hlive)
    as (session' & w1 & Eg & Huid & Hs1 & Hh1 & Hok1 & Hc1 & Hu1).
  rewrite Eg. unfold bind at 1. rewrite (user_findUnique_healthy w1 _ Hh1), Huid.
  assert (user_by_id w1 (uid session) = user_by_id w (uid session)) as ->
    by (unfold user_by_id; by rewrite Hu1).
  set (wa := after (DbUserFindUnique (uid session)) w1).
  assert (healthy wa) as Hha by by apply healthy_after.
  assert (store_ok config wa) as Hoka by by apply store_ok_after.
  destruct (user_by_id w (uid session)) as [user |].
  - intros Erun. exists session'. destruct (isActive user); simpl in Erun; by injection Erun as <- <-.
  - unfold bind.
    destruct (deleteSession_total config wa sessionToken Hoka Hha) as (wd & Ed & _).
    rewrite Ed. simpl. intros [= <- <-]. split; [done |].
    apply deleteSession_removes in Ed. unfold stored, redis_lookup. by rewrite Ed.
Qed.

Lemma user_by_id_in (w : World) (id : string) (u : User) :
  user_by_id w id = Some u -> u ∈ users w.
Proof. unfold user_by_id. intros H. apply find_some in H as [H _]. by apply list_elem_of_In. Qed.

Lemma requireSession_sound (config : Config) (req : Request) (w : World) (attached : Attached) :
  fst (requireSession config req w) = Ok (Next attached) ->
  exists user sessionToken session,
    truthy (cookies req !! SESSION_COOKIE_NAME config) = Some sessionToken /\
    user_by_id w (uid session) = Some user /\ isActive user = true /\
    clock w / 1000 < exp session /\
    attached = mkAttached (Some user) (Some session) (Some sessionToken) None.
Proof.
  unfold requireSession, try_catch.
  destruct (truthy (cookies req !! SESSION_COOKIE_NAME config)) as [t |]; [| done].
  unfold bind at 1.
  destruct (getSession_sound config t w) as (r & Er & Hr).
  destruct (steady_getSession config t w) as (_ & Hu & _).
  destruct (getSession config t w) as [[[session |] | e] w1]; simpl in *; try done.
  injection Er as <-. destruct (Hr session eq_refl) as [Hlive _].
  unfold bind at 1, db_user_findUnique. monad.
  destruct (hd false (faults w1)); [done |].
  change (user_by_id (after _ w1) (uid session)) with (user_by_id w1 (uid session)).
  assert (user_by_id w1 (uid session) = user_by_id w (uid session)) as ->
    by (unfold user_by_id; by rewrite Hu).
  destruct (user_by_id w (uid session)) as [user |] eqn:Eu.
  - destruct (isActive user) eqn:Ea; simpl; [| done].
    intros [= <-]. by exists user, t, session.
  - match goal with |- context [deleteSession t ?w0] =>
      destruct (deleteSession t w0) as [[[] | e] wd] end; done.
Qed.

Lemma requireAuth_sound (config : Config) (req : Request) (w : World)
    (attached : Attached) :
  fst (requireAuth config req w) = Ok (Next attached) ->
  exists principal,
    req_user attached = Some principal /\ isActive principal = true /\
    principal ∈ users w /\
    match bearer req with
    | Some apiKey =>
        exists record,
          validation w apiKey = Some record /\ principal = user record /\
          attached = mkAttached (Some principal) None None (Some record)
    | None =>
        exists sessionToken session,
          truthy (cookies req !! SESSION_COOKIE_NAME config) = Some sessionToken /\
          user_id principal = uid session /\ clock w / 1000 < exp session /\
          attached = mkAttached (Some principal) (Some session) (Some sessionToken) None
    end.
Proof.
  destruct (bearer req) as [apiKey |] eqn:Eb.
  - rewrite (requireAuth_bearer config req apiKey w Eb).
    destruct (validation w apiKey) as [record |] eqn:Ev; [| done].
    simpl. intros [= <-]. exists (user record). simpl.
    assert (findFirst_active w (hashApiKey apiKey) = Some record) as Hf.
    { revert Ev. unfold validation.
      destruct (validateApiKeyFormat apiKey && negb (hd false (faults w))); [| done].
      destruct (findFirst_active w (hashApiKey apiKey)) as [r |]; [| done].
      by destruct (is_expired (clock w) (key r)). }
    apply findFirst_active_sound in Hf as (_ & _ & Hown & Hact).
    repeat split; try done; [by apply user_by_id_in in Hown | by exists record].
  - rewrite (requireAuth_no_bearer config req w Eb).
    change (requireAuth config (mkRequest None (cookies req)) w)
      with (requireSession config req w).
    intros H. apply requireSession_sound in H
      as (u & t & session & Hc & Hu & Ha & Hl & ->).
    exists u. simpl. repeat split; try done; [by apply user_by_id_in in Hu |].
    exists t, session. repeat split; try done. by apply user_by_id_id in Hu.
Qed.


(** ** Which keys a method changes *)

Lemma touches_weaken {A} (keys keys' : string -> Prop) (m : M A) :
  (forall k, keys k -> keys' k) -> touches keys m -> touches keys' m.
Proof. intros Hsub Hm w k Hk. apply Hm. intros H. by apply Hk, Hsub. Qed.

Lemma touches_ret {A} (keys : string -> Prop) (a : A) : touches keys (ret a).
Proof. by intros w k _. Qed.

Lemma touches_throw {A} (keys : string -> Prop) (msg : string) : touches keys (@throw A msg).
Proof. by intros w k _. Qed.

Lemma touches_bind {A B} (keys : string -> Prop) (m : M A) (k : A -> M B) :
  touches keys m -> (forall a, touches keys (k a)) -> touches keys (bind m k).
Proof.
  intros Hm Hk w key Hkey. specialize (Hm w key Hkey). unfold bind.
  destruct (m w) as [[a | e] w1]; simpl in *; [| done].
  by rewrite (Hk a w1 key Hkey).
Qed.

Lemma touches_try_catch {A} (keys : string -> Prop) (m : M A) (h : string -> M A) :
  touches keys m -> (forall e, touches keys (h e)) -> touches keys (try_catch m h).
Proof.
  intros Hm Hh w key Hkey. specialize (Hm w key Hkey). unfold try_catch.
  destruct (m w) as [[a | e] w1]; simpl in *; [done |].
  by rewrite (Hh e w1 key Hkey).
Qed.

Lemma touches_command (keys : string -> Prop) (e : IO) : touches keys (command e).
Proof. intros w k _. unfold command. by destruct (hd false (faults w)). Qed.

Lemma touches_get (keys : string -> Prop) (k : string) : touches keys (redis_get k).
Proof.
  apply touches_bind; [apply touches_command | intros _ w key _].
  destruct (redis_lookup k w) as [e |]; [destruct (rval e) |]; done.
Qed.

Lemma touches_sMembers (keys : string -> Prop) (k : string) : touches keys (redis_sMembers k).
Proof.
  apply touches_bind; [apply touches_command | intros _ w key _].
  destruct (redis_lookup k w) as [e |]; [destruct (rval e) |]; done.
Qed.

Lemma touches_now_seconds (keys : string -> Prop) : touches keys now_seconds.
Proof. by intros w k _. Qed.

Lemma touches_setEx (keys : string -> Prop) (k : string) (ttl : Z) (v : SessionPayload) :
  keys k -> touches keys (redis_setEx k ttl v).
Proof.
  intros Hk. apply touches_bind; [apply touches_command | intros _ w key Hkey].
  unfold modify_redis. destruct (ttl <=? 0); simpl; [done |].
  apply lookup_insert_ne. by intros ->.
Qed.

Lemma touches_sRem (keys : string -> Prop) (k m : string) :
  keys k -> touches keys (redis_sRem k m).
Proof.
  intros Hk. apply touches_bind; [apply touches_command | intros _ w key Hkey].
  assert (k <> key) as Hne by by intros ->.
  unfold modify_redis.
  destruct (redis_lookup k w) as [e |]; [| done].
  destruct (rval e) as [p | s]; [done |]. cbv zeta.
  destruct (decide (s ∖ {[m]} = ∅)); simpl;
    [by apply lookup_delete_ne | by apply lookup_insert_ne].
Qed.

Lemma touches_del (keys : string -> Prop) (ks : list string) :
  Forall keys ks -> touches keys (redis_del ks).
Proof.
  intros Hks. apply touches_bind; [apply touches_command | intros _ w key Hkey].
  unfold modify_redis. simpl. induction Hks as [| k ks Hk _ IH]; simpl; [done |].
  rewrite lookup_delete_ne; [done | by intros ->].
Qed.

Lemma touches_deleteSession (tokenId : string) :
  touches (session_keys tokenId) (deleteSession tokenId).
Proof.
  unfold deleteSession. apply touches_try_catch; [| intros e; apply touches_throw].
  apply touches_bind; [apply touches_get | intros sessionData].
  apply touches_bind; [| intros _; apply touches_del; by repeat constructor].
  destruct sessionData as [session |]; [| apply touches_ret].
  apply touches_sRem. right. eauto.
Qed.

Lemma touches_getSession (config : Config) (tokenId : string) :
  touches (session_keys tokenId) (getSession config tokenId).
Proof.
  unfold getSession. apply touches_try_catch; [| intros e; apply touches_ret].
  apply touches_bind; [apply touches_get | intros [session |]]; [| apply touches_ret].
  apply touches_bind; [apply touches_now_seconds | intros now].
  destruct (exp session <=? now).
  - apply touches_bind; [apply touches_deleteSession | intros _; apply touches_ret].
  - destruct (SESSION_SLIDING_EXTENSION_SECONDS config <=? now - lastUsedAt session);
      [| apply touches_ret].
    apply touches_bind; [| intros _; apply touches_ret].
    apply touches_setEx. by left.
Qed.

Lemma touches_collect_sessions (keys : string -> Prop) (sessionTokens : list string) :
  forall sessions, touches keys (collect_sessions sessionTokens sessions).
Proof.
  induction sessionTokens as [| t rest IH]; intros sessions; simpl; [apply touches_ret |].
  apply touches_bind; [apply touches_get | intros [session |]]; apply IH.
Qed.

Lemma touches_listUserSessions (keys : string -> Prop) (userId : string) :
  touches keys (listUserSessions userId).
Proof.
  unfold listUserSessions. apply touches_try_catch; [| intros e; apply touches_throw].
  apply touches_bind; [apply touches_sMembers | intros tokens].
  apply touches_bind; [apply touches_collect_sessions | intros l; apply touches_ret].
Qed.

Lemma listUserSessions_reads (userId : string) (w : World) :
  redis (snd (listUserSessions userId w)) = redis w.
Proof.
  apply map_eq. intros k. apply (touches_listUserSessions (fun _ => False)). tauto.
Qed.

(** ** The handlers of the session routes *)



Lemma deleteAllUserSessions_removes (userId : string) (w w1 : World) :
  deleteAllUserSessions userId w = (Ok tt, w1) ->
  forall tokenId, tokenId ∈ indexed w userId -> redis w1 !! sessKey tokenId = None.
Proof.
  unfold deleteAllUserSessions, try_catch, bind.
  destruct (redis_sMembers (userSessionsKey userId) w) as [[tokens | e] wa] eqn:Em; [| done].
  apply redis_sMembers_inv in Em as (Hr & Hc & Hl). specialize (Hl tokens eq_refl).
  intros E t Ht. apply elem_of_elements in Ht. rewrite <- Hl in Ht.
  destruct tokens as [| t0 rest]; [by apply elem_of_nil in Ht |]. simpl in E.
  destruct (redis_del (sessKey t0 :: map sessKey rest) wa) as [[[] | e] wb] eqn:Ed1; [| done].
  destruct (redis_del [userSessionsKey userId] wb) as [[[] | e] wc] eqn:Ed2; [| done].
  injection E as <-.
  apply redis_del_inv in Ed1 as [Hd1 _]. apply redis_del_inv in Ed2 as [Hd2 _].
  rewrite Hd2. simpl. rewrite lookup_delete_ne by apply not_eq_sym, sessKey_not_index.
  rewrite Hd1. change (sessKey t0 :: map sessKey rest) with (map sessKey (t0 :: rest)).
  apply lookup_foldr_delete. by apply list_elem_of_fmap_2.
Qed.

Lemma stored_absent (w : World) (tokenId : string) :
  redis w !! sessKey tokenId = None -> stored w tokenId = None.
Proof. intros H. unfold stored, redis_lookup. by rewrite H. Qed.

Lemma truthy_Some (v : option string) (s : string) : truthy v = Some s -> v = Some s.
Proof.
  destruct v as [s' |]; [| done]. simpl.
  destruct (0 <? Z.of_nat (String.length s')); [| done]. by intros [= ->].
Qed.

Lemma truthy_idem (v : option string) (s : string) : truthy v = Some s -> truthy (Some s) = Some s.
Proof. intros H. pose proof (truthy_Some v s H) as ->. exact H. Qed.

Lemma requireSession_absent (config : Config) (req : Request) (w : World) (sessionToken : string) :
  truthy (cookies req !! SESSION_COOKIE_NAME config) = Some sessionToken ->
  redis w !! sessKey sessionToken = None ->
  fst (requireSession config req w) = Ok (Respond INVALID_TOKEN true).
Proof.
  intros Hc Hk. unfold requireSession, try_catch, bind. rewrite Hc.
  pose proof (getSession_absent config sessionToken w Hk) as Hg.
  destruct (getSession config sessionToken w) as [r w1]. simpl in Hg. by subst r.
Qed.

(** X9. After [logoutHandler] answered with success (200, cookie cleared), the
    session token is dead: [requireSession] refuses it with InvalidToken at
    any later time, whatever the state of the stores, as long as Redis holds
    what the handler left. With the stores in reach the handler does answer
    with success. *)
Theorem logout_ends_the_session (config : Config) (attached : Attached) (w : World) :
  (forall status body cleared,
      fst (Handlers.logoutHandler attached w) = Ok (Handlers.Json status body cleared) ->
      status = 200 /\ cleared = true /\
      exists sessionToken,
        req_sessionToken attached = Some sessionToken /\
        forall req later,
          redis later = redis (snd (Handlers.logoutHandler attached w)) ->
          cookies req !! SESSION_COOKIE_NAME config = Some sessionToken ->
          fst (requireSession config req later) = Ok (Respond INVALID_TOKEN true)) /\
  (store_ok config w -> healthy w ->
   forall sessionToken principal,
     truthy (req_sessionToken attached) = Some sessionToken ->
     req_user attached = Some principal ->
     fst (Handlers.logoutHandler attached w) = Ok (Handlers.Json 200 tt true)).
Proof.
  unfold Handlers.logoutHandler, try_catch. split.
  - intros status body cleared.
    destruct (truthy (req_sessionToken attached)) as [t |] eqn:Et; [| done].
    destruct (req_user attached) as [u |]; [| done]. unfold bind.
    destruct (deleteSession t w) as [[[] | e] w1] eqn:Ed; [| done]. simpl.
    intros [= <- <- <-]. repeat split; try done.
    exists t. split; [by apply truthy_Some |]. intros req later Hr Hc.
    apply deleteSession_removes in Ed.
    apply (requireSession_absent config req later t).
    + rewrite Hc. by apply (truthy_idem (req_sessionToken attached)).
    + by rewrite Hr.
  - intros Hok Hh t u -> ->. unfold bind.
    destruct (deleteSession_total config w t Hok Hh) as (w1 & -> & _). done.
Qed.

(** X10. After [logoutAllHandler] answered with success, no session that was in
    the index of the user is left; with the stores in reach it answers with
    success and reports the length of the user's listing. *)
Theorem logout_all_ends_every_session (config : Config) (attached : Attached) (w : World) :
  (forall status sessionsDeleted cleared,
      fst (Handlers.logoutAllHandler attached w)
      = Ok (Handlers.Json status sessionsDeleted cleared) ->
      status = 200 /\ cleared = true /\
      exists principal,
        req_user attached = Some principal /\
        forall tokenId,
          tokenId ∈ indexed w (user_id principal) ->
          stored (snd (Handlers.logoutAllHandler attached w)) tokenId = None) /\
  (store_ok config w -> healthy w ->
   forall principal,
     req_user attached = Some principal ->
     fst (Handlers.logoutAllHandler attached w)
     = Ok (Handlers.Json 200 (Z.of_nat (List.length (listed w (user_id principal)))) true)).
Proof.
  destruct (Handlers.logoutAllHandler attached w) as [r wf] eqn:Erun. simpl.
  unfold Handlers.logoutAllHandler, try_catch, bind in Erun. split.
  - intros status n cleared ->.
    destruct (req_user attached) as [u |]; [| done].
    pose proof (listUserSessions_reads (user_id u) w) as Hr.
    destruct (steady_listUserSessions (user_id u) w) as (Hc & _).
    destruct (listUserSessions (user_id u) w) as [[l | e] w1]; [| done].
    simpl in Hr, Hc.
    destruct (deleteAllUserSessions (user_id u) w1) as [[[] | e] w2] eqn:Ed; [| done].
    injection Erun as <- <- <- <-. repeat split; try done.
    exists u. split; [done |]. intros t Ht. apply stored_absent.
    apply (deleteAllUserSessions_removes _ _ _ Ed).
    rewrite (indexed_frame w w1) by (by rewrite ?Hr). done.
  - intros Hok Hh u Hu. rewrite Hu in Erun.
    destruct (listUserSessions_result config w (user_id u) Hok Hh)
      as (w1 & E1 & _ & _ & Hh1 & Hok1).
    rewrite E1 in Erun.
    destruct (deleteAllUserSessions_total config w1 (user_id u) Hok1 Hh1) as (w2 & E2 & _).
    rewrite E2 in Erun. injection Erun as <- <-.
    by rewrite merge_sort_Permutation.
Qed.



(** ** Role authorizer: effective permissions and the guards *)

Lemma includes_true (xs : list UserRole) (r : UserRole) : includes xs r = true <-> r ∈ xs.
Proof. unfold includes. apply bool_decide_eq_true. Qed.

Lemma set_add_elem (s : list UserRole) (r x : UserRole) : x ∈ set_add s r <-> x ∈ s \/ x = r.
Proof.
  unfold set_add. destruct (includes s r) eqn:E.
  - apply includes_true in E. split; [by left | intros [H | ->]; done].
  - rewrite elem_of_app, list_elem_of_singleton. done.
Qed.

Lemma set_add_NoDup (s : list UserRole) (r : UserRole) : NoDup s -> NoDup (set_add s r).
Proof.
  intros Hs. unfold set_add. destruct (includes s r) eqn:E; [done |].
  apply NoDup_app. split; [done |]. split; [| apply NoDup_singleton].
  intros x Hx Hr. apply list_elem_of_singleton in Hr as ->.
  apply includes_true in Hx. congruence.
Qed.

Lemma fold_set_add_elem (xs : list UserRole) :
  forall s x, x ∈ fold_left set_add xs s <-> x ∈ s \/ x ∈ xs.
Proof.
  induction xs as [| r rest IH]; intros s x; simpl.
  - rewrite elem_of_nil. tauto.
  - rewrite IH, set_add_elem, elem_of_cons. tauto.
Qed.

Lemma fold_set_add_NoDup (xs : list UserRole) :
  forall s, NoDup s -> NoDup (fold_left set_add xs s).
Proof.
  induction xs as [| r rest IH]; intros s Hs; simpl; [done |].
  by apply IH, set_add_NoDup.
Qed.

Lemma effective_elem (userRoles : list UserRole) :
  forall s x,
    x ∈ fold_left (fun effectiveRoles role => fold_left set_add (ROLE_HIERARCHY role) effectiveRoles)
                  userRoles s
    <-> x ∈ s \/ exists role, role ∈ userRoles /\ x ∈ ROLE_HIERARCHY role.
Proof.
  induction userRoles as [| r rest IH]; intros s x; simpl.
  - split; [by left | intros [H | (role & H & _)]; [done | by apply elem_of_nil in H]].
  - rewrite IH, fold_set_add_elem. split.
    + intros [[H | H] | (role & Hin & H)]; [by left | |].
      * right. exists r. split; [apply list_elem_of_here | done].
      * right. exists role. split; [by apply list_elem_of_further | done].
    + intros [H | (role & Hin & H)]; [by left; left |].
      apply elem_of_cons in Hin as [-> | Hin]; [by left; right |].
      right. by exists role.
Qed.

Lemma effective_NoDup (userRoles : list UserRole) :
  forall s, NoDup s ->
    NoDup (fold_left (fun effectiveRoles role =>
                        fold_left set_add (ROLE_HIERARCHY role) effectiveRoles) userRoles s).
Proof.
  induction userRoles as [| r rest IH]; intros s Hs; simpl; [done |].
  by apply IH, fold_set_add_NoDup.
Qed.

Lemma hierarchical_true (userRoles : list UserRole) (requiredRole : UserRole) :
  existsb (fun userRole => includes (ROLE_HIERARCHY userRole) requiredRole) userRoles = true
  <-> exists role, role ∈ userRoles /\ requiredRole ∈ ROLE_HIERARCHY role.
Proof.
  rewrite existsb_exists. split.
  - intros (role & Hin & H). exists role. split; [by apply list_elem_of_In | by apply includes_true].
  - intros (role & Hin & H). exists role. split; [by apply list_elem_of_In | by apply includes_true].
Qed.

(** X12. [getEffectivePermissions] lists exactly the roles that
    [hasRolePermission] grants, in either mode; in hierarchical mode it lists
    each of them once. *)
Theorem effective_permissions_are_the_granted_roles (userRoles : list UserRole) :
  (forall hierarchical requiredRole,
      requiredRole ∈ getEffectivePermissions userRoles hierarchical
      <-> hasRolePermission userRoles requiredRole hierarchical = true) /\
  NoDup (getEffectivePermissions userRoles true).
Proof.
  split.
  - intros [|] r; unfold getEffectivePermissions, hasRolePermission; simpl.
    + rewrite effective_elem, hierarchical_true, elem_of_nil. tauto.
    + by rewrite includes_true.
  - unfold getEffectivePermissions. simpl. apply effective_NoDup. constructor.
Qed.

Lemma hasRequiredRole_true (allowedRoles userRoles : list UserRole) (hierarchical : bool) :
  hasRequiredRole allowedRoles hierarchical userRoles = true
  <-> exists requiredRole, requiredRole ∈ allowedRoles /\
        hasRolePermission userRoles requiredRole hierarchical = true.
Proof.
  unfold hasRequiredRole, hasRolePermission. rewrite existsb_exists. split.
  - intros (r & Hin & H). exists r. split; [by apply list_elem_of_In |].
    by destruct hierarchical.
  - intros (r & Hin & H). exists r. split; [by apply list_elem_of_In |].
    by destruct hierarchical.
Qed.

Lemma hierarchy_reflexive (r : UserRole) : r ∈ ROLE_HIERARCHY r.
Proof. destruct r; simpl; apply list_elem_of_here. Qed.

(** X13. [requireRole] of [auth.ts] admits a user exactly when one of the user's
    roles is among the allowed ones, which is the test of [requireRoles]
    without hierarchy; whoever it admits, [requireRoles] with the hierarchy
    admits too. *)
Theorem requireRole_is_the_exact_check (allowedRoles : list UserRole) (attached : Attached)
    (principal : User) :
  req_user attached = Some principal ->
  (requireRole allowedRoles attached = Next attached
   <-> exists role, role ∈ user_roles principal /\ role ∈ allowedRoles) /\
  (requireRole allowedRoles attached = Next attached
   <-> hasRequiredRole allowedRoles false (user_roles principal) = true) /\
  (requireRole allowedRoles attached = Next attached ->
   hasRequiredRole allowedRoles true (user_roles principal) = true) /\
  (requireRole allowedRoles attached <> Next attached ->
   requireRole allowedRoles attached = Respond INSUFFICIENT_PERMISSIONS false).
Proof.
  intros Hu. unfold requireRole. rewrite Hu.
  assert (existsb (fun role => includes allowedRoles role) (user_roles principal) = true
          <-> exists role, role ∈ user_roles principal /\ role ∈ allowedRoles) as Hex.
  { rewrite existsb_exists. split.
    - intros (r & Hin & H). exists r. split; [by apply list_elem_of_In | by apply includes_true].
    - intros (r & Hin & H). exists r. split; [by apply list_elem_of_In | by apply includes_true]. }
  assert ((exists role, role ∈ user_roles principal /\ role ∈ allowedRoles)
          <-> hasRequiredRole allowedRoles false (user_roles principal) = true) as Hflat.
  { rewrite hasRequiredRole_true. unfold hasRolePermission. simpl. split.
    - intros (r & H1 & H2). exists r. by rewrite includes_true.
    - intros (r & H1 & H2). exists r. by rewrite includes_true in H2. }
  destruct (existsb _ (user_roles principal)) eqn:E.
  - assert (exists role, role ∈ user_roles principal /\ role ∈ allowedRoles) as Hrole
      by by apply Hex.
    repeat split; try done; try tauto.
    intros _. apply hasRequiredRole_true. destruct Hrole as (r & H1 & H2).
    exists r. split; [done |]. unfold hasRolePermission. simpl.
    apply hierarchical_true. exists r. split; [done | apply hierarchy_reflexive].
  - assert (~ exists role, role ∈ user_roles principal /\ role ∈ allowedRoles) as Hno.
    { intros H. apply Hex in H. done. }
    repeat split; try done; intros H; exfalso; tauto.
Qed.

Lemma requireAuth_never_throws (config : Config) (req : Request) (w : World) :
  exists outcome, fst (requireAuth config req w) = Ok outcome.
Proof.
  unfold requireAuth, try_catch.
  match goal with |- context [match ?m with _ => _ end] => destruct m as [[o | e] w1] end;
    simpl; eauto.
Qed.

Lemma requireRoles_result (config : Config) (allowedRoles : list UserRole) (hierarchical : bool)
    (req : Request) (w : World) :
  requireRoles config allowedRoles hierarchical req w =
  (match fst (requireAuth config req w) with
   | Ok (Next attached) =>
       Ok (match req_user attached with
           | None => Respond INTERNAL_ERROR false
           | Some principal =>
               if hasRequiredRole allowedRoles hierarchical (user_roles principal)
               then Next attached
               else Respond INSUFFICIENT_PERMISSIONS false
           end)
   | Ok (Respond code cleared) => Ok (Respond code cleared)
   | Throw e => Throw e
   end, snd (requireAuth config req w)).
Proof.
  unfold requireRoles, bind.
  destruct (requireAuth config req w) as [[[attached | code cleared] | e] w1]; simpl; try done.
  destruct (req_user attached) as [u |]; [| done].
  by destruct (hasRequiredRole allowedRoles hierarchical (user_roles u)).
Qed.

Lemma requireRoles_admits (config : Config) (allowedRoles : list UserRole) (hierarchical : bool)
    (req : Request) (w : World) (attached : Attached) :
  fst (requireRoles config allowedRoles hierarchical req w) = Ok (Next attached)
  <-> fst (requireAuth config req w) = Ok (Next attached) /\
      exists principal, req_user attached = Some principal /\
        hasRequiredRole allowedRoles hierarchical (user_roles principal) = true.
Proof.
  rewrite requireRoles_result. simpl.
  destruct (fst (requireAuth config req w)) as [[a | code cleared] | e] eqn:E; simpl.
  - apply requireAuth_sound in E as (u & Hu & _). rewrite Hu.
    destruct (hasRequiredRole allowedRoles hierarchical (user_roles u)) eqn:Eh.
    + split.
      * intros [= <-]. split; [done |]. by exists u.
      * by intros [[= <-] _].
    + split; [done |]. intros [[= <-] (u' & Hu' & Hh)]. congruence.
  - split; [done | by intros [? _]].
  - split; [done | by intros [? _]].
Qed.

Lemma admin_check (userRoles : list UserRole) :
  hasRequiredRole [ADMIN] true userRoles = true <-> ADMIN ∈ userRoles.
Proof.
  rewrite hasRequiredRole_true. split.
  - intros (r & Hr & H). apply list_elem_of_singleton in Hr as ->.
    apply hierarchical_true in H as (role & Hin & H). apply includes_true in H.
    destruct role; vm_compute in H; try discriminate. done.
  - intros H. exists ADMIN. split; [apply list_elem_of_here |].
    apply hierarchical_true. exists ADMIN. split; [done | apply hierarchy_reflexive].
Qed.

Lemma user_check (userRoles : list UserRole) :
  hasRequiredRole [USER; ADMIN] true userRoles = true <-> USER ∈ userRoles \/ ADMIN ∈ userRoles.
Proof.
  rewrite hasRequiredRole_true. split.
  - intros (r & Hr & H). apply hierarchical_true in H as (role & Hin & H).
    apply includes_true in H.
    destruct role; [by right | by left |].
    apply elem_of_cons in Hr as [-> | Hr]; [vm_compute in H; discriminate |].
    apply list_elem_of_singleton in Hr as ->. vm_compute in H. discriminate.
  - intros [H | H].
    + exists USER. split; [apply list_elem_of_here |].
      apply hierarchical_true. exists USER. split; [done | apply hierarchy_reflexive].
    + exists ADMIN. split; [apply list_elem_of_further, list_elem_of_here |].
      apply hierarchical_true. exists ADMIN. split; [done | apply hierarchy_reflexive].
Qed.

Lemma guest_check (userRoles : list UserRole) :
  hasRequiredRole [GUEST; USER; ADMIN] true userRoles = true <-> userRoles <> [].
Proof.
  rewrite hasRequiredRole_true. split.
  - intros (r & Hr & H). apply hierarchical_true in H as (role & Hin & H).
    intros ->. by apply elem_of_nil in Hin.
  - intros H. destruct userRoles as [| role rest]; [done |].
    exists GUEST. split; [apply list_elem_of_here |].
    apply hierarchical_true. exists role. split; [apply list_elem_of_here |].
    destruct role; simpl; repeat constructor.
Qed.

(** X14. The guards [requireAdmin], [requireUser] and [requireGuest] let pass the
    requests that [requireAuth] lets pass and whose user holds ADMIN, holds
    USER or ADMIN, holds any role at all. *)
Theorem convenience_guards (config : Config) (req : Request) (w : World)
    (attached : Attached) :
  (fst (requireAdmin config req w) = Ok (Next attached)
   <-> fst (requireAuth config req w) = Ok (Next attached) /\
       exists principal, req_user attached = Some principal /\
                         ADMIN ∈ user_roles principal) /\
  (fst (requireUser config req w) = Ok (Next attached)
   <-> fst (requireAuth config req w) = Ok (Next attached) /\
       exists principal, req_user attached = Some principal /\
                         (USER ∈ user_roles principal \/ ADMIN ∈ user_roles principal)) /\
  (fst (requireGuest config req w) = Ok (Next attached)
   <-> fst (requireAuth config req w) = Ok (Next attached) /\
       exists principal, req_user attached = Some principal /\
                         user_roles principal <> []).
Proof.
  unfold requireAdmin, requireUser, requireGuest. rewrite !requireRoles_admits.
  setoid_rewrite admin_check. setoid_rewrite user_check. setoid_rewrite guest_check.
  done.
Qed.

(** ** API keys: listing, deleting, cleaning up *)

Lemma deleteMany_result (where_ : ApiKey -> bool) (w : World) :
  db_apiKey_deleteMany where_ w =
  if hd false (faults w)
  then (Throw "store unavailable", set_faults (tail (faults w)) w)
  else (Ok (Z.of_nat (List.length (List.filter where_ (apiKeys w)))),
        set_apiKeys (List.filter (fun k => negb (where_ k)) (apiKeys w))
                    (set_faults (tail (faults w)) w)).
Proof. unfold db_apiKey_deleteMany, bind, query. by destruct (hd false (faults w)). Qed.

Lemma filter_none {A} (p : A -> bool) (l : list A) :
  List.length (List.filter p l) = 0%nat -> List.filter (fun x => negb (p x)) l = l.
Proof.
  induction l as [| x l IH]; simpl; [done |].
  destruct (p x); simpl; [done |]. intros H. by rewrite IH.
Qed.

Lemma filter_count {A} (p : A -> bool) (l : list A) :
  (List.length (List.filter p l) + List.length (List.filter (fun x => negb (p x)) l))%nat
  = List.length l.
Proof. induction l as [| x l IH]; simpl; [done |]. destruct (p x); simpl; lia. Qed.

Lemma find_filter {A} (p q : A -> bool) (l : list A) (x : A) :
  List.find p l = Some x -> q x = true -> List.find p (List.filter q l) = Some x.
Proof.
  induction l as [| y l IH]; simpl; [done |].
  destruct (p y) eqn:Ep.
  - intros [= ->] Hq. rewrite Hq. simpl. by rewrite Ep.
  - intros Hf Hq. destruct (q y); simpl; [rewrite Ep |]; by apply IH.
Qed.

Lemma in_filter {A} (p : A -> bool) (l : list A) (x : A) :
  x ∈ List.filter p l <-> x ∈ l /\ p x = true.
Proof. rewrite !list_elem_of_In. apply filter_In. Qed.

Lemma validation_sound (w : World) (apiKey : string) (record : ApiKeyWithUser) :
  validation w apiKey = Some record ->
  validateApiKeyFormat apiKey = true /\ hd false (faults w) = false /\
  findFirst_active w (hashApiKey apiKey) = Some record /\
  is_expired (clock w) (key record) = false.
Proof.
  unfold validation.
  destruct (validateApiKeyFormat apiKey); [| done].
  destruct (hd false (faults w)); [done |]. simpl.
  destruct (findFirst_active w (hashApiKey apiKey)) as [r |]; [| done].
  destruct (is_expired (clock w) (key r)) eqn:E; [done |]. by intros [= <-].
Qed.

(** X15. [cleanupExpiredApiKeys] never throws. With the store in reach it removes
    the rows whose expiry date has come, and only them, and answers their
    number; otherwise it answers 0 and removes nothing. A key that
    [validateApiKey] accepts before the cleanup is accepted after it. *)
Theorem cleanup_removes_expired_keys_only (w : World) :
  let w' := snd (cleanupExpiredApiKeys w) in
  exists count,
    fst (cleanupExpiredApiKeys w) = Ok count /\
    count = Z.of_nat (List.length (apiKeys w)) - Z.of_nat (List.length (apiKeys w')) /\
    (forall k, k ∈ apiKeys w' ->
               k ∈ apiKeys w /\
               (hd false (faults w) = false -> is_expired (clock w) k = false)) /\
    (forall k, k ∈ apiKeys w -> is_expired (clock w) k = false -> k ∈ apiKeys w') /\
    (hd false (faults w) = true -> count = 0 /\ apiKeys w' = apiKeys w) /\
    (forall apiKey record,
        healthy w ->
        fst (validateApiKey apiKey w) = Ok (Some record) ->
        fst (validateApiKey apiKey w') = Ok (Some record)).
Proof.
  intros w'. subst w'. unfold cleanupExpiredApiKeys, try_catch, bind, now_ms.
  rewrite deleteMany_result. destruct (hd false (faults w)) eqn:Ef.
  - exists 0. simpl. repeat split; try done; try lia.
    intros apiKey record Hh. unfold healthy in Hh. rewrite Hh in Ef. done.
  - eexists. split; [reflexivity |]. simpl.
    pose proof (filter_count (is_expired (clock w)) (apiKeys w)) as Hcount.
    split; [lia |]. split; [| split; [| split]].
    + intros k Hk. apply in_filter in Hk as [Hin Hk]. split; [done |].
      intros _. by apply negb_true_iff in Hk.
    + intros k Hin Hk. apply in_filter. split; [done |]. by rewrite Hk.
    + done.
    + intros apiKey record Hh. rewrite !validateApiKey_result. simpl.
      intros [= Hv]. f_equal. apply validation_sound in Hv as (Hfmt & _ & Hfind & Hexp).
      unfold healthy in Hh. unfold validation. rewrite Hfmt. simpl. rewrite Hh. simpl.
      assert (findFirst_active
                (set_apiKeys (List.filter (fun k => negb (is_expired (clock w) k)) (apiKeys w))
                             (set_faults [] w)) (hashApiKey apiKey) = Some record) as ->.
      { revert Hfind. unfold findFirst_active. simpl.
        destruct (List.find _ (apiKeys w)) as [k |] eqn:Ek; [| done].
        unfold owner_of, owner_active, owner_of, user_by_id in *. simpl.
        intros Hrec.
        assert (key record = k) as Hkey.
        { destruct (List.find _ (users w)); [| done]. by injection Hrec as <-. }
        rewrite (find_filter _ (fun k => negb (is_expired (clock w) k)) _ k Ek);
          [done |]. rewrite <- Hkey. by rewrite Hexp. }
      by rewrite Hexp.
Qed.

Lemma deleteApiKey_result (apiKeyId owner : string) (w : World) :
  let mine := fun k => String.eqb (key_id k) apiKeyId && String.eqb (userId k) owner in
  deleteApiKey apiKeyId owner w =
  if hd false (faults w)
  then (Throw "store unavailable", set_faults (tail (faults w)) w)
  else if existsb mine (apiKeys w)
       then (Ok tt, set_apiKeys (List.filter (fun k => negb (mine k)) (apiKeys w))
                                (set_faults (tail (faults w)) w))
       else (Throw "API key not found or access denied",
             set_apiKeys (apiKeys w) (set_faults (tail (faults w)) w)).
Proof.
  intros mine. unfold deleteApiKey, try_catch, bind. rewrite deleteMany_result. fold mine.
  destruct (hd false (faults w)); [done |].
  destruct (existsb mine (apiKeys w)) eqn:Eex.
  - apply existsb_exists in Eex as (k & Hin & Hk).
    assert (List.length (List.filter mine (apiKeys w)) <> 0%nat) as Hne.
    { intros H. apply length_zero_iff_nil in H.
      assert (In k (List.filter mine (apiKeys w))) as Hk' by by apply filter_In.
      rewrite H in Hk'. done. }
    destruct (Z.of_nat (List.length (List.filter mine (apiKeys w))) =? 0) eqn:E0; [| done].
    apply Z.eqb_eq in E0. lia.
  - assert (List.length (List.filter mine (apiKeys w)) = 0%nat) as H0.
    { apply length_zero_iff_nil. destruct (List.filter mine (apiKeys w)) as [| k rest] eqn:Ef;
        [done |].
      assert (In k (List.filter mine (apiKeys w))) as Hk by (rewrite Ef; by left).
      apply filter_In in Hk as [Hin Hk].
      assert (existsb mine (apiKeys w) = true) by (apply existsb_exists; eauto). congruence. }
    rewrite H0. simpl. unfold throw.
    change (List.filter _ (apiKeys w)) with (List.filter (fun k => negb (mine k)) (apiKeys w)).
    by rewrite (filter_none _ _ H0).
Qed.

Lemma mine_true (apiKeyId owner : string) (k : ApiKey) :
  String.eqb (key_id k) apiKeyId && String.eqb (userId k) owner = true
  <-> key_id k = apiKeyId /\ userId k = owner.
Proof. by rewrite andb_true_iff, !String.eqb_eq. Qed.

(** X16. [deleteApiKey] removes the rows that have the identifier and belong to
    the caller, and no other row. It succeeds exactly when the store is in
    reach and there is such a row. Without one it fails with the same
    message whether the identifier is unknown or the key of somebody else,
    and the table is unchanged. A row it removed is never again the answer
    of [validateApiKey]. *)
Theorem deleteApiKey_is_owner_guarded (apiKeyId owner : string) (w : World) :
  let w' := snd (deleteApiKey apiKeyId owner w) in
  (forall k, k ∈ apiKeys w' -> k ∈ apiKeys w) /\
  (forall k, k ∈ apiKeys w -> key_id k <> apiKeyId \/ userId k <> owner -> k ∈ apiKeys w') /\
  (fst (deleteApiKey apiKeyId owner w) = Ok tt
   <-> hd false (faults w) = false /\
       exists k, k ∈ apiKeys w /\ key_id k = apiKeyId /\ userId k = owner) /\
  (fst (deleteApiKey apiKeyId owner w) = Ok tt ->
   (forall k, k ∈ apiKeys w' -> key_id k <> apiKeyId \/ userId k <> owner) /\
   forall apiKey record later,
     apiKeys later = apiKeys w' ->
     fst (validateApiKey apiKey later) = Ok (Some record) ->
     key_id (key record) <> apiKeyId \/ userId (key record) <> owner) /\
  (hd false (faults w) = false ->
   (forall k, k ∈ apiKeys w -> key_id k <> apiKeyId \/ userId k <> owner) ->
   fst (deleteApiKey apiKeyId owner w) = Throw "API key not found or access denied" /\
   apiKeys w' = apiKeys w).
Proof.
  intros w'. subst w'. rewrite deleteApiKey_result. cbv zeta.
  set (mine := fun k => String.eqb (key_id k) apiKeyId && String.eqb (userId k) owner).
  assert (forall k, mine k = false <-> key_id k <> apiKeyId \/ userId k <> owner) as Hmine.
  { intros k. unfold mine. rewrite andb_false_iff, !String.eqb_neq. done. }
  assert (existsb mine (apiKeys w) = true
          <-> exists k, k ∈ apiKeys w /\ key_id k = apiKeyId /\ userId k = owner) as Hex.
  { rewrite existsb_exists. split.
    - intros (k & Hin & Hk). exists k. apply mine_true in Hk. by rewrite list_elem_of_In.
    - intros (k & Hin & Hk). exists k. rewrite <- list_elem_of_In. split; [done |].
      by apply mine_true. }
  destruct (hd false (faults w)); simpl.
  { repeat split; try done. by intros [? _]. }
  destruct (existsb mine (apiKeys w)) eqn:Eex; simpl.
  - assert (forall k, k ∈ List.filter (fun k => negb (mine k)) (apiKeys w) ->
                      key_id k <> apiKeyId \/ userId k <> owner) as Hgone.
    { intros k Hk. apply in_filter in Hk as [_ Hk]. apply negb_true_iff in Hk.
      by apply Hmine. }
    split; [| split; [| split; [| split]]].
    + intros k Hk. by apply in_filter in Hk as [Hin _].
    + intros k Hin Hk. apply in_filter. split; [done |]. apply negb_true_iff. by apply Hmine.
    + split; [| done]. intros _. split; [done |]. by apply Hex.
    + intros _. split; [exact Hgone |].
      intros apiKey record later Hkeys. rewrite validateApiKey_result. simpl.
      intros [= Hv]. apply validation_sound in Hv as (_ & _ & Hfind & _).
      apply findFirst_active_sound in Hfind as (Hin & _). rewrite Hkeys in Hin.
      by apply Hgone.
    + intros _ Hnone. destruct (proj1 Hex eq_refl) as (k & Hin & Hid & Hown).
      destruct (Hnone k Hin); done.
  - split; [| split; [| split; [| split]]]; try done.
    split; [done |]. intros [_ H]. by apply Hex in H.
Qed.

(** ** The shape of a SHA-256 digest *)

Lemma be_bytes_shape (n : nat) (x : Z) :
  List.length (SHA256.be_bytes n x) = n /\
  Forall (fun b => 0 <= b < 256) (SHA256.be_bytes n x).
Proof.
  unfold SHA256.be_bytes. split; [by rewrite length_map, length_seq |].
  apply Forall_forall. intros b Hb. apply list_elem_of_fmap in Hb as (i & -> & _).
  change 255 with (Z.ones 8). rewrite Z.land_ones by lia. apply Z.mod_pos_bound. lia.
Qed.

Lemma compress_length (h block : list Z) :
  List.length h = 8%nat -> List.length (SHA256.compress h block) = 8%nat.
Proof.
  intros Hh. unfold SHA256.compress. cbv zeta. rewrite length_map, length_combine, Hh.
  reflexivity.
Qed.

Lemma blocks_length (n : nat) :
  forall h bs, List.length h = 8%nat -> List.length (SHA256.blocks n h bs) = 8%nat.
Proof.
  induction n as [| n IH]; intros h bs Hh; simpl; [done |].
  apply IH. by apply compress_length.
Qed.

Lemma digest_shape (msg : list Z) :
  List.length (SHA256.digest msg) = 32%nat /\
  Forall (fun b => 0 <= b < 256) (SHA256.digest msg).
Proof.
  unfold SHA256.digest. cbv zeta.
  pose proof (blocks_length (List.length (SHA256.pad msg) / 64) SHA256.H0 (SHA256.pad msg)
                eq_refl) as Hlen.
  revert Hlen. generalize (SHA256.blocks (List.length (SHA256.pad msg) / 64) SHA256.H0
                             (SHA256.pad msg)).
  intros ws Hlen. split.
  - assert (forall l, List.length (flat_map (SHA256.be_bytes 4) l) = (4 * List.length l)%nat)
      as Hflat.
    { induction l as [| x l IH]; [done |].
      change (flat_map (SHA256.be_bytes 4) (x :: l))
        with (SHA256.be_bytes 4 x ++ flat_map (SHA256.be_bytes 4) l)%list.
      rewrite length_app, IH, (proj1 (be_bytes_shape 4 x)). simpl. lia. }
    rewrite Hflat, Hlen. done.
  - apply Forall_forall. intros b Hb. apply list_elem_of_In, in_flat_map in Hb as (x & _ & Hb).
    pose proof (proj2 (be_bytes_shape 4 x)) as Hall.
    rewrite Forall_forall in Hall. by apply Hall, list_elem_of_In.
Qed.

Lemma sha256_hex_shape (s : string) :
  String.length (sha256_hex s) = 64%nat /\
  Forall (fun c => is_lower_hex c = true) (chars (sha256_hex s)).
Proof.
  unfold sha256_hex. destruct (digest_shape (utf8 s)) as [Hlen Hrange].
  destruct (toHex_chars _ Hrange) as [Hhex Hl].
  split; [| exact Hhex]. by rewrite <- length_chars, Hl, Hlen.
Qed.

Lemma slice_last_length (n : nat) (s : string) :
  (n <= String.length s)%nat -> String.length (slice_last n s) = n.
Proof.
  intros Hn. unfold slice_last. rewrite <- length_chars, chars_str, length_drop, length_chars.
  lia.
Qed.

Lemma newer_total : Total newer.
Proof. intros a b. unfold newer. lia. Qed.

Lemma findMany_result (owner : string) (w : World) :
  db_apiKey_findMany owner w =
  if hd false (faults w)
  then (Throw "store unavailable", set_faults (tail (faults w)) w)
  else (Ok (merge_sort newer (List.filter (fun k => String.eqb (userId k) owner) (apiKeys w))),
        set_faults (tail (faults w)) w).
Proof. unfold db_apiKey_findMany, bind, query. by destruct (hd false (faults w)). Qed.

(** X17. [listUserApiKeys] answers one entry for each row of the user and none
    for a row of another user, the newest first; an entry shows the last six
    characters of the stored hash. The table is not changed. A failure of the
    store is reported as "Failed to list API keys". *)
Theorem listUserApiKeys_lists_own_keys (owner : string) (w : World) :
  let mine := List.filter (fun k => String.eqb (userId k) owner) (apiKeys w) in
  apiKeys (snd (listUserApiKeys owner w)) = apiKeys w /\
  (hd false (faults w) = true ->
   fst (listUserApiKeys owner w) = Throw "Failed to list API keys") /\
  (hd false (faults w) = false ->
   exists l,
     fst (listUserApiKeys owner w) = Ok l /\
     l ≡ₚ map metadata_of_key mine /\
     Sorted (fun a b => meta_createdAt b <= meta_createdAt a) l /\
     forall m, m ∈ l ->
       exists k, k ∈ apiKeys w /\ userId k = owner /\ m = metadata_of_key k /\
                 keyFingerprint m = slice_last 6 (keyHash k)).
Proof.
  intros mine. unfold listUserApiKeys, try_catch, bind. rewrite findMany_result.
  destruct (hd false (faults w)); simpl; [done |].
  split; [done |]. split; [done |]. intros _. fold mine.
  exists (map metadata_of_key (merge_sort newer mine)). split; [done |].
  split; [by rewrite merge_sort_Permutation |].
  split.
  - apply (Sorted_fmap metadata_of_key newer); [done | apply (@Sorted_merge_sort _ newer _ newer_total)].
  - intros m Hm. apply list_elem_of_fmap in Hm as (k & -> & Hk).
    rewrite merge_sort_Permutation in Hk. apply in_filter in Hk as [Hin Hk].
    apply String.eqb_eq in Hk. by exists k.
Qed.

Lemma filter_twice {A} (p : A -> bool) (l : list A) :
  List.filter p (List.filter (fun x => negb (p x)) l) = [].
Proof.
  induction l as [| x l IH]; simpl; [done |].
  destruct (p x) eqn:E; simpl; [done |]. by rewrite E.
Qed.

(** X18. [deleteAllUserApiKeys] removes the rows of the user, and only them, and
    answers their number; after it the listing of the user is empty and
    [validateApiKey] accepts no key of the user. A failure of the store is
    reported as "Failed to delete API keys" and removes nothing. *)
Theorem deleteAllUserApiKeys_removes_the_keys_of_the_user (owner : string) (w : World) :
  let w' := snd (deleteAllUserApiKeys owner w) in
  (hd false (faults w) = true ->
   fst (deleteAllUserApiKeys owner w) = Throw "Failed to delete API keys" /\
   apiKeys w' = apiKeys w) /\
  (hd false (faults w) = false ->
   fst (deleteAllUserApiKeys owner w)
   = Ok (Z.of_nat (List.length (List.filter (fun k => String.eqb (userId k) owner)
                                            (apiKeys w)))) /\
   (forall k, k ∈ apiKeys w' <-> k ∈ apiKeys w /\ userId k <> owner) /\
   (forall later,
       apiKeys later = apiKeys w' -> hd false (faults later) = false ->
       fst (listUserApiKeys owner later) = Ok []) /\
   (forall apiKey record later,
       apiKeys later = apiKeys w' ->
       fst (validateApiKey apiKey later) = Ok (Some record) ->
       userId (key record) <> owner)).
Proof.
  intros w'. subst w'. unfold deleteAllUserApiKeys, try_catch. rewrite deleteMany_result.
  destruct (hd false (faults w)); simpl; [done |].
  split; [done |]. intros _. split; [done |].
  assert (forall k, k ∈ List.filter (fun k => negb (String.eqb (userId k) owner)) (apiKeys w)
                    <-> k ∈ apiKeys w /\ userId k <> owner) as Hleft.
  { intros k. rewrite in_filter, negb_true_iff, String.eqb_neq. done. }
  split; [exact Hleft |]. split.
  - intros later Hkeys Hf. unfold listUserApiKeys, try_catch, bind.
    rewrite findMany_result, Hf, Hkeys. simpl. by rewrite filter_twice.
  - intros apiKey record later Hkeys. rewrite validateApiKey_result. simpl.
    intros [= Hv]. apply validation_sound in Hv as (_ & _ & Hfind & _).
    apply findFirst_active_sound in Hfind as (Hin & _). rewrite Hkeys in Hin.
    by apply Hleft in Hin as [_ Hne].
Qed.

(** ** The handlers of the API key routes *)

Lemma createApiKey_row (w : World) (owner_id : string) (name : option string)
    (expires : option Z) (owner : User) :
  healthy w -> user_by_id w owner_id = Some owner -> isActive owner = true ->
  exists apiKey plaintext w1,
    createApiKey owner_id name expires w = (Ok (apiKey, plaintext), w1) /\
    validateApiKeyFormat plaintext = true /\
    apiKey = mkApiKey (key_id apiKey) owner_id name (hashApiKey plaintext) (clock w) None expires.
Proof.
  intros Hh Hu Hact. unfold createApiKey, try_catch. unfold bind at 1.
  unfold db_user_findUnique. monad. rewrite (healthy_hd w Hh).
  change (user_by_id (after _ w) owner_id) with (user_by_id w owner_id). rewrite Hu, Hact.
  cbn [negb].
  destruct (extractUsername_shape (email owner)) as [Halpha Hlen].
  destruct (generateApiKey_format (extractUsername (email owner))
              (after (DbUserFindUnique owner_id) w) Halpha Hlen) as (plaintext & -> & Hfmt).
  unfold db_apiKey_create. monad. world_simpl. unfold healthy in Hh. rewrite Hh. cbn [tail hd].
  eexists _, plaintext, _. split; [reflexivity |]. done.
Qed.

Lemma createApiKey_refuses (w : World) (owner_id : string) (name : option string)
    (expires : option Z) :
  healthy w ->
  (user_by_id w owner_id = None ->
   createApiKey owner_id name expires w
   = (Throw "User not found", after (DbUserFindUnique owner_id) w)) /\
  (forall owner, user_by_id w owner_id = Some owner -> isActive owner = false ->
   createApiKey owner_id name expires w
   = (Throw "User account is disabled", after (DbUserFindUnique owner_id) w)).
Proof.
  intros Hh. split.
  - intros Hu. unfold createApiKey, try_catch. unfold bind at 1.
    unfold db_user_findUnique. monad. rewrite (healthy_hd w Hh).
    change (user_by_id (after _ w) owner_id) with (user_by_id w owner_id). by rewrite Hu.
  - intros owner Hu Hact. unfold createApiKey, try_catch. unfold bind at 1.
    unfold db_user_findUnique. monad. rewrite (healthy_hd w Hh).
    change (user_by_id (after _ w) owner_id) with (user_by_id w owner_id).
    by rewrite Hu, Hact.
Qed.

(** X19. With the store in reach, [createApiKeyHandler] answers by the row of the
    caller in the user table. For an active user: 201 with a plaintext of the
    key format and, as fingerprint, the last six characters of the SHA-256 of
    that plaintext. For a disabled account: ACCOUNT_DISABLED. For a user
    whose row is gone: INTERNAL_ERROR. In the last two cases no key is
    stored. *)
Theorem createApiKeyHandler_outcomes (principal : User) (name : option string)
    (expires : option Z) (w : World) :
  healthy w ->
  let run := Handlers.createApiKeyHandler principal name expires w in
  match user_by_id w (user_id principal) with
  | Some owner =>
      if isActive owner then
        exists body,
          fst run = Ok (Handlers.Json 201 body false) /\
          validateApiKeyFormat (Handlers.created_plaintext body) = true /\
          Handlers.created_keyFingerprint body
          = slice_last 6 (sha256_hex (Handlers.created_plaintext body)) /\
          String.length (Handlers.created_keyFingerprint body) = 6%nat /\
          Handlers.created_name body = name /\
          Handlers.created_expiresAt body = expires /\
          Handlers.created_createdAt body = clock w
      else fst run = Ok (Handlers.Error Handlers.ACCOUNT_DISABLED) /\
           apiKeys (snd run) = apiKeys w
  | None => fst run = Ok (Handlers.Error Handlers.INTERNAL_ERROR) /\
            apiKeys (snd run) = apiKeys w
  end.
Proof.
  intros Hh run. subst run. unfold Handlers.createApiKeyHandler, try_catch.
  destruct (user_by_id w (user_id principal)) as [owner |] eqn:Eu.
  - destruct (isActive owner) eqn:Ea.
    + destruct (createApiKey_row w (user_id principal) name expires owner Hh Eu Ea)
        as (apiKey & plaintext & w1 & Ec & Hfmt & Hrow).
      unfold bind. rewrite Ec. simpl. eexists. split; [reflexivity |]. simpl.
      rewrite Hrow. simpl. repeat split; try done.
      apply slice_last_length. unfold hashApiKey.
      rewrite (proj1 (sha256_hex_shape plaintext)). lia.
    + destruct (createApiKey_refuses w (user_id principal) name expires Hh) as [_ Hr].
      unfold bind. rewrite (Hr owner Eu Ea). by vm_compute.
  - destruct (createApiKey_refuses w (user_id principal) name expires Hh) as [Hr _].
    unfold bind. rewrite (Hr Eu). by vm_compute.
Qed.

(** X20. With the store in reach, [deleteApiKeyHandler] answers 200 with the
    identifier when the caller owns a row with it, and API_KEY_NOT_FOUND,
    with the table unchanged, when no row has the identifier or the row
    belongs to somebody else. *)
Theorem deleteApiKeyHandler_outcomes (principal : User) (apiKeyId : string) (w : World) :
  hd false (faults w) = false ->
  let run := Handlers.deleteApiKeyHandler principal apiKeyId w in
  ((exists k, k ∈ apiKeys w /\ key_id k = apiKeyId /\ userId k = user_id principal) ->
   fst run = Ok (Handlers.Json 200 apiKeyId false) /\
   forall k, k ∈ apiKeys (snd run) -> key_id k <> apiKeyId \/ userId k <> user_id principal) /\
  ((forall k, k ∈ apiKeys w -> key_id k <> apiKeyId \/ userId k <> user_id principal) ->
   fst run = Ok (Handlers.Error Handlers.API_KEY_NOT_FOUND) /\
   apiKeys (snd run) = apiKeys w).
Proof.
  intros Hf run. subst run. unfold Handlers.deleteApiKeyHandler, try_catch, bind.
  rewrite deleteApiKey_result, Hf. cbv zeta.
  set (mine := fun k => String.eqb (key_id k) apiKeyId
                        && String.eqb (userId k) (user_id principal)).
  destruct (existsb mine (apiKeys w)) eqn:Eex.
  - split.
    + intros _. split; [done |]. simpl. intros k Hk. apply in_filter in Hk as [_ Hk].
      apply negb_true_iff in Hk. unfold mine in Hk.
      rewrite andb_false_iff, !String.eqb_neq in Hk. done.
    + intros Hnone. apply existsb_exists in Eex as (k & Hin & Hk).
      apply mine_true in Hk as [Hid Hown]. apply list_elem_of_In in Hin.
      destruct (Hnone k Hin); done.
  - split.
    + intros (k & Hin & Hid & Hown).
      assert (existsb mine (apiKeys w) = true) as Hex.
      { apply existsb_exists. exists k. split; [by apply list_elem_of_In | by apply mine_true]. }
      congruence.
    + intros _. by vm_compute.
Qed.

(** ** Cloudflare ranges: the arithmetic of the IPv4 test *)

Lemma ToUint32_range (x : number) : 0 <= ToUint32 x < 2 ^ 32.
Proof. destruct x as [| z]; simpl; [lia | apply Z.mod_pos_bound; lia]. Qed.

Lemma ToInt32_of_uint (n : Z) :
  0 <= n < 2 ^ 32 -> ToInt32 (Int n) = if n <? 2 ^ 31 then n else n - 2 ^ 32.
Proof. intros Hn. unfold ToInt32, ToUint32. by rewrite Z.mod_small. Qed.

Lemma ToInt32_congruent (z : Z) : ToInt32 (Int z) mod 2 ^ 32 = z mod 2 ^ 32.
Proof.
  unfold ToInt32, ToUint32. pose proof (Z.mod_pos_bound z (2 ^ 32) ltac:(lia)) as Hr.
  destruct (z mod 2 ^ 32 <? 2 ^ 31).
  - by rewrite Z.mod_mod.
  - replace (z mod 2 ^ 32 - 2 ^ 32) with (z mod 2 ^ 32 + (-1) * 2 ^ 32) by lia.
    by rewrite Z.mod_add, Z.mod_mod.
Qed.

Lemma land_clears_low_bits (x k : Z) : 0 <= k -> Z.land x (- 2 ^ k) = x / 2 ^ k * 2 ^ k.
Proof.
  intros Hk. replace (- 2 ^ k) with (Z.lnot (Z.ones k)).
  - rewrite <- Z.ldiff_land, Z.ldiff_ones_r, Z.shiftl_mul_pow2, Z.shiftr_div_pow2 by done.
    done.
  - rewrite Z.ones_equiv. unfold Z.lnot. lia.
Qed.

Lemma signed_blocks (n m k : Z) :
  0 <= n < 2 ^ 32 -> 0 <= m < 2 ^ 32 -> 0 <= k <= 31 ->
  ToInt32 (Int n) / 2 ^ k = ToInt32 (Int m) / 2 ^ k <-> n / 2 ^ k = m / 2 ^ k.
Proof.
  intros Hn Hm Hk. rewrite !ToInt32_of_uint by done.
  assert (0 < 2 ^ k) as Hpos by (apply Z.pow_pos_nonneg; lia).
  assert (2 ^ 32 = 2 ^ (32 - k) * 2 ^ k) as Hsplit
    by (rewrite <- Z.pow_add_r by lia; f_equal; lia).
  assert (2 ^ 31 = 2 ^ (31 - k) * 2 ^ k) as Hhalf
    by (rewrite <- Z.pow_add_r by lia; f_equal; lia).
  assert (2 ^ (32 - k) = 2 * 2 ^ (31 - k)) as Hdouble.
  { replace (32 - k) with (1 + (31 - k)) by lia. rewrite Z.pow_add_r by lia. done. }
  assert (0 < 2 ^ (31 - k)) as Hpos' by (apply Z.pow_pos_nonneg; lia).
  assert (forall x, (x - 2 ^ 32) / 2 ^ k = x / 2 ^ k - 2 ^ (32 - k)) as Hshift.
  { intros x. rewrite Hsplit at 1.
    replace (x - 2 ^ (32 - k) * 2 ^ k) with (x + (- 2 ^ (32 - k)) * 2 ^ k) by lia.
    rewrite Z.div_add by lia. lia. }
  assert (forall x, 0 <= x < 2 ^ 32 -> 0 <= x / 2 ^ k < 2 ^ (32 - k)) as Hq.
  { intros x Hx. split; [apply Z.div_pos; lia |].
    apply Z.div_lt_upper_bound; [done |]. rewrite Z.mul_comm, <- Hsplit. lia. }
  assert (forall x, 0 <= x -> x < 2 ^ 31 -> x / 2 ^ k < 2 ^ (31 - k)) as Hlow.
  { intros x Hx Hlt. apply Z.div_lt_upper_bound; [done |]. rewrite Z.mul_comm, <- Hhalf. lia. }
  assert (forall x, 2 ^ 31 <= x -> 2 ^ (31 - k) <= x / 2 ^ k) as Hhigh.
  { intros x Hx. apply Z.div_le_lower_bound; [done |]. rewrite Z.mul_comm, <- Hhalf. lia. }
  pose proof (Hq n Hn). pose proof (Hq m Hm).
  destruct (n <? 2 ^ 31) eqn:En; destruct (m <? 2 ^ 31) eqn:Em;
    rewrite ?Hshift;
    try apply Z.ltb_lt in En; try apply Z.ltb_ge in En;
    try apply Z.ltb_lt in Em; try apply Z.ltb_ge in Em.
  - done.
  - pose proof (Hlow n ltac:(lia) En). pose proof (Hhigh m Em). lia.
  - pose proof (Hlow m ltac:(lia) Em). pose proof (Hhigh n En). lia.
  - lia.
Qed.

Lemma free_bits_range (prefix : number) : 0 <= free_bits prefix <= 31.
Proof.
  unfold free_bits. pose proof (Z.mod_pos_bound (ToUint32 (sub (Int 32) prefix)) 32). lia.
Qed.

Lemma mask_value (prefix : number) :
  ushr0 (shl (Int 4294967295) (sub (Int 32) prefix)) = Int (2 ^ 32 - 2 ^ free_bits prefix).
Proof.
  unfold ushr0, shl. fold (free_bits prefix). f_equal.
  pose proof (free_bits_range prefix) as Hk.
  assert (ToInt32 (Int 4294967295) = -1) as -> by reflexivity.
  change (ToUint32 (Int ?z)) with (z mod 2 ^ 32). rewrite ToInt32_congruent.
  assert (0 < 2 ^ free_bits prefix <= 2 ^ 31) as Hp.
  { split; [apply Z.pow_pos_nonneg; lia | apply Z.pow_le_mono_r; lia]. }
  replace (-1 * 2 ^ free_bits prefix) with (2 ^ 32 - 2 ^ free_bits prefix + (-1) * 2 ^ 32)
    by lia.
  rewrite Z.mod_add by lia. apply Z.mod_small. lia.
Qed.

Lemma ipv4InRange_blocks (ip rangeIp : string) (prefix : number) (n m : Z) :
  ipv4ToNumber ip = Some (Int n) -> ipv4ToNumber rangeIp = Some (Int m) ->
  0 <= n < 2 ^ 32 -> 0 <= m < 2 ^ 32 ->
  ipv4InRange ip rangeIp prefix
  = Some (n / 2 ^ free_bits prefix =? m / 2 ^ free_bits prefix).
Proof.
  intros Hip Hrange Hn Hm. unfold ipv4InRange. rewrite Hip, Hrange. cbv zeta.
  rewrite mask_value.
  pose proof (free_bits_range prefix) as Hk. set (k := free_bits prefix) in *.
  assert (0 < 2 ^ k <= 2 ^ 31) as Hp.
  { split; [apply Z.pow_pos_nonneg; lia | apply Z.pow_le_mono_r; lia]. }
  unfold band, strict_eq. f_equal.
  assert (ToInt32 (Int (2 ^ 32 - 2 ^ k)) = - 2 ^ k) as ->.
  { rewrite ToInt32_of_uint by lia.
    destruct (2 ^ 32 - 2 ^ k <? 2 ^ 31) eqn:E; [apply Z.ltb_lt in E |]; lia. }
  rewrite !land_clears_low_bits by lia.
  apply eq_true_iff_eq. rewrite !Z.eqb_eq, <- (signed_blocks n m k) by lia.
  split; [| by intros ->]. intros H. by apply Z.mul_cancel_r in H; [| lia].
Qed.

Lemma ipv4ToNumber_range (ip : string) (r : number) :
  ipv4ToNumber ip = Some r -> exists n, r = Int n /\ 0 <= n < 2 ^ 32.
Proof.
  unfold ipv4ToNumber. destruct (fold_left _ _ _) as [acc |]; [| done].
  intros [= <-]. exists (ToUint32 acc). split; [done | apply ToUint32_range].
Qed.

(** X21. For a prefix length between 1 and 32, [ipv4InRange] tells whether the
    two addresses agree on their first [prefix] bits; so an address in a
    block is in every block of the same base with a shorter prefix. *)
Theorem ipv4InRange_compares_the_prefix_bits (ip rangeIp : string) (n m p : Z) :
  ipv4ToNumber ip = Some (Int n) -> ipv4ToNumber rangeIp = Some (Int m) ->
  1 <= p <= 32 ->
  ipv4InRange ip rangeIp (Int p) = Some (n / 2 ^ (32 - p) =? m / 2 ^ (32 - p)) /\
  forall q, 1 <= q <= p ->
            ipv4InRange ip rangeIp (Int p) = Some true ->
            ipv4InRange ip rangeIp (Int q) = Some true.
Proof.
  intros Hip Hrange Hp.
  destruct (ipv4ToNumber_range _ _ Hip) as (n' & [= <-] & Hn).
  destruct (ipv4ToNumber_range _ _ Hrange) as (m' & [= <-] & Hm).
  assert (forall q, 1 <= q <= 32 -> free_bits (Int q) = 32 - q) as Hfree.
  { intros q Hq. unfold free_bits, sub, ToUint32.
    rewrite (Z.mod_small (32 - q)) by lia. apply Z.mod_small. lia. }
  rewrite !(ipv4InRange_blocks ip rangeIp _ n m Hip Hrange Hn Hm), Hfree by lia.
  split; [done |]. intros q Hq.
  rewrite !(ipv4InRange_blocks ip rangeIp _ n m Hip Hrange Hn Hm), Hfree by lia.
  intros [= H]. apply Z.eqb_eq in H. f_equal. apply Z.eqb_eq.
  replace (32 - q) with ((32 - p) + (p - q)) by lia.
  rewrite Z.pow_add_r by lia.
  rewrite <- !Z.div_div by (try apply Z.pow_pos_nonneg; try apply Z.pow_nonzero; lia).
  by rewrite H.
Qed.


(** ** Cloudflare ranges: reading dotted quads and CIDR blocks *)

Lemma prefix_single (c x : ascii) (rest : string) :
  String.prefix (String c "") (String x rest) = if ascii_dec c x then true else false.
Proof. cbn [String.prefix]. destruct (ascii_dec c x); [by destruct rest | done]. Qed.

Lemma split_go_piece (c : ascii) (piece : list ascii) :
  forall (current : list ascii) (rest : string),
    c ∉ piece ->
    split_go (String c "") current 0 (str piece +:+ rest)
    = split_go (String c "") (rev piece ++ current) 0 rest.
Proof.
  induction piece as [| x p IH]; intros current rest Hc.
  - done.
  - change (str (x :: p) +:+ rest) with (String x (str p +:+ rest)).
    cbn [split_go]. rewrite prefix_single.
    destruct (ascii_dec c x) as [-> | Hne]; [exfalso; apply Hc; constructor |].
    rewrite IH by (intros H; apply Hc; by constructor).
    simpl. by rewrite <- app_assoc.
Qed.

Lemma split_piece (c : ascii) (s : string) : c ∉ chars s -> split (String c "") s = [s].
Proof.
  intros Hc. unfold split.
  assert (s = str (chars s) +:+ "") as Hs.
  { rewrite str_chars. clear. induction s as [| x s IH]; [done |].
    change (String x s +:+ "") with (String x (s +:+ "")). by rewrite <- IH. }
  rewrite Hs at 1. rewrite split_go_piece by done. simpl.
  by rewrite app_nil_r, rev_involutive, str_chars.
Qed.

Lemma split_cons (c : ascii) (a rest : string) :
  c ∉ chars a ->
  split (String c "") (a +:+ String c rest) = a :: split (String c "") rest.
Proof.
  intros Hc. unfold split. rewrite <- (str_chars a) at 1.
  rewrite split_go_piece by done. cbn [split_go]. rewrite prefix_single.
  destruct (ascii_dec c c); [| done]. simpl.
  by rewrite app_nil_r, rev_involutive, str_chars.
Qed.

Lemma str_includes_single (c : ascii) (s : string) :
  c ∉ chars s -> str_includes (String c "") s = false.
Proof.
  induction s as [| x s IH]; intros Hc; [done |].
  cbn [str_includes]. rewrite prefix_single.
  destruct (ascii_dec c x) as [-> | Hne]; [exfalso; apply Hc; constructor |].
  simpl. apply IH. intros H. apply Hc. by constructor.
Qed.

Lemma is_digit_code (c : ascii) : is_digit c = true -> 48 <= code c <= 57.
Proof.
  unfold is_digit, in_range. rewrite andb_true_iff, !Z.leb_le.
  change (code "0") with 48. change (code "9") with 57. done.
Qed.

Lemma digit_is_not (c x : ascii) :
  is_digit x = true -> (code c < 48 \/ 57 < code c) -> c <> x.
Proof. intros Hx Hc ->. apply is_digit_code in Hx. lia. Qed.

Lemma digits_exclude (c : ascii) (s : string) :
  forallb is_digit (chars s) = true -> (code c < 48 \/ 57 < code c) -> c ∉ chars s.
Proof.
  intros Hd Hc Hin. rewrite forallb_forall in Hd.
  apply list_elem_of_In in Hin. specialize (Hd c Hin).
  by apply (digit_is_not c c Hd Hc).
Qed.

Lemma take_while_all {A} (p : A -> bool) (l : list A) :
  forallb p l = true -> take_while p l = l.
Proof.
  induction l as [| x l IH]; simpl; [done |].
  destruct (p x); simpl; [intros H; by rewrite IH | done].
Qed.

Lemma decimal_bounds (digits : list ascii) :
  forallb is_digit digits = true -> 0 <= decimal digits.
Proof.
  unfold decimal. intros Hd.
  assert (forall acc, 0 <= acc ->
            0 <= fold_left (fun acc c => 10 * acc + (code c - 48)) digits acc) as H.
  { induction digits as [| c l IH]; intros acc Hacc; simpl; [done |].
    simpl in Hd. apply andb_true_iff in Hd as [Hc Hl]. apply is_digit_code in Hc.
    apply IH; [done | lia]. }
  by apply H.
Qed.

Lemma parseInt10_digits (s : string) :
  (0 < List.length (chars s) <= 15)%nat -> forallb is_digit (chars s) = true ->
  parseInt10 s = Some (Int (decimal (chars s))).
Proof.
  intros Hlen Hd. unfold parseInt10.
  destruct (chars s) as [| c l] eqn:Es; [simpl in Hlen; lia |].
  simpl in Hd. apply andb_true_iff in Hd as [Hc Hl].
  pose proof (is_digit_code c Hc) as Hcode.
  assert (is_whitespace c = false) as Hws.
  { unfold is_whitespace. repeat (apply orb_false_iff; split); apply Z.eqb_neq; lia. }
  cbn [drop_while]. rewrite Hws. cbv zeta.
  assert (Ascii.eqb c "-" = false) as ->.
  { apply Ascii.eqb_neq. apply not_eq_sym, (digit_is_not "-" c Hc). left. by vm_compute. }
  assert (Ascii.eqb c "+" = false) as ->.
  { apply Ascii.eqb_neq. apply not_eq_sym, (digit_is_not "+" c Hc). left. by vm_compute. }
  cbn [snd fst take_while]. rewrite Hc, (take_while_all _ l Hl).
  assert ((List.length (c :: l) <=? 15)%nat = true) as -> by (apply Nat.leb_le; lia).
  f_equal. f_equal. lia.
Qed.

Lemma octet_spec (s : string) :
  octet s = true ->
  (0 < List.length (chars s) <= 15)%nat /\ forallb is_digit (chars s) = true /\
  0 <= decimal (chars s) < 256.
Proof.
  unfold octet. rewrite !andb_true_iff, Nat.ltb_lt, Nat.leb_le, Z.ltb_lt.
  intros [[[H1 H2] H3] H4]. repeat split; try done. by apply decimal_bounds.
Qed.

Lemma shift_in (x v : Z) :
  0 <= x < 2 ^ 24 -> 0 <= v < 256 ->
  ushr0 (add (shl (Int x) (Int 8)) (Int v)) = Int (x * 256 + v) /\
  (x < 2 ^ 23 -> add (shl (Int x) (Int 8)) (Int v) = Int (x * 256 + v)).
Proof.
  intros Hx Hv. unfold ushr0, add, shl.
  change (ToUint32 (Int 8) mod 32) with 8. change (2 ^ 8) with 256.
  rewrite (ToInt32_of_uint x) by lia.
  rewrite (proj2 (Z.ltb_lt x (2 ^ 31))) by lia. split.
  - f_equal. change (ToUint32 (Int ?z)) with (z mod 2 ^ 32).
    rewrite Z.add_mod, ToInt32_congruent, <- Z.add_mod by lia. apply Z.mod_small. lia.
  - intros Hsmall. rewrite (ToInt32_of_uint (x * 256)) by lia.
    by rewrite (proj2 (Z.ltb_lt (x * 256) (2 ^ 31))) by lia.
Qed.

Lemma ipv4ToNumber_dotted (a b c d : string) :
  octet a = true -> octet b = true -> octet c = true -> octet d = true ->
  ipv4ToNumber (dotted a b c d) = Some (Int (quad_value a b c d)) /\
  0 <= quad_value a b c d < 2 ^ 32.
Proof.
  intros Ha Hb Hc Hd.
  apply octet_spec in Ha as (La & Da & Va). apply octet_spec in Hb as (Lb & Db & Vb).
  apply octet_spec in Hc as (Lc & Dc & Vc). apply octet_spec in Hd as (Ld & Dd & Vd).
  assert (forall s, forallb is_digit (chars s) = true -> "."%char ∉ chars s) as Hdot.
  { intros s Hs. apply digits_exclude; [done |]. left. by vm_compute. }
  unfold quad_value. split; [| lia]. unfold ipv4ToNumber, dotted.
  repeat match goal with
         | |- context [String.append "." ?x] => change ("." +:+ x) with (String "." x)
         end.
  rewrite !split_cons, split_piece by by apply Hdot.
  cbn [fold_left]. rewrite !parseInt10_digits by done.
  destruct (shift_in 0 (decimal (chars a)) ltac:(lia) Va) as [_ ->]; [| lia].
  destruct (shift_in (0 * 256 + decimal (chars a)) (decimal (chars b)) ltac:(lia) Vb)
    as [_ ->]; [| lia].
  destruct (shift_in ((0 * 256 + decimal (chars a)) * 256 + decimal (chars b))
              (decimal (chars c)) ltac:(lia) Vc) as [_ ->]; [| lia].
  destruct (shift_in (((0 * 256 + decimal (chars a)) * 256 + decimal (chars b)) * 256
                      + decimal (chars c)) (decimal (chars d)) ltac:(lia) Vd) as [-> _].
  f_equal. f_equal. lia.
Qed.

(** X23. [ipv4ToNumber] reads a dotted quad as the 32-bit number whose bytes are
    the four octets, the first one the most significant. *)
Theorem ipv4ToNumber_reads_dotted_quads (ip : string) (n : Z) :
  dotted_quad ip n -> ipv4ToNumber ip = Some (Int n) /\ 0 <= n < 2 ^ 32.
Proof. intros [a b c d Ha Hb Hc Hd]. by apply ipv4ToNumber_dotted. Qed.

(** X22. With the prefix length 0, as with 32 or with [NaN], the shift leaves
    all 32 bits of the mask set: [ipv4InRange] holds for the base address
    alone. So [ipInRange] finds an IPv4 address in a block written with [/0],
    or without a prefix length, only when it is the base address. *)
Theorem ipv4InRange_without_prefix_is_equality (ip rangeIp : string) (n m : Z) :
  ipv4ToNumber ip = Some (Int n) -> ipv4ToNumber rangeIp = Some (Int m) ->
  (forall prefix,
      prefix = Int 0 \/ prefix = NaN \/ prefix = Int 32 ->
      ipv4InRange ip rangeIp prefix = Some (n =? m)) /\
  (str_includes ":" ip = false -> "/"%char ∉ chars rangeIp ->
   ipInRange ip rangeIp = Some (n =? m) /\
   ipInRange ip (rangeIp +:+ "/0") = Some (n =? m)).
Proof.
  intros Hip Hrange.
  destruct (ipv4ToNumber_range _ _ Hip) as (n' & [= <-] & Hn).
  destruct (ipv4ToNumber_range _ _ Hrange) as (m' & [= <-] & Hm).
  assert (forall prefix,
             prefix = Int 0 \/ prefix = NaN \/ prefix = Int 32 ->
             ipv4InRange ip rangeIp prefix = Some (n =? m)) as Hexact.
  { intros prefix Hprefix.
    rewrite (ipv4InRange_blocks ip rangeIp _ n m Hip Hrange Hn Hm).
    assert (free_bits prefix = 0) as -> by (by destruct Hprefix as [-> | [-> | ->]]).
    by rewrite !Z.div_1_r. }
  split; [exact Hexact |]. intros Hfamily Hslash. unfold ipInRange. split.
  - rewrite split_piece by done. cbn [lookup list_lookup default].
    change (parseInt10 "undefined") with (Some NaN). rewrite Hfamily.
    apply Hexact. auto.
  - change ("/0") with (String "/" "0"). rewrite split_cons by done.
    assert (split "/" "0" = ["0"]) as -> by reflexivity.
    cbn [lookup list_lookup default].
    change (parseInt10 "0") with (Some (Int 0)). rewrite Hfamily.
    apply Hexact. auto.
Qed.

Lemma free_bits_prefix (q : Z) : 1 <= q <= 32 -> free_bits (Int q) = 32 - q.
Proof.
  intros Hq. unfold free_bits, sub, ToUint32.
  rewrite (Z.mod_small (32 - q)) by lia. apply Z.mod_small. lia.
Qed.

Lemma dotted_chars (a b c d : string) (x : ascii) :
  octet a = true -> octet b = true -> octet c = true -> octet d = true ->
  x ∈ chars (dotted a b c d) -> is_digit x = true \/ x = "."%char.
Proof.
  intros Ha Hb Hc Hd.
  apply octet_spec in Ha as (_ & Da & _). apply octet_spec in Hb as (_ & Db & _).
  apply octet_spec in Hc as (_ & Dc & _). apply octet_spec in Hd as (_ & Dd & _).
  rewrite forallb_forall in Da, Db, Dc, Dd.
  unfold dotted. rewrite !chars_app. change (chars ".") with ["."%char].
  rewrite !elem_of_app, !list_elem_of_singleton, !list_elem_of_In. intuition.
Qed.

Lemma dotted_quad_excludes (ip : string) (n : Z) (x : ascii) :
  dotted_quad ip n -> (code x < 46 \/ code x = 47 \/ 57 < code x) -> x ∉ chars ip.
Proof.
  intros [a b c d Ha Hb Hc Hd] Hx Hin.
  destruct (dotted_chars a b c d x Ha Hb Hc Hd Hin) as [Hdig | ->].
  - apply is_digit_code in Hdig. lia.
  - change (code ".") with 46 in Hx. lia.
Qed.

Lemma ipInRange_cidr4 (ip cidr : string) (n base prefix : Z) :
  dotted_quad ip n -> cidr4 cidr base prefix ->
  ipInRange ip cidr = Some (n / 2 ^ (32 - prefix) =? base / 2 ^ (32 - prefix)).
Proof.
  intros Hip Hcidr. destruct Hcidr as [quad digits base Hquad Hlen Hdig Hrange].
  unfold ipInRange. change ("/" +:+ digits) with (String "/" digits).
  assert ("/"%char ∉ chars quad) as Hslash.
  { apply (dotted_quad_excludes quad base); [done |]. right. left. by vm_compute. }
  assert ("/"%char ∉ chars digits) as Hslash'.
  { apply digits_exclude; [done |]. left. by vm_compute. }
  rewrite split_cons, split_piece by done. cbn [lookup list_lookup default].
  simpl. rewrite parseInt10_digits by done.
  rewrite str_includes_single.
  2:{ apply (dotted_quad_excludes ip n); [done |]. right. right. by vm_compute. }
  pose proof Hip as Hip'. pose proof Hquad as Hquad'.
  destruct Hip' as [a b c d Ha Hb Hc Hd]. destruct Hquad' as [a' b' c' d' Ha' Hb' Hc' Hd'].
  destruct (ipv4ToNumber_dotted a b c d Ha Hb Hc Hd) as [En Hn].
  destruct (ipv4ToNumber_dotted a' b' c' d' Ha' Hb' Hc' Hd') as [Em Hm].
  rewrite (ipv4InRange_blocks _ _ _ _ _ En Em Hn Hm), free_bits_prefix by done.
  done.
Qed.

Lemma isCloudflareIp_well_formed (ranges : CloudflareIpRanges) (ip : string) (n : Z) :
  dotted_quad ip n ->
  Forall (fun range => exists base prefix, cidr4 range base prefix) (ipv4 ranges) ->
  exists answer,
    isCloudflareIp (Some ranges) ip = Some answer /\
    (answer = true <-> in_a_block (ipv4 ranges) n).
Proof.
  intros Hip Hall. unfold isCloudflareIp, in_a_block. cbv zeta.
  rewrite str_includes_single.
  2:{ apply (dotted_quad_excludes ip n); [done |]. right. right. by vm_compute. }
  induction Hall as [| range rest (base & prefix & Hc) _ IH].
  - exists false. split; [done |]. split; [done |].
    intros (r & _ & _ & Hin & _). by apply elem_of_nil in Hin.
  - cbn [in_some_range]. rewrite (ipInRange_cidr4 ip range n base prefix Hip Hc).
    destruct (n / 2 ^ (32 - prefix) =? base / 2 ^ (32 - prefix)) eqn:E.
    + exists true. split; [done |]. split; [| done]. intros _.
      exists range, base, prefix. apply Z.eqb_eq in E. split; [constructor | done].
    + destruct IH as (answer & Ea & Hiff). exists answer. split; [done |].
      rewrite Hiff. split.
      * intros (r & b & p & Hin & Hr & Heq). exists r, b, p. split; [by constructor | done].
      * intros (r & b & p & Hin & Hr & Heq).
        apply elem_of_cons in Hin as [-> | Hin]; [| by exists r, b, p].
        pose proof (ipInRange_cidr4 ip range n b p Hip Hr) as E'.
        rewrite (ipInRange_cidr4 ip range n base prefix Hip Hc), E in E'.
        apply Z.eqb_eq in Heq. congruence.
Qed.


(** ** Cloudflare ranges: the IPv6 test *)

Lemma land_narrower (x y wide narrow : Z) :
  Z.land wide narrow = narrow -> Z.land x wide = Z.land y wide ->
  Z.land x narrow = Z.land y narrow.
Proof. intros <- H. by rewrite !Z.land_assoc, H. Qed.

Lemma nibble_mask (r : Z) :
  1 <= r <= 3 ->
  band (shl (Int 15) (sub (Int 4) (Int r))) (Int 15)
  = Int (if r =? 1 then 8 else if r =? 2 then 12 else 14).
Proof.
  intros Hr. assert (r = 1 \/ r = 2 \/ r = 3) as [-> | [-> | ->]] by lia; reflexivity.
Qed.

Lemma masked_nest (x y : number) (wide narrow : Z) :
  1 <= narrow <= wide -> wide <= 3 ->
  strict_eq (band x (band (shl (Int 15) (sub (Int 4) (Int wide))) (Int 15)))
            (band y (band (shl (Int 15) (sub (Int 4) (Int wide))) (Int 15))) = true ->
  strict_eq (band x (band (shl (Int 15) (sub (Int 4) (Int narrow))) (Int 15)))
            (band y (band (shl (Int 15) (sub (Int 4) (Int narrow))) (Int 15))) = true.
Proof.
  intros Hn Hw. rewrite !nibble_mask by lia. unfold band, strict_eq.
  rewrite !Z.eqb_eq.
  assert (forall v, 0 <= v < 16 -> ToInt32 (Int v) = v) as Hsmall.
  { intros v Hv. unfold ToInt32, ToUint32. rewrite Z.mod_small by lia.
    destruct (v <? 2 ^ 31) eqn:E; [done | apply Z.ltb_ge in E; lia]. }
  assert (narrow = 1 \/ narrow = 2 \/ narrow = 3) as Hcase by lia.
  assert (wide = 1 \/ wide = 2 \/ wide = 3) as Hcase' by lia.
  destruct Hcase as [-> | [-> | ->]]; destruct Hcase' as [-> | [-> | ->]];
    try lia; try done; simpl; rewrite ?Hsmall by lia; by apply land_narrower.
Qed.

Lemma take_prefix_shorter {A} (l1 l2 : list A) (n m : nat) :
  (n <= m)%nat -> take m l1 = take m l2 -> take n l1 = take n l2.
Proof.
  intros Hnm H. rewrite <- (Nat.min_l n m Hnm), <- !take_take. by rewrite H.
Qed.

Lemma nth_of_equal_prefix {A} (l1 l2 : list A) (i m : nat) (d : A) :
  (i < m)%nat -> take m l1 = take m l2 -> nth i l1 d = nth i l2 d.
Proof.
  intros Him H. rewrite !nth_lookup.
  rewrite <- (lookup_take_lt l1 m i Him), <- (lookup_take_lt l2 m i Him). by rewrite H.
Qed.

(** X25. IPv6 blocks nest as well: an address that [ipv6InRange] finds in a block
    is found in the block of the same base with any shorter prefix. *)
Theorem ipv6InRange_blocks_nest (ip rangeIp : string) (p q : Z) :
  0 <= q <= p ->
  ipv6InRange ip rangeIp (Int p) = Ok true ->
  ipv6InRange ip rangeIp (Int q) = Ok true.
Proof.
  intros Hq. unfold ipv6InRange.
  destruct (normalizeIpv6 ip) as [normalizedIp | e]; [| done].
  destruct (normalizeIpv6 rangeIp) as [normalizedRange | e]; [| done].
  cbv zeta.
  generalize (join "" (map padStart4 (split ":" normalizedIp))).
  generalize (join "" (map padStart4 (split ":" normalizedRange))).
  intros R H. unfold substring_upto, substring_to.
  destruct (String.eqb (str (take (Z.to_nat (p / 4)) (chars H)))
                       (str (take (Z.to_nat (p / 4)) (chars R)))) eqn:Ep; [| done].
  apply String.eqb_eq in Ep. apply (f_equal chars) in Ep. rewrite !chars_str in Ep.
  assert (0 <= q / 4 <= p / 4) as Hk.
  { split; [apply Z.div_pos; lia | apply Z.div_le_mono; lia]. }
  assert (take (Z.to_nat (q / 4)) (chars H) = take (Z.to_nat (q / 4)) (chars R)) as Eq.
  { apply (take_prefix_shorter _ _ _ (Z.to_nat (p / 4))); [lia | done]. }
  rewrite Eq, String.eqb_refl. cbn [negb].
  rewrite !Z.rem_mod_nonneg by lia.
  pose proof (Z.mod_pos_bound p 4 ltac:(lia)) as Hrp.
  pose proof (Z.mod_pos_bound q 4 ltac:(lia)) as Hrq.
  destruct (0 <? q mod 4) eqn:Eq0; [| done]. apply Z.ltb_lt in Eq0.
  unfold char_or_zero.
  rewrite (proj2 (Z.ltb_ge (q / 4) 0)) by lia.
  destruct (Z.eq_dec (q / 4) (p / 4)) as [Esame | Hlt].
  - rewrite Esame.
    assert (q mod 4 <= p mod 4) as Hle.
    { pose proof (Z.div_mod p 4 ltac:(lia)). pose proof (Z.div_mod q 4 ltac:(lia)). lia. }
    rewrite (proj2 (Z.ltb_lt 0 (p mod 4))) by lia.
    rewrite (proj2 (Z.ltb_ge (p / 4) 0)) by lia.
    intros [= Hmask]. f_equal. by apply (masked_nest _ _ (p mod 4)); [lia | lia |].
  - intros _. f_equal.
    rewrite (nth_of_equal_prefix (chars H) (chars R) (Z.to_nat (q / 4)) (Z.to_nat (p / 4)))
      by (try done; lia).
    destruct (parseInt16_char _) as [| v]; unfold band, strict_eq; apply Z.eqb_refl.
Qed.

(** ** The proxy middleware *)

(** X26. Behind the proxy, with well-formed IPv4 ranges loaded and a dotted quad
    in [x-real-ip], [extractCloudflareInfo] decides by that header alone: an
    address outside every block is refused with INVALID_PROXY whatever else
    the request carries; an address inside passes with [cf-connecting-ip] as
    the real address, and is refused without that header. Before the ranges
    are loaded no source is refused, and when the service is not behind the
    proxy nothing is checked and no real address is stored. *)
Theorem extractCloudflareInfo_checks_the_source (ranges : CloudflareIpRanges)
    (req : ProxyRequest) (source : string) (n : Z) :
  truthy (x_real_ip req) = Some source -> dotted_quad source n ->
  Forall (fun range => exists base prefix, cidr4 range base prefix) (ipv4 ranges) ->
  let checked := match truthy (cf_connecting_ip req) with
                 | Some cfConnectingIp =>
                     Pass (Some cfConnectingIp) (truthy (cf_ipcountry req))
                 | None => Refuse MISSING_CLOUDFLARE_HEADERS
                 end in
  (in_a_block (ipv4 ranges) n ->
   extractCloudflareInfo true (Some ranges) req = Some checked) /\
  (~ in_a_block (ipv4 ranges) n ->
   extractCloudflareInfo true (Some ranges) req = Some (Refuse INVALID_PROXY)) /\
  extractCloudflareInfo true None req = Some checked /\
  extractCloudflareInfo false (Some ranges) req = Some (Pass None None).
Proof.
  intros Hsource Hquad Hall checked. subst checked.
  destruct (isCloudflareIp_well_formed ranges source n Hquad Hall) as (answer & Ea & Hiff).
  unfold extractCloudflareInfo, originalIp. rewrite Hsource. cbn [negb]. rewrite Ea.
  split; [| split; [| split]].
  - intros Hin. apply Hiff in Hin as ->. simpl.
    by destruct (truthy (cf_connecting_ip req)).
  - intros Hout. destruct answer; [| done]. exfalso. by apply Hout, Hiff.
  - simpl. by destruct (truthy (cf_connecting_ip req)).
  - done.
Qed.

(** ** Deleting all sessions of a user *)

(** X27. [deleteAllUserSessions] removes what the index of the user names, and
    nothing else: the record of a token that is not in that index is as
    before, whoever its user is, and so are the indexes of the other
    users. *)
Theorem deleteAllUserSessions_removes_indexed_sessions_only (userId : string)
    (w w1 : World) :
  deleteAllUserSessions userId w = (Ok tt, w1) ->
  (forall tokenId, tokenId ∈ indexed w userId -> stored w1 tokenId = None) /\
  (forall tokenId, tokenId ∉ indexed w userId -> stored w1 tokenId = stored w tokenId) /\
  (forall owner, owner <> userId -> indexed w1 owner = indexed w owner).
Proof.
  intros E. split.
  { intros t Ht. apply stored_absent. by apply (deleteAllUserSessions_removes _ _ _ E). }
  revert E. unfold deleteAllUserSessions, try_catch, bind.
  destruct (redis_sMembers (userSessionsKey userId) w) as [[tokens | e] wa] eqn:Em; [| done].
  apply redis_sMembers_inv in Em as (Hr & Hc & Hl). specialize (Hl tokens eq_refl).
  destruct tokens as [| t0 rest]; simpl.
  - unfold ret. intros [= <-]. split.
    + intros t _. by apply stored_frame; [| rewrite Hr].
    + intros owner _. by apply indexed_frame; [| rewrite Hr].
  - destruct (redis_del (sessKey t0 :: map sessKey rest) wa) as [[[] | e] wb] eqn:Ed1; [| done].
    destruct (redis_del [userSessionsKey userId] wb) as [[[] | e] wc] eqn:Ed2; [| done].
    intros [= <-].
    apply redis_del_inv in Ed1 as [Hd1 Hc1]. apply redis_del_inv in Ed2 as [Hd2 Hc2].
    assert (clock wc = clock w) as Hclock by congruence.
    assert (forall k, k <> userSessionsKey userId -> k ∉ map sessKey (t0 :: rest) ->
                      redis wc !! k = redis w !! k) as Hframe.
    { intros k Hk Hnot. rewrite Hd2. simpl. rewrite lookup_delete_ne by done.
      rewrite Hd1. change (sessKey t0 :: map sessKey rest) with (map sessKey (t0 :: rest)).
      rewrite lookup_foldr_delete_not_elem_of by done. by rewrite Hr. }
    split.
    + intros t Ht. apply stored_frame; [done |]. apply Hframe.
      * apply sessKey_not_index.
      * intros Hin. apply list_elem_of_fmap in Hin as (t' & Heq & Hin).
        apply sessKey_inj in Heq. subst t'. apply Ht. apply elem_of_elements.
        by rewrite <- Hl.
    + intros owner Howner. apply indexed_frame; [done |]. apply Hframe.
      * intros H. by apply userSessionsKey_inj in H.
      * intros Hin. apply list_elem_of_fmap in Hin as (t' & Heq & _).
        symmetry in Heq. by apply sessKey_not_index in Heq.
Qed.

(** ** The properties on the example worlds *)

Lemma default_schema : EnvSchema default_config.
Proof. split; reflexivity. Qed.

Lemma demo_worlds_ok :
  store_ok default_config demo_world /\ store_ok default_config demo_created /\
  store_ok default_config demo_twice /\ store_ok default_config demo_keyed.
Proof.
  assert (reachable default_config demo_world) as R0
    by (apply reach_initial; split; reflexivity).
  assert (reachable default_config demo_created) as R1 by (apply reach_call; exact R0).
  assert (reachable default_config demo_twice) as R2 by (apply reach_call; exact R1).
  assert (reachable default_config demo_keyed) as R3 by (apply reach_call; exact R0).
  repeat split; by apply (reachable_store_ok default_config default_schema).
Qed.

Lemma listUserSessions_lists_live_sessions_witness :
  exists l w',
    listUserSessions "u1" demo_twice = (Ok l, w') /\
    l ≡ₚ listed demo_twice "u1" /\
    Sorted more_recent l /\
    NoDup (map tokenId l) /\
    (forall tokenId session,
        tokenId ∈ indexed demo_twice "u1" -> stored demo_twice tokenId = Some session ->
        metadata_of tokenId session ∈ l) /\
    (forall m, m ∈ l -> tokenId m ∈ indexed demo_twice "u1" /\
                        exists session, stored demo_twice (tokenId m) = Some session /\
                                        m = metadata_of (tokenId m) session) /\
    redis w' = redis demo_twice.
Proof.
  apply (listUserSessions_lists_live_sessions default_config demo_twice "u1").
  - apply demo_worlds_ok.
  - reflexivity.
Defined.

Lemma created_session_is_listed_witness :
  exists tokenId w1 l w2,
    createSession default_config "u1" [USER] None demo_world = (Ok tokenId, w1) /\
    String.length tokenId = 64%nat /\
    Forall (fun c => is_lower_hex c = true) (chars tokenId) /\
    listUserSessions "u1" w1 = (Ok l, w2) /\
    metadata_of tokenId demo_session ∈ l.
Proof.
  apply (created_session_is_listed default_config demo_world "u1" [USER] None).
  - apply default_schema.
  - apply demo_worlds_ok.
  - reflexivity.
Defined.

Lemma getSession_answers_unexpired_witness :
  exists r,
    fst (getSession default_config demo_token demo_created) = Ok r /\
    forall session, r = Some session ->
      clock demo_created / 1000 < exp session /\
      exists held, stored demo_created demo_token = Some held /\
        (session = held \/
         session = renew (clock demo_created / 1000) (SESSION_TTL_SECONDS default_config) held).
Proof. apply (getSession_answers_unexpired default_config demo_token demo_created). Defined.

Lemma deleteSession_removes_one_session_witness :
  exists w1,
    deleteSession demo_token demo_twice = (Ok tt, w1) /\
    stored w1 demo_token = None /\
    indexed w1 (uid demo_session) = indexed demo_twice (uid demo_session) ∖ {[demo_token]} /\
    (forall other, other <> demo_token -> stored w1 other = stored demo_twice other) /\
    (forall owner, owner <> uid demo_session -> indexed w1 owner = indexed demo_twice owner).
Proof.
  apply (deleteSession_removes_one_session default_config demo_twice demo_token demo_session).
  - apply demo_worlds_ok.
  - reflexivity.
  - vm_compute. reflexivity.
Defined.

Lemma deleteSession_of_unknown_token_witness :
  exists w1,
    deleteSession demo_token_2 demo_created = (Ok tt, w1) /\
    (forall other, stored w1 other = stored demo_created other) /\
    (forall owner, indexed w1 owner = indexed demo_created owner).
Proof.
  apply (deleteSession_of_unknown_token default_config demo_created demo_token_2).
  - apply demo_worlds_ok.
  - reflexivity.
  - vm_compute. reflexivity.
Defined.

Lemma requireSession_is_cookie_only_witness :
  requireSession default_config demo_bearer_request demo_keyed
  = (Ok (Respond AUTHENTICATION_REQUIRED false), demo_keyed) /\
  fst (requireAuth default_config demo_bearer_request demo_keyed)
  = Ok (Next (mkAttached (Some demo_user) None None (Some demo_record))).
Proof.
  split.
  - apply (requireSession_is_cookie_only default_config demo_bearer_request demo_keyed).
    reflexivity.
  - vm_compute. reflexivity.
Defined.

Lemma requireSession_decides_by_user_witness :
  exists w',
    snd (requireSession default_config demo_cookie_request demo_created) = w' /\
    exists session',
      stored w' demo_token = Some session' /\ uid session' = uid demo_session /\
      fst (requireSession default_config demo_cookie_request demo_created)
      = Ok (Next (mkAttached (Some demo_user) (Some session') (Some demo_token) None)).
Proof.
  exact (requireSession_decides_by_user default_config demo_cookie_request demo_created
           demo_token demo_session default_schema (proj1 (proj2 demo_worlds_ok))
           eq_refl eq_refl eq_refl eq_refl).
Defined.


Lemma logout_ends_the_session_witness :
  fst (Handlers.logoutHandler demo_attached demo_created) = Ok (Handlers.Json 200 tt true) /\
  exists sessionToken,
    req_sessionToken demo_attached = Some sessionToken /\
    forall req later,
      redis later = redis (snd (Handlers.logoutHandler demo_attached demo_created)) ->
      cookies req !! SESSION_COOKIE_NAME default_config = Some sessionToken ->
      fst (requireSession default_config req later) = Ok (Respond INVALID_TOKEN true).
Proof.
  destruct (logout_ends_the_session default_config demo_attached demo_created)
    as [Hdead Hdone].
  assert (fst (Handlers.logoutHandler demo_attached demo_created)
          = Ok (Handlers.Json 200 tt true)) as Erun.
  { apply (Hdone (proj1 (proj2 demo_worlds_ok)) eq_refl demo_token demo_user); reflexivity. }
  split; [exact Erun |].
  destruct (Hdead 200 tt true Erun) as (_ & _ & H). exact H.
Defined.

Lemma logout_all_ends_every_session_witness :
  fst (Handlers.logoutAllHandler demo_attached demo_twice) = Ok (Handlers.Json 200 2 true) /\
  stored (snd (Handlers.logoutAllHandler demo_attached demo_twice)) demo_token = None /\
  stored (snd (Handlers.logoutAllHandler demo_attached demo_twice)) demo_token_2 = None.
Proof.
  destruct (logout_all_ends_every_session default_config demo_attached demo_twice)
    as [Hdead Hdone].
  assert (fst (Handlers.logoutAllHandler demo_attached demo_twice)
          = Ok (Handlers.Json 200 2 true)) as Erun.
  { rewrite (Hdone (proj1 (proj2 (proj2 demo_worlds_ok))) eq_refl demo_user eq_refl).
    vm_compute. reflexivity. }
  split; [exact Erun |].
  destruct (Hdead 200 2 true Erun) as (_ & _ & principal & Hp & Hall).
  injection Hp as <-.
  split; apply Hall; vm_compute; reflexivity.
Defined.


Lemma requireRole_is_the_exact_check_witness :
  let admin := mkAttached (Some (mkUser "u0" "root@example.com" None [ADMIN] true))
                          None None None in
  requireRole [USER] admin = Respond INSUFFICIENT_PERMISSIONS false /\
  hasRequiredRole [USER] true [ADMIN] = true /\
  (requireRole [ADMIN; USER] admin = Next admin
   <-> hasRequiredRole [ADMIN; USER] false [ADMIN] = true).
Proof.
  intros admin.
  destruct (requireRole_is_the_exact_check [ADMIN; USER] admin
              (mkUser "u0" "root@example.com" None [ADMIN] true) eq_refl)
    as (_ & Hflat & _ & _).
  destruct (requireRole_is_the_exact_check [USER] admin
              (mkUser "u0" "root@example.com" None [ADMIN] true) eq_refl)
    as (_ & _ & _ & Hdenied).
  split; [apply Hdenied; discriminate |]. split; [reflexivity | exact Hflat].
Defined.

Lemma convenience_guards_witness :
  fst (requireUser default_config demo_cookie_request demo_created)
  = Ok (Next demo_attached) /\
  fst (requireAdmin default_config demo_cookie_request demo_created)
  <> Ok (Next demo_attached).
Proof.
  destruct (convenience_guards default_config demo_cookie_request demo_created demo_attached)
    as (Hadmin & Huser & _).
  split.
  - apply Huser. split; [vm_compute; reflexivity |].
    exists demo_user. split; [reflexivity |]. left. apply list_elem_of_here.
  - intros H. apply Hadmin in H as (_ & principal & [= <-] & Hin).
    apply list_elem_of_singleton in Hin. discriminate Hin.
Defined.

Lemma cleanup_removes_expired_keys_only_witness :
  let w' := snd (cleanupExpiredApiKeys demo_expiring) in
  fst (cleanupExpiredApiKeys demo_expiring) = Ok 1 /\
  List.length (apiKeys demo_expiring) = 2%nat /\
  (forall k, k ∈ apiKeys w' -> is_expired (clock demo_expiring) k = false) /\
  (forall apiKey record,
      fst (validateApiKey apiKey demo_expiring) = Ok (Some record) ->
      fst (validateApiKey apiKey w') = Ok (Some record)).
Proof.
  intros w'. destruct (cleanup_removes_expired_keys_only demo_expiring)
    as (count & Ecount & Hcount & Hleft & _ & _ & Hvalid).
  fold w' in Hcount, Hleft, Hvalid.
  split; [| split; [reflexivity | split]].
  - rewrite Ecount, Hcount. vm_compute. reflexivity.
  - intros k Hk. apply (Hleft k Hk). reflexivity.
  - intros apiKey record. apply Hvalid. reflexivity.
Defined.

Lemma deleteApiKey_is_owner_guarded_witness :
  fst (deleteApiKey "key_0" "u1" demo_keyed) = Ok tt /\
  apiKeys (snd (deleteApiKey "key_0" "u1" demo_keyed)) = [] /\
  fst (deleteApiKey "key_0" "u2" demo_keyed) = Throw "API key not found or access denied" /\
  apiKeys (snd (deleteApiKey "key_0" "u2" demo_keyed)) = apiKeys demo_keyed /\
  fst (deleteApiKey "key_9" "u1" demo_keyed) = Throw "API key not found or access denied".
Proof.
  destruct (deleteApiKey_is_owner_guarded "key_0" "u1" demo_keyed)
    as (_ & _ & Hok & _ & _).
  destruct (deleteApiKey_is_owner_guarded "key_0" "u2" demo_keyed)
    as (_ & _ & _ & _ & Hother).
  destruct (deleteApiKey_is_owner_guarded "key_9" "u1" demo_keyed)
    as (_ & _ & _ & _ & Hunknown).
  assert (apiKeys demo_keyed = [key demo_record]) as Ekeys by (vm_compute; reflexivity).
  assert (forall id owner,
             (id, owner) <> ("key_0", "u1") ->
             forall k, k ∈ apiKeys demo_keyed -> key_id k <> id \/ userId k <> owner) as Hne.
  { intros id owner Hpair k Hk. rewrite Ekeys in Hk. apply list_elem_of_singleton in Hk.
    subst k. simpl. destruct (decide ("key_0" = id)) as [<- | ?]; [| by left].
    right. intros <-. by apply Hpair. }
  split; [| split; [vm_compute; reflexivity |]].
  - apply Hok. split; [reflexivity |]. exists (key demo_record).
    rewrite Ekeys. split; [apply list_elem_of_here | split; reflexivity].
  - destruct (Hother eq_refl (Hne "key_0" "u2" ltac:(discriminate))) as [E1 E2].
    destruct (Hunknown eq_refl (Hne "key_9" "u1" ltac:(discriminate))) as [E3 _].
    split; [exact E1 |]. split; [exact E2 | exact E3].
Defined.

Lemma listUserApiKeys_lists_own_keys_witness :
  exists l,
    fst (listUserApiKeys "u1" demo_expiring) = Ok l /\
    List.length l = 2%nat /\
    Sorted (fun a b => meta_createdAt b <= meta_createdAt a) l /\
    forall m, m ∈ l ->
      exists k, k ∈ apiKeys demo_expiring /\ userId k = "u1" /\ m = metadata_of_key k /\
                keyFingerprint m = slice_last 6 (keyHash k).
Proof.
  destruct (listUserApiKeys_lists_own_keys "u1" demo_expiring) as (_ & _ & Hlist).
  destruct (Hlist eq_refl) as (l & El & Hperm & Hsorted & Hall).
  exists l. split; [exact El |]. split; [| split; [exact Hsorted | exact Hall]].
  rewrite Hperm. vm_compute. reflexivity.
Defined.

Lemma deleteAllUserApiKeys_removes_the_keys_of_the_user_witness :
  fst (deleteAllUserApiKeys "u1" demo_expiring) = Ok 2 /\
  (forall k, k ∈ apiKeys (snd (deleteAllUserApiKeys "u1" demo_expiring)) <->
             k ∈ apiKeys demo_expiring /\ userId k <> "u1") /\
  fst (listUserApiKeys "u1" (snd (deleteAllUserApiKeys "u1" demo_expiring))) = Ok [].
Proof.
  destruct (deleteAllUserApiKeys_removes_the_keys_of_the_user "u1" demo_expiring)
    as (_ & Hdone).
  destruct (Hdone eq_refl) as (Ecount & Hleft & Hlist & _).
  split; [| split; [exact Hleft |]].
  - rewrite Ecount. vm_compute. reflexivity.
  - apply Hlist; reflexivity.
Defined.

Lemma createApiKeyHandler_outcomes_witness :
  exists body,
    fst (Handlers.createApiKeyHandler demo_user (Some "ci") None demo_world)
    = Ok (Handlers.Json 201 body false) /\
    validateApiKeyFormat (Handlers.created_plaintext body) = true /\
    Handlers.created_keyFingerprint body
    = slice_last 6 (sha256_hex (Handlers.created_plaintext body)) /\
    String.length (Handlers.created_keyFingerprint body) = 6%nat /\
    Handlers.created_name body = Some "ci" /\
    Handlers.created_expiresAt body = None /\
    Handlers.created_createdAt body = clock demo_world.
Proof.
  exact (createApiKeyHandler_outcomes demo_user (Some "ci") None demo_world eq_refl).
Defined.

Lemma deleteApiKeyHandler_outcomes_witness :
  fst (Handlers.deleteApiKeyHandler demo_user "key_0" demo_keyed)
  = Ok (Handlers.Json 200 "key_0" false) /\
  fst (Handlers.deleteApiKeyHandler demo_user "key_9" demo_keyed)
  = Ok (Handlers.Error Handlers.API_KEY_NOT_FOUND).
Proof.
  destruct (deleteApiKeyHandler_outcomes demo_user "key_0" demo_keyed eq_refl) as [Hown _].
  destruct (deleteApiKeyHandler_outcomes demo_user "key_9" demo_keyed eq_refl) as [_ Hnone].
  assert (apiKeys demo_keyed = [key demo_record]) as Ekeys by (vm_compute; reflexivity).
  split.
  - apply Hown. exists (key demo_record). rewrite Ekeys.
    split; [apply list_elem_of_here | split; reflexivity].
  - apply Hnone. intros k Hk. rewrite Ekeys in Hk. apply list_elem_of_singleton in Hk.
    subst k. left. discriminate.
Defined.

Lemma ipv4InRange_compares_the_prefix_bits_witness :
  ipv4InRange "173.245.63.255" "173.245.48.0" (Int 20) = Some true /\
  ipv4InRange "173.245.64.0" "173.245.48.0" (Int 20) = Some false /\
  ipv4InRange "173.245.63.255" "173.245.48.0" (Int 8) = Some true.
Proof.
  destruct (ipv4InRange_compares_the_prefix_bits "173.245.63.255" "173.245.48.0"
              2918531071 2918526976 20 eq_refl eq_refl ltac:(lia)) as [Ein Hnest].
  destruct (ipv4InRange_compares_the_prefix_bits "173.245.64.0" "173.245.48.0"
              2918531072 2918526976 20 eq_refl eq_refl ltac:(lia)) as [Eout _].
  split; [exact Ein |]. split; [exact Eout |].
  apply (Hnest 8); [lia | exact Ein].
Defined.

Lemma ipv4InRange_without_prefix_is_equality_witness :
  ipv4InRange "1.2.3.4" "0.0.0.0" (Int 0) = Some false /\
  ipInRange "1.2.3.4" "0.0.0.0/0" = Some false /\
  ipInRange "0.0.0.0" "0.0.0.0/0" = Some true /\
  ipInRange "1.2.3.4" "1.2.3.4" = Some true.
Proof.
  destruct (ipv4InRange_without_prefix_is_equality "1.2.3.4" "0.0.0.0" 16909060 0
              eq_refl eq_refl) as [Hshift Hblock].
  destruct (ipv4InRange_without_prefix_is_equality "0.0.0.0" "0.0.0.0" 0 0
              eq_refl eq_refl) as [_ Hbase].
  destruct (ipv4InRange_without_prefix_is_equality "1.2.3.4" "1.2.3.4" 16909060 16909060
              eq_refl eq_refl) as [_ Hbare].
  assert ("/"%char ∉ chars "0.0.0.0") as Hzero
    by (apply (bool_decide_unpack _); vm_compute; exact I).
  assert ("/"%char ∉ chars "1.2.3.4") as Hquad
    by (apply (bool_decide_unpack _); vm_compute; exact I).
  split; [apply Hshift; auto |].
  split; [apply (Hblock eq_refl Hzero) |].
  split; [apply (Hbase eq_refl Hzero) | apply (Hbare eq_refl Hquad)].
Defined.

Lemma ipv4ToNumber_reads_dotted_quads_witness :
  ipv4ToNumber "173.245.48.0" = Some (Int 2918526976) /\ 0 <= 2918526976 < 2 ^ 32.
Proof.
  apply (ipv4ToNumber_reads_dotted_quads (dotted "173" "245" "48" "0")
           (quad_value "173" "245" "48" "0")).
  apply dotted_quad_intro; reflexivity.
Defined.

Lemma fallback_ranges_well_formed (now : Z) :
  Forall (fun range => exists base prefix, cidr4 range base prefix)
         (ipv4 (getFallbackIpRanges now)).
Proof.
  assert (forall a b c d digits,
             octet a = true -> octet b = true -> octet c = true -> octet d = true ->
             (0 < List.length (chars digits) <= 15)%nat ->
             forallb is_digit (chars digits) = true ->
             1 <= decimal (chars digits) <= 32 ->
             exists base prefix, cidr4 (dotted a b c d +:+ "/" +:+ digits) base prefix) as Hblock.
  { intros a b c d digits Ha Hb Hc Hd Hlen Hdig Hrange. eexists _, _.
    apply cidr4_intro; [by apply dotted_quad_intro | done..]. }
  simpl. repeat (apply Forall_cons; split); try apply Forall_nil.
  - apply (Hblock "173" "245" "48" "0" "20"); vm_compute; (reflexivity || (split; lia || discriminate)).
  - apply (Hblock "103" "21" "244" "0" "22"); vm_compute; (reflexivity || (split; lia || discriminate)).
  - apply (Hblock "103" "22" "200" "0" "22"); vm_compute; (reflexivity || (split; lia || discriminate)).
  - apply (Hblock "103" "31" "4" "0" "22"); vm_compute; (reflexivity || (split; lia || discriminate)).
  - apply (Hblock "141" "101" "64" "0" "18"); vm_compute; (reflexivity || (split; lia || discriminate)).
  - apply (Hblock "108" "162" "192" "0" "18"); vm_compute; (reflexivity || (split; lia || discriminate)).
  - apply (Hblock "190" "93" "240" "0" "20"); vm_compute; (reflexivity || (split; lia || discriminate)).
  - apply (Hblock "188" "114" "96" "0" "20"); vm_compute; (reflexivity || (split; lia || discriminate)).
  - apply (Hblock "197" "234" "240" "0" "22"); vm_compute; (reflexivity || (split; lia || discriminate)).
  - apply (Hblock "198" "41" "128" "0" "17"); vm_compute; (reflexivity || (split; lia || discriminate)).
  - apply (Hblock "162" "158" "0" "0" "15"); vm_compute; (reflexivity || (split; lia || discriminate)).
  - apply (Hblock "104" "16" "0" "0" "13"); vm_compute; (reflexivity || (split; lia || discriminate)).
  - apply (Hblock "104" "24" "0" "0" "14"); vm_compute; (reflexivity || (split; lia || discriminate)).
  - apply (Hblock "172" "64" "0" "0" "13"); vm_compute; (reflexivity || (split; lia || discriminate)).
  - apply (Hblock "131" "0" "72" "0" "22"); vm_compute; (reflexivity || (split; lia || discriminate)).
  - exact I.
Qed.


Lemma ipv6InRange_blocks_nest_witness :
  ipv6InRange "2a06:98c7::1" "2a06:98c0::" (Int 29) = Ok true /\
  ipv6InRange "2a06:98c7::1" "2a06:98c0::" (Int 16) = Ok true /\
  ipv6InRange "2a06:98c8::1" "2a06:98c0::" (Int 29) = Ok false.
Proof.
  assert (ipv6InRange "2a06:98c7::1" "2a06:98c0::" (Int 29) = Ok true) as Ein
    by (vm_compute; reflexivity).
  split; [exact Ein |]. split; [| vm_compute; reflexivity].
  apply (ipv6InRange_blocks_nest "2a06:98c7::1" "2a06:98c0::" 29 16); [lia | exact Ein].
Defined.

Lemma extractCloudflareInfo_checks_the_source_witness :
  let inside := mkProxyRequest (Some "173.245.48.5") None (Some "10.0.0.1")
                               (Some "203.0.113.9") (Some "DE") in
  let outside := mkProxyRequest (Some "8.8.8.8") None (Some "173.245.48.5")
                                (Some "203.0.113.9") (Some "DE") in
  extractCloudflareInfo true (Some (getFallbackIpRanges 0)) inside
  = Some (Pass (Some "203.0.113.9") (Some "DE")) /\
  extractCloudflareInfo true (Some (getFallbackIpRanges 0)) outside
  = Some (Refuse INVALID_PROXY) /\
  extractCloudflareInfo true None outside = Some (Pass (Some "203.0.113.9") (Some "DE")).
Proof.
  intros inside outside.
  destruct (extractCloudflareInfo_checks_the_source (getFallbackIpRanges 0) inside
              (dotted "173" "245" "48" "5") (quad_value "173" "245" "48" "5") eq_refl
              (dotted_quad_intro "173" "245" "48" "5" eq_refl eq_refl eq_refl eq_refl)
              (fallback_ranges_well_formed 0)) as (Hin & _ & _ & _).
  destruct (extractCloudflareInfo_checks_the_source (getFallbackIpRanges 0) outside
              (dotted "8" "8" "8" "8") (quad_value "8" "8" "8" "8") eq_refl
              (dotted_quad_intro "8" "8" "8" "8" eq_refl eq_refl eq_refl eq_refl)
              (fallback_ranges_well_formed 0)) as (_ & _ & Hopen & _).
  split; [| split; [vm_compute; reflexivity | exact Hopen]].
  apply Hin. exists "173.245.48.0/20", (quad_value "173" "245" "48" "0"), (decimal (chars "20")).
  split; [apply list_elem_of_here |]. split; [| reflexivity].
  apply (cidr4_intro (dotted "173" "245" "48" "0") "20").
  - apply dotted_quad_intro; reflexivity.
  - simpl. lia.
  - reflexivity.
  - vm_compute. split; discriminate.
Defined.

Lemma deleteAllUserSessions_removes_indexed_sessions_only_witness :
  let w1 := snd (deleteAllUserSessions "u1" demo_twice) in
  stored w1 demo_token = None /\ stored w1 demo_token_2 = None /\
  (forall tokenId, tokenId ∉ indexed demo_twice "u1" ->
                   stored w1 tokenId = stored demo_twice tokenId) /\
  (forall owner, owner <> "u1" -> indexed w1 owner = indexed demo_twice owner).
Proof.
  intros w1.
  assert (deleteAllUserSessions "u1" demo_twice = (Ok tt, w1)) as E
    by (vm_compute; reflexivity).
  destruct (deleteAllUserSessions_removes_indexed_sessions_only "u1" demo_twice w1 E)
    as (Hgone & Hkept & Hothers).
  split; [apply Hgone; vm_compute; reflexivity |].
  split; [apply Hgone; vm_compute; reflexivity |].
  split; [exact Hkept | exact Hothers].
Defined.
